(** * MuDirac: the radial Dirac eigenvalue solver, its potentials and its state cache

    A shallow embedding of [lib/potential.cpp] (sphere Coulomb, Uehling and
    background-charge potentials), of [lib/atom.cpp] ([DiracState],
    [DiracAtom] and its search loops) and of the part of [main] that selects
    and computes the transitions, followed by the properties proved about
    them.

    Numbers.  A C++ [double] is modelled by [double] below: an exact rational,
    one of the two infinities, or NaN.  Arithmetic on finite values is exact
    (rounding, overflow to infinity and the sign of zero are not modelled);
    the special values follow IEEE 754, so that [x / 0], [isnan] and the
    comparisons with NaN behave as in the program.  An [int] is a [Z]
    (signed overflow is not modelled).

    Control.  A C++ call either returns, throws, or has undefined behaviour:
    the [outcome] type has one constructor for each.  Undefined behaviour is
    recorded for a subscript out of range, for a conversion to [int] that does
    not fit, and for the read of a member that no constructor has assigned; an
    [int] local that is read before its first assignment holds an arbitrary
    value (class [Indeterminate]).

    Layout.  The definitions come first: doubles, outcomes, potential.cpp
    ([Potential], [Background]), atom.cpp ([Atom]), the selection of the
    transitions in mudirac.cpp ([Main]) and a small instance on which they
    can be run ([Toy]); the properties follow ([DoubleFacts], [OutcomeFacts],
    [PotentialFacts], [AtomFacts], and then [DoubleExtra], [VecFacts],
    [PotentialExtra], [BackgroundFacts], [AtomExtra], [MainFacts]). *)

From Stdlib Require Import ZArith QArith Qround Qabs List Ascii String Bool Lia Lqa.
Import ListNotations.

(* ================================================================== *)
(** ** Doubles *)

Module Double.

Inductive double : Type :=
| Fin (q : Q)
| PInf
| NInf
| NaN.

(** Finite results are kept in lowest terms, so that equal values are equal
    terms. *)
Definition fin (q : Q) : double := Fin (Qred q).

Definition Qsgn (q : Q) : comparison := (Qnum q ?= 0)%Z.

Definition dsgn (x : double) : comparison :=
  match x with
  | Fin q => Qsgn q
  | PInf => Gt
  | NInf => Lt
  | NaN => Eq
  end.

Definition sgn_mul (a b : comparison) : comparison :=
  match a, b with
  | Eq, _ | _, Eq => Eq
  | Gt, Gt | Lt, Lt => Gt
  | _, _ => Lt
  end.

(** The infinity of a given sign; a zero sign stands for [inf * 0] or
    [0 / 0]. *)
Definition inf_of (s : comparison) : double :=
  match s with
  | Gt => PInf
  | Lt => NInf
  | Eq => NaN
  end.

Definition dopp (x : double) : double :=
  match x with
  | Fin q => fin (- q)
  | PInf => NInf
  | NInf => PInf
  | NaN => NaN
  end.

Definition dadd (x y : double) : double :=
  match x, y with
  | NaN, _ | _, NaN => NaN
  | Fin a, Fin b => fin (a + b)
  | PInf, NInf | NInf, PInf => NaN
  | PInf, _ | _, PInf => PInf
  | NInf, _ | _, NInf => NInf
  end.

Definition dsub (x y : double) : double := dadd x (dopp y).

Definition dmul (x y : double) : double :=
  match x, y with
  | NaN, _ | _, NaN => NaN
  | Fin a, Fin b => fin (a * b)
  | _, _ => inf_of (sgn_mul (dsgn x) (dsgn y))
  end.

(** Division; a zero divisor counts as [+0]. *)
Definition ddiv (x y : double) : double :=
  match x, y with
  | NaN, _ | _, NaN => NaN
  | Fin a, Fin b =>
      if Qeq_bool b 0 then inf_of (Qsgn a) else fin (a / b)
  | Fin _, _ => Fin 0
  | _, Fin b =>
      inf_of (sgn_mul (dsgn x) (if Qeq_bool b 0 then Gt else Qsgn b))
  | _, _ => NaN
  end.

Definition dabs (x : double) : double :=
  match x with
  | Fin q => fin (Qabs q)
  | PInf | NInf => PInf
  | NaN => NaN
  end.

(** [x < y]; false as soon as one side is NaN. *)
Definition dlt (x y : double) : bool :=
  match x, y with
  | NaN, _ | _, NaN => false
  | Fin a, Fin b => match (a ?= b)%Q with Lt => true | _ => false end
  | Fin _, PInf => true
  | Fin _, NInf => false
  | PInf, _ => false
  | NInf, NInf => false
  | NInf, _ => true
  end.

Definition dgt (x y : double) : bool := dlt y x.

(** [x <= y]. *)
Definition dle (x y : double) : bool :=
  match x, y with
  | NaN, _ | _, NaN => false
  | Fin a, Fin b => match (a ?= b)%Q with Gt => false | _ => true end
  | Fin _, PInf => true
  | Fin _, NInf => false
  | PInf, PInf => true
  | PInf, _ => false
  | NInf, _ => true
  end.

(** [x == y] and [x != y]. *)
Definition deqb (x y : double) : bool :=
  match x, y with
  | Fin a, Fin b => Qeq_bool a b
  | PInf, PInf | NInf, NInf => true
  | _, _ => false
  end.

Definition dneq (x y : double) : bool := negb (deqb x y).

(** [std::isnan]. *)
Definition disnan (x : double) : bool :=
  match x with NaN => true | _ => false end.

(** [std::max(a, b)] is [(a < b) ? b : a] and [std::min(a, b)] is
    [(b < a) ? b : a]. *)
Definition dmax (a b : double) : double := if dlt a b then b else a.
Definition dmin (a b : double) : double := if dlt b a then b else a.

(** [pow(x, n)] for a small non-negative integer exponent. *)
Fixpoint dpowi (x : double) (n : nat) : double :=
  match n with
  | O => Fin 1
  | S O => x
  | S n' => dmul x (dpowi x n')
  end.

(** [floor] and [ceil]. *)
Definition dfloor (x : double) : double :=
  match x with Fin q => Fin (inject_Z (Qfloor q)) | _ => x end.
Definition dceil (x : double) : double :=
  match x with Fin q => Fin (inject_Z (Qceiling q)) | _ => x end.

(** Conversion of an [int] to [double]. *)
Definition of_int (z : Z) : double := Fin (inject_Z z).

(** Conversion of a [double] to [int]: truncation; undefined when the
    truncated value does not fit a 32-bit [int]. *)
Definition to_int (x : double) : option Z :=
  match x with
  | Fin q =>
      let t := Z.quot (Qnum q) (Zpos (Qden q)) in
      if ((- 2147483648 <=? t) && (t <=? 2147483647))%Z then Some t else None
  | _ => None
  end.

Declare Scope double_scope.
Delimit Scope double_scope with D.
Bind Scope double_scope with double.
Notation "x + y" := (dadd x y) : double_scope.
Notation "x - y" := (dsub x y) : double_scope.
Notation "x * y" := (dmul x y) : double_scope.
Notation "x / y" := (ddiv x y) : double_scope.
Notation "- x" := (dopp x) : double_scope.
Notation "x <? y" := (dlt x y) : double_scope.
Notation "x >? y" := (dgt x y) : double_scope.
Notation "x <=? y" := (dle x y) : double_scope.
Notation "x != y" := (dneq x y) (at level 70, no associativity) : double_scope.

(** The functions of [<cmath>] that are not rational: parameters of the
    model. *)
Class Libm : Type := {
  m_exp : double -> double;
  m_log : double -> double;
  m_sqrt : double -> double;
  m_pow : double -> double -> double
}.

(** [M_PI] and [M_E] of [<cmath>], as written there. *)
Definition M_PI : double := Fin 3.14159265358979323846.
Definition M_E : double := Fin 2.7182818284590452354.

End Double.
Import Double.

(* ================================================================== *)
(** ** constants.hpp *)

Module Physical.

Definition alpha : double := Fin 7.2973525664e-3.
Definition c : double := Fin 137.035999139.
Definition fm : double := (Fin 1 / Fin 5.2917721067e4)%D.
Definition amu : double := Fin 1822.888486192.

End Physical.

(* ================================================================== *)
(** ** Outcomes of a call *)

Inductive AtomErrorCode : Type :=
| UNBOUND_STATE
| SMALL_GAMMA.

(** What the code throws: the two standard exception classes with their
    message, [std::length_error] of a vector allocation, an [AtomErrorCode]
    value, or a string literal. *)
Inductive exn : Type :=
| invalid_argument (what : string)
| runtime_error (what : string)
| length_error
| error_code (code : AtomErrorCode)
| literal (what : string).

Inductive outcome (A : Type) : Type :=
| Ok (a : A)
| Throw (e : exn)
| Undefined.

Arguments Ok {A} a.
Arguments Throw {A} e.
Arguments Undefined {A}.

Definition bind {A B : Type} (m : outcome A) (f : A -> outcome B) : outcome B :=
  match m with
  | Ok a => f a
  | Throw e => Throw e
  | Undefined => Undefined
  end.

Declare Scope outcome_scope.
Delimit Scope outcome_scope with outcome.
Notation "x <- m ;; f" := (bind m (fun x => f))
  (at level 61, m at next level, right associativity) : outcome_scope.
Notation "' p <- m ;; f" := (bind m (fun x => let p := x in f))
  (at level 61, p pattern, m at next level, right associativity) : outcome_scope.
Open Scope outcome_scope.

(** A loop body either goes on with a new loop state or leaves the function
    with a result. *)
Inductive step (S R : Type) : Type :=
| Continue (s : S)
| Return (r : R).

Arguments Continue {S R} s.
Arguments Return {S R} r.

(** A defined value or undefined behaviour. *)
Definition defined {A : Type} (o : option A) : outcome A :=
  match o with Some a => Ok a | None => Undefined end.

(* ================================================================== *)
(** ** Vectors *)

Module Vec.

(** [vector<double>(N, 0)]; a negative [int] size becomes a huge [size_t]
    and the allocation throws. *)
Definition zeros (N : Z) : outcome (list double) :=
  if (N <? 0)%Z then Throw length_error
  else Ok (repeat (Fin 0) (Z.to_nat N)).

Definition size {A : Type} (v : list A) : Z := Z.of_nat (List.length v).

(** [v[i]]: undefined out of range. *)
Definition get {A : Type} (v : list A) (i : Z) : outcome A :=
  if (i <? 0)%Z then Undefined else defined (nth_error v (Z.to_nat i)).

Fixpoint set_nat {A : Type} (v : list A) (i : nat) (a : A) : option (list A) :=
  match v, i with
  | [], _ => None
  | _ :: t, O => Some (a :: t)
  | h :: t, S i' => option_map (cons h) (set_nat t i' a)
  end.

(** [v[i] = a]: undefined out of range. *)
Definition set {A : Type} (v : list A) (i : Z) (a : A) : outcome (list A) :=
  if (i <? 0)%Z then Undefined else defined (set_nat v (Z.to_nat i) a).

(** The indices [0 .. n-1] as [int]s. *)
Definition indices (n : nat) : list Z := map Z.of_nat (seq 0 n).

End Vec.

(** A [for] loop over a list of indices whose body may throw. *)
Fixpoint for_each {A S : Type} (l : list A) (body : A -> S -> outcome S) (s : S)
  : outcome S :=
  match l with
  | [] => Ok s
  | a :: t => s' <- body a s ;; for_each t body s'
  end.

(* ================================================================== *)
(** ** potential.cpp *)

Module Potential.

Local Open Scope string_scope.
Local Open Scope double_scope.

(** Modelled from the spec: [trapzInt(dx, y)] of utils.cpp, which is not part
    of the sources; the trapezoidal rule with a uniform step. *)
Fixpoint trapzInt (dx : double) (y : list double) : double :=
  match y with
  | y0 :: ((y1 :: _) as t) => (y0 + y1) / Fin 2 * dx + trapzInt dx t
  | _ => Fin 0
  end.

(** *** CoulombSpherePotential

    The nuclear charge [Z] of the source is written [Zn], [Z] being the type
    of integers. *)

Record CoulombSpherePotential : Type := {
  csp_Z : double;
  csp_R : double;
  csp_R3 : double;
  csp_VR : double
}.

(** [CoulombSpherePotential::CoulombSpherePotential(Z, R)] *)
Definition CoulombSpherePotential_new (Zn R : double) : CoulombSpherePotential :=
  {| csp_Z := Zn;
     csp_R := R;
     csp_R3 := dpowi R 3;
     csp_VR := if R >? Fin 0 then Fin (-1.5) * Zn / R else Fin 0 |}.

(** [CoulombSpherePotential::V(r)] *)
Definition CoulombSphere_V (p : CoulombSpherePotential) (r : double)
  : outcome double :=
  if r <? Fin 0 then
    Throw (invalid_argument "Negative radius not allowed for CoulombPotential")
  else if r <? csp_R p then
    Ok (csp_Z p * dpowi r 2 / (Fin 2 * csp_R3 p) + csp_VR p)
  else
    Ok (- csp_Z p / r).

(** *** UehlingSpherePotential *)

(** The members of the class.  [uint0] is [None] until it is assigned: the
    class declaration (potential.hpp) is not part of the sources, and the
    model records which members the constructor writes. *)
Record UehlingSpherePotential : Type := {
  usp_Z : double;
  usp_R : double;
  usp_usteps : Z;
  usp_du : double;
  usp_uarg : list double;
  usp_uker : list double;
  usp_u24c2 : list double;
  usp_uker_great : list double;
  usp_uker_small : list double;
  usp_rho : double;
  usp_uint0 : option double;
  usp_K : double
}.

Section Uehling.

Context {libm : Libm}.

(** The two cut-off members [exp_cutoff_low] and [exp_cutoff_high], whose
    values are set in potential.hpp. *)
Variables exp_cutoff_low exp_cutoff_high : double.

Let alpha := Physical.alpha.
Let c := Physical.c.

(** [ukernel_r_greater(double u, double r, double R)] *)
Definition ukernel_r_greater_u (u r R : double) : double :=
  let ans := m_exp (Fin (-2) * r * c / u) in
  ans * (m_exp (Fin 2 * R * c / u) * (R * u * alpha / Fin 2 - dpowi (u * alpha) 2 / Fin 4) +
         m_exp (Fin (-2) * R * c / u) * (R * u * alpha / Fin 2 + dpowi (u * alpha) 2 / Fin 4)).

(** [ukernel_r_verysmall(u, R)] *)
Definition ukernel_r_verysmall (u R : double) : double :=
  Fin 4 * c / u *
  (- m_exp (Fin (-2) * R * c / u) *
     (Fin 0.5 * R * u * alpha + dpowi (u / (Fin 2 * c)) 2) +
   dpowi (u / (Fin 2 * c)) 2).

(** [ukernel_point(u, r)] *)
Definition ukernel_point (u r : double) : double :=
  Fin 1 / u * m_exp (Fin (-2) * r * c / u).

(** The tables filled by the first loop of the constructor: entry [0] stays
    [0], entry [i] is computed from [u = i * du]. *)
Definition table (usteps : Z) (du : double) (f : double -> double) : list double :=
  map (fun i => if (i =? 0)%Z then Fin 0 else f (of_int i * du))
      (Vec.indices (Z.to_nat usteps)).

(** [UehlingSpherePotential::UehlingSpherePotential(Z, R, usteps)] *)
Definition UehlingSpherePotential_new (Zn R : double) (usteps : Z)
  : outcome UehlingSpherePotential :=
  let du := Fin 1 / (of_int usteps - Fin 1) in
  zero <- Vec.zeros usteps ;;
  let uker := table usteps du (fun u => m_sqrt (Fin 1 - u * u) * (Fin 1 + Fin 0.5 * u * u)) in
  let u24c2_of := fun u => dpowi (u * alpha) 2 / Fin 4 in
  let u24c2 := table usteps du u24c2_of in
  let uker_great := table usteps du (fun u => ukernel_r_greater_u u (Fin 0) R) in
  let uker_small :=
    table usteps du (fun u =>
      m_exp (Fin (-2) * R * c / u) * (R * u * alpha / Fin 2 + u24c2_of u) - u24c2_of u) in
  '(rho, uarg, uint0) <-
    (if R >? Fin 0 then
       uarg0 <- Vec.set zero 0 (Fin 0) ;;
       uarg <- for_each (tl (Vec.indices (Z.to_nat usteps)))
                 (fun i uarg =>
                    uk <- Vec.get uker i ;;
                    Vec.set uarg i (ukernel_r_verysmall (of_int i * du) R * uk))
                 uarg0 ;;
       Ok (Zn * Fin 0.75 / (M_PI * dpowi R 3), uarg, Some (trapzInt du uarg))
     else
       Ok (Zn / (M_PI * alpha), zero, None)) ;;
  Ok {| usp_Z := Zn;
        usp_R := R;
        usp_usteps := usteps;
        usp_du := du;
        usp_uarg := uarg;
        usp_uker := uker;
        usp_u24c2 := u24c2;
        usp_uker_great := uker_great;
        usp_uker_small := uker_small;
        usp_rho := rho;
        usp_uint0 := uint0;
        usp_K := Fin (-2) * dpowi alpha 2 / Fin 3 * rho |}.

(** [ukernel_r_greater(int i, double r, bool rR)] *)
Definition ukernel_r_greater (p : UehlingSpherePotential) (i : Z) (r : double)
  (rR : bool) : outcome double :=
  if negb rR then
    let ans := m_exp (Fin (-2) * r * c / (usp_du p * of_int i)) in
    g <- Vec.get (usp_uker_great p) i ;;
    Ok (ans * g)
  else
    let u := usp_du p * of_int i in
    w <- Vec.get (usp_u24c2 p) i ;;
    Ok ((r * u * alpha / Fin 2 - w) +
        m_exp (Fin (-4) * r * c / u) * (r * u * alpha / Fin 2 + w)).

(** [ukernel_r_smaller(int i, double r, bool rR)] *)
Definition ukernel_r_smaller (p : UehlingSpherePotential) (i : Z) (r : double)
  (rR : bool) : outcome double :=
  let u := usp_du p * of_int i in
  if negb rR then
    let ans := m_exp (Fin (-2) * r * c / u) - m_exp (Fin 2 * r * c / u) in
    s <- Vec.get (usp_uker_small p) i ;;
    Ok (ans * s)
  else
    let ecru := m_exp (Fin (-2) * r * c / u) in
    w <- Vec.get (usp_u24c2 p) i ;;
    Ok ((r * u * alpha / Fin 2 + w) * (dpowi ecru 2 - Fin 1) +
        w * (Fin 1 / ecru - ecru)).

(** The body of the loop of [V]: the new value of [uarg[i]].  The two-argument
    calls of the kernels take [rR = false]. *)
Definition V_kernel (p : UehlingSpherePotential) (r : double) (i : Z)
  : outcome double :=
  let u := of_int i * usp_du p in
  a <- (if usp_R p <=? Fin 0 then Ok (ukernel_point u r)
        else if r >? usp_R p then ukernel_r_greater p i r false
        else
          g <- ukernel_r_greater p i r true ;;
          s <- ukernel_r_smaller p i r false ;;
          sR <- ukernel_r_smaller p i r true ;;
          Ok (g + s - sR)) ;;
  uk <- Vec.get (usp_uker p) i ;;
  Ok (a * uk).

Definition set_uarg (p : UehlingSpherePotential) (uarg : list double)
  : UehlingSpherePotential :=
  {| usp_Z := usp_Z p;
     usp_R := usp_R p;
     usp_usteps := usp_usteps p;
     usp_du := usp_du p;
     usp_uarg := uarg;
     usp_uker := usp_uker p;
     usp_u24c2 := usp_u24c2 p;
     usp_uker_great := usp_uker_great p;
     usp_uker_small := usp_uker_small p;
     usp_rho := usp_rho p;
     usp_uint0 := usp_uint0 p;
     usp_K := usp_K p |}.

(** [UehlingSpherePotential::V(r)]: the value returned and the object after
    the call ([uarg] is overwritten as scratch space).  Reading [uint0] before
    it was ever assigned is undefined. *)
Definition Uehling_V (p : UehlingSpherePotential) (r : double)
  : outcome (double * UehlingSpherePotential) :=
  if r >? exp_cutoff_high * Fin 0.5 * alpha then
    Ok (Fin 0, p)
  else if r <? exp_cutoff_low * Fin 0.5 * usp_du p * alpha then
    uint0 <- defined (usp_uint0 p) ;;
    Ok (usp_K p * uint0, p)
  else
    uarg0 <- Vec.set (usp_uarg p) 0 (Fin 0) ;;
    uarg <- for_each (tl (Vec.indices (Z.to_nat (usp_usteps p))))
              (fun i uarg => v <- V_kernel p r i ;; Vec.set uarg i v)
              uarg0 ;;
    let ans := trapzInt (usp_du p) uarg in
    Ok (usp_K p / r * ans, set_uarg p uarg).

End Uehling.

(** The five tables of a potential have [usteps] entries each, and there is
    at least one: every subscript that [V] computes is then in range. *)
Definition tables_ready (p : UehlingSpherePotential) : Prop :=
  (1 <= usp_usteps p)%Z /\
  Vec.size (usp_uarg p) = usp_usteps p /\
  Vec.size (usp_uker p) = usp_usteps p /\
  Vec.size (usp_u24c2 p) = usp_usteps p /\
  Vec.size (usp_uker_great p) = usp_usteps p /\
  Vec.size (usp_uker_small p) = usp_usteps p.

End Potential.

(** [for (i = 0; i < n; ++i) out[i] = f(i)], where [f] may throw. *)
Fixpoint tabulate_from {A : Type} (f : Z -> outcome A) (i : Z) (n : nat)
  : outcome (list A) :=
  match n with
  | O => Ok []
  | S n' => a <- f i ;; t <- tabulate_from f (i + 1) n' ;; Ok (a :: t)
  end.

Definition tabulate {A : Type} (N : Z) (f : Z -> outcome A) : outcome (list A) :=
  tabulate_from f 0 (Z.to_nat N).

(* ================================================================== *)
(** ** atom.cpp *)

Module Atom.

Local Open Scope string_scope.
Local Open Scope double_scope.

(** *** Collaborators that are not part of the sources *)

Record TurningPoint : Type := {
  tp_i : Z;
  tp_Qi : double;
  tp_Qe : double;
  tp_Pi : double;
  tp_Pe : double
}.

(** The boundary conditions and the integrators (boundary.cpp,
    integrate.cpp), the hydrogenic energy (hydrogenic.cpp) and
    [effectiveMass] (utils.cpp).  The arguments passed by reference and
    written by the callee are returned. *)
Class Numerics : Type := {
  hydrogenicDiracEnergy : double -> double -> Z -> Z -> double;
  effectiveMass : double -> double -> double;
  boundaryDiracCoulomb :
    list double -> list double -> list double -> double -> Z -> double ->
    double -> bool -> outcome (list double * list double);
  shootDiracLog :
    list double -> list double -> list double -> list double -> double -> Z ->
    double -> double -> outcome (list double * list double * TurningPoint);
  shootDiracErrorDELog :
    list double -> list double -> list double -> list double -> Z -> double ->
    Z -> double -> double -> Ascii.ascii -> outcome (list double);
  boundaryDiracErrorDECoulomb :
    list double -> double -> Z -> double -> outcome (list double)
}.

(** Values the program reads without atom.cpp ever writing them: the members
    [k] and [nodesQ] of a freshly constructed [DiracState] (their initial
    value, if any, is given in atom.hpp), the local [dnode] of [calcState] and
    the locals [nl] and [nr] of [convergeNodes] before their first
    assignment.  Every result below holds whatever these values are. *)
Class Indeterminate : Type := {
  k0 : Z;
  nodesQ0 : Z;
  dnode : Z;
  nl0 : Z;
  nr0 : Z
}.

(** Modelled from the spec: [qnumDirac2Schro] of utils.cpp, the inverse of
    "k = l if (s and l>0) else -l-1". *)
Definition qnumDirac2Schro (k : Z) : Z * bool :=
  if (0 <? k)%Z then (k, true) else ((- k - 1)%Z, false).

(** Modelled from the spec: [qnumNodes2Principal] of utils.cpp, from
    "nodesP = n-l-1". *)
Definition qnumNodes2Principal (nodes l : Z) : Z := (nodes + l + 1)%Z.

(** Modelled from the spec: [countNodes] of utils.cpp; a node is a sign
    change between two consecutive samples. *)
Fixpoint countNodes (v : list double) : Z :=
  match v with
  | x :: ((y :: _) as t) =>
      ((if (x * y <? Fin 0)%D then 1 else 0) + countNodes t)%Z
  | _ => 0%Z
  end.

(** Modelled from the spec: [trapzInt(x, y)] of utils.cpp, the trapezoidal
    rule on the abscissas [x]. *)
Fixpoint trapzInt (x y : list double) : double :=
  match x, y with
  | x0 :: ((x1 :: _) as tx), y0 :: ((y1 :: _) as ty) =>
      (x1 - x0) * (y0 + y1) / Fin 2 + trapzInt tx ty
  | _, _ => Fin 0
  end.

Section WithCollaborators.

Context {libm : Libm} {num : Numerics} {ind : Indeterminate}.

(** Modelled from the spec: [logGrid(rc, dx, i0, i1)] of utils.cpp.  It
    returns the logarithmic coordinates [i * dx] and the radii
    [rc * exp(i * dx)] for [i0 <= i <= i1], and fails if [dx <= 0], [rc <= 0]
    or [i1 < i0]. *)
Definition logGrid (rc dx : double) (i0 i1 : Z)
  : outcome (list double * list double) :=
  if (dx <=? Fin 0) || (rc <=? Fin 0) || (i1 <? i0)%Z then
    Throw (invalid_argument "Invalid grid parameters")
  else
    let idx := map (fun j => (i0 + j)%Z) (Vec.indices (Z.to_nat (i1 - i0 + 1))) in
    Ok (map (fun i => of_int i * dx) idx,
        map (fun i => rc * m_exp (of_int i * dx)) idx).

(** *** DiracState *)

Record DiracState : Type := {
  ds_E : double;
  ds_nodes : Z;
  ds_init : bool;
  ds_k : Z;
  ds_nodesQ : Z;
  ds_grid_indices : Z * Z;
  ds_grid : list double;
  ds_loggrid : list double;
  ds_Q : list double;
  ds_P : list double;
  ds_V : list double
}.

(** [DiracState::DiracState(int N)] after [State::State()].  Modelled from the
    spec: a fresh state is not initialised ([init = false]). *)
Definition DiracState_N (N : Z) : outcome DiracState :=
  z <- Vec.zeros N ;;
  Ok {| ds_E := Fin 0; ds_nodes := 0; ds_init := false;
        ds_k := k0; ds_nodesQ := nodesQ0; ds_grid_indices := (0, 0)%Z;
        ds_grid := z; ds_loggrid := z; ds_Q := z; ds_P := z; ds_V := z |}.

(** [DiracState state;] *)
Definition DiracState_default : DiracState :=
  {| ds_E := Fin 0; ds_nodes := 0; ds_init := false;
     ds_k := k0; ds_nodesQ := nodesQ0; ds_grid_indices := (0, 0)%Z;
     ds_grid := []; ds_loggrid := []; ds_Q := []; ds_P := []; ds_V := [] |}.

(** Assignments to one member. *)
Definition with_E (s : DiracState) (E : double) : DiracState :=
  {| ds_E := E; ds_nodes := ds_nodes s; ds_init := ds_init s; ds_k := ds_k s;
     ds_nodesQ := ds_nodesQ s; ds_grid_indices := ds_grid_indices s;
     ds_grid := ds_grid s; ds_loggrid := ds_loggrid s; ds_Q := ds_Q s;
     ds_P := ds_P s; ds_V := ds_V s |}.

Definition with_k (s : DiracState) (k : Z) : DiracState :=
  {| ds_E := ds_E s; ds_nodes := ds_nodes s; ds_init := ds_init s; ds_k := k;
     ds_nodesQ := ds_nodesQ s; ds_grid_indices := ds_grid_indices s;
     ds_grid := ds_grid s; ds_loggrid := ds_loggrid s; ds_Q := ds_Q s;
     ds_P := ds_P s; ds_V := ds_V s |}.

Definition with_V (s : DiracState) (V : list double) : DiracState :=
  {| ds_E := ds_E s; ds_nodes := ds_nodes s; ds_init := ds_init s; ds_k := ds_k s;
     ds_nodesQ := ds_nodesQ s; ds_grid_indices := ds_grid_indices s;
     ds_grid := ds_grid s; ds_loggrid := ds_loggrid s; ds_Q := ds_Q s;
     ds_P := ds_P s; ds_V := V |}.

Definition with_QP (s : DiracState) (Q P : list double) : DiracState :=
  {| ds_E := ds_E s; ds_nodes := ds_nodes s; ds_init := ds_init s; ds_k := ds_k s;
     ds_nodesQ := ds_nodesQ s; ds_grid_indices := ds_grid_indices s;
     ds_grid := ds_grid s; ds_loggrid := ds_loggrid s; ds_Q := Q;
     ds_P := P; ds_V := ds_V s |}.

Definition with_nodes (s : DiracState) (nodes nodesQ : Z) : DiracState :=
  {| ds_E := ds_E s; ds_nodes := nodes; ds_init := ds_init s; ds_k := ds_k s;
     ds_nodesQ := nodesQ; ds_grid_indices := ds_grid_indices s;
     ds_grid := ds_grid s; ds_loggrid := ds_loggrid s; ds_Q := ds_Q s;
     ds_P := ds_P s; ds_V := ds_V s |}.

Definition with_init (s : DiracState) (init : bool) : DiracState :=
  {| ds_E := ds_E s; ds_nodes := ds_nodes s; ds_init := init; ds_k := ds_k s;
     ds_nodesQ := ds_nodesQ s; ds_grid_indices := ds_grid_indices s;
     ds_grid := ds_grid s; ds_loggrid := ds_loggrid s; ds_Q := ds_Q s;
     ds_P := ds_P s; ds_V := ds_V s |}.

(** [DiracState::DiracState(double rc, double dx, int i0, int i1)] *)
Definition DiracState_grid (rc dx : double) (i0 i1 : Z) : outcome DiracState :=
  s <- DiracState_N (i1 - i0 + 1) ;;
  '(loggrid, grid) <- logGrid rc dx i0 i1 ;;
  Ok {| ds_E := ds_E s; ds_nodes := ds_nodes s; ds_init := ds_init s;
        ds_k := ds_k s; ds_nodesQ := ds_nodesQ s; ds_grid_indices := (i0, i1);
        ds_grid := grid; ds_loggrid := loggrid; ds_Q := ds_Q s; ds_P := ds_P s;
        ds_V := ds_V s |}.

(** [DiracState::DiracState(const DiracState &s)]: the copy is always marked
    initialised; [V] and [nodesQ] are not copied. *)
Definition DiracState_copy (s : DiracState) : DiracState :=
  {| ds_E := ds_E s; ds_nodes := ds_nodes s; ds_init := true; ds_k := ds_k s;
     ds_nodesQ := nodesQ0; ds_grid_indices := ds_grid_indices s;
     ds_grid := ds_grid s; ds_loggrid := ds_loggrid s; ds_Q := ds_Q s;
     ds_P := ds_P s; ds_V := [] |}.

(** [DiracState::norm()] *)
Definition norm (s : DiracState) : outcome double :=
  let N := Vec.size (ds_P s) in
  rho <- tabulate N (fun i =>
           p <- Vec.get (ds_P s) i ;;
           q <- Vec.get (ds_Q s) i ;;
           g <- Vec.get (ds_grid s) i ;;
           Ok ((dpowi p 2 + dpowi q 2) * g)) ;;
  Ok (m_sqrt (trapzInt (ds_loggrid s) rho)).

(** [for (i = from; i < N; ++i) v[i] = f(v[i])]: undefined if an index out of
    the range of [v] is reached. *)
Definition update_range (from N : Z) (f : double -> double) (v : list double)
  : outcome (list double) :=
  if ((from <? N) && ((from <? 0) || (Vec.size v <? N)))%Z then Undefined
  else Ok (map (fun '(i, x) => if ((from <=? i) && (i <? N))%Z then f x else x)
               (combine (Vec.indices (List.length v)) v)).

(** [DiracState::continuify(tp)] *)
Definition continuify (s : DiracState) (tp : TurningPoint) : outcome DiracState :=
  let N := Vec.size (ds_P s) in
  let f := tp_Pi tp / tp_Pe tp in
  P <- update_range (tp_i tp) N (fun x => x * f) (ds_P s) ;;
  Q <- update_range (tp_i tp) N (fun x => x * f) (ds_Q s) ;;
  Ok (with_QP s Q P).

(** [DiracState::findNodes()] *)
Definition findNodes (s : DiracState) : DiracState :=
  with_nodes s (countNodes (ds_P s)) (countNodes (ds_Q s)).

(** [DiracState::normalize()] *)
Definition normalize (s : DiracState) : outcome DiracState :=
  let N := Vec.size (ds_P s) in
  n <- norm s ;;
  P <- update_range 0 N (fun x => x / n) (ds_P s) ;;
  Q <- update_range 0 N (fun x => x / n) (ds_Q s) ;;
  Ok (with_QP s Q P).

(** [DiracState::getl()], [gets()] and [getn()] *)
Definition getl (s : DiracState) : Z := fst (qnumDirac2Schro (ds_k s)).
Definition gets (s : DiracState) : bool := snd (qnumDirac2Schro (ds_k s)).
Definition getn (s : DiracState) : Z := qnumNodes2Principal (ds_nodes s) (getl s).

(** *** Atom and DiracAtom *)

(** The tunable members of [DiracAtom]; their initial values are given in
    atom.hpp, and they are public (the tests overwrite [out_eps]). *)
Record Settings : Type := {
  set_Etol : double;
  set_Esearch : double;
  set_max_dE_ratio : double;
  set_Edamp : double;
  set_in_eps : double;
  set_out_eps : double;
  set_maxit : Z
}.

(** The members of [DiracAtom] other than the cache [states].  The nuclear
    charge [Z] is [da_Z]; the potential object [V] is represented by its
    method [V.V]. *)
Record DiracAtom : Type := {
  da_Z : double;
  da_A : double;
  da_m : double;
  da_mu : double;
  da_R : double;
  da_rc : double;
  da_dx : double;
  da_V : double -> outcome double;
  da_restE : double;
  da_set : Settings
}.

Definition Etol (a : DiracAtom) := set_Etol (da_set a).
Definition Esearch (a : DiracAtom) := set_Esearch (da_set a).
Definition max_dE_ratio (a : DiracAtom) := set_max_dE_ratio (da_set a).
Definition Edamp (a : DiracAtom) := set_Edamp (da_set a).
Definition in_eps (a : DiracAtom) := set_in_eps (da_set a).
Definition out_eps (a : DiracAtom) := set_out_eps (da_set a).
Definition maxit (a : DiracAtom) := set_maxit (da_set a).

Inductive NuclearRadiusModel : Type :=
| POINT
| SPHERE.

(** [Atom::sphereNuclearModel(A)] *)
Definition sphereNuclearModel (A : double) : double :=
  Fin 1.2 * Physical.fm * m_pow A (Fin 1 / Fin 3).

(** [Atom::Atom(Z, m, A, radius_model, fc, dx)] followed by
    [DiracAtom::DiracAtom]; the potential [CoulombPotential(Z, R)] is the
    sphere Coulomb potential of potential.cpp. *)
Definition DiracAtom_new (Zn m A : double) (radius_model : NuclearRadiusModel)
  (fc dx : double) (settings : Settings) : outcome DiracAtom :=
  if Zn <=? Fin 0 then Throw (invalid_argument "Z must be positive")
  else if m <=? Fin 0 then Throw (invalid_argument "Mass can not be negative")
  else if (fc <=? Fin 0) || (dx <=? Fin 0) then
    Throw (invalid_argument "Invalid grid parameters passed to Atom")
  else
    let mu := if A >? Fin 0 then effectiveMass m (A * Physical.amu) else m in
    let R :=
      if deqb A (Fin (-1)) then Fin (-1)
      else match radius_model with
           | POINT => Fin (-1)
           | SPHERE => sphereNuclearModel A
           end in
    Ok {| da_Z := Zn; da_A := A; da_m := m; da_mu := mu; da_R := R;
          da_rc := fc / (Zn * mu); da_dx := dx;
          da_V := Potential.CoulombSphere_V (Potential.CoulombSpherePotential_new Zn R);
          da_restE := mu * dpowi Physical.c 2;
          da_set := settings |}.

(** [Atom::getV(r)] *)
Fixpoint getV (a : DiracAtom) (r : list double) : outcome (list double) :=
  match r with
  | [] => Ok []
  | x :: t => v <- da_V a x ;; vt <- getV a t ;; Ok (v :: vt)
  end.

(** [DiracAtom::gridLimits(E, k)] *)
Definition gridLimits (a : DiracAtom) (E : double) (k : Z) : outcome (Z * Z) :=
  let K := dpowi (da_mu a * Physical.c) 2 - dpowi (E / Physical.c) 2 in
  let gamma := dpowi (of_int k) 2 - dpowi (da_Z a * Physical.alpha) 2 in
  if K <? Fin 0 then Throw (error_code UNBOUND_STATE)
  else if gamma <? Fin 0 then Throw (error_code SMALL_GAMMA)
  else
    let K := m_sqrt K in
    let gamma := m_sqrt gamma in
    let B := E - da_restE a in
    let r_tp := da_Z a / dabs B in
    if (out_eps a >? Fin 1) || (out_eps a <? Fin 0) then
      Throw (runtime_error "Invalid value for out_eps in DiracAtom; must be 0 < out_eps < 1")
    else
      let r_out := r_tp - m_log (out_eps a) / K in
      if (in_eps a >? Fin 1) || (in_eps a <? Fin 0) then
        Throw (runtime_error "Invalid value for in_eps in DiracAtom; must be 0 < in_eps < 1")
      else
        let r_in := m_pow (in_eps a) (Fin 1 / gamma) / M_E * gamma / K in
        if r_in >? r_tp then
          Throw (runtime_error "Inner grid radius is too small for given atom and state; please decrease in_eps")
        else
          i_out <- defined (to_int (dceil (m_log (r_out / da_rc a) / da_dx a))) ;;
          i_in <- defined (to_int (dfloor (m_log (r_in / da_rc a) / da_dx a))) ;;
          Ok (i_in, i_out).

(** [DiracAtom::integrateState(state, tp)] *)
Definition integrateState (a : DiracAtom) (state : DiracState)
  : outcome (DiracState * TurningPoint) :=
  let N := Vec.size (ds_grid state) in
  if (N =? 0)%Z then
    Throw (runtime_error "Can not integrate state with zero-sized grid")
  else
    g0 <- Vec.get (ds_grid state) 0 ;;
    '(Q, P) <- boundaryDiracCoulomb (ds_Q state) (ds_P state) (ds_grid state)
                 (ds_E state) (ds_k state) (da_mu a) (da_Z a) (da_R a >? g0) ;;
    '(Q, P, tp) <- shootDiracLog Q P (ds_grid state) (ds_V state) (ds_E state)
                     (ds_k state) (da_mu a) (da_dx a) ;;
    Ok (with_QP state Q P, tp).

(** The energy correction computed from an integrated state: the common
    second half of [integrateState(state, tp, dE)] and [stateIntegrate]. *)
Definition energyCorrection (a : DiracAtom) (state : DiracState) (tp : TurningPoint)
  : outcome double :=
  let N := Vec.size (ds_grid state) in
  zero <- Vec.zeros N ;;
  let err := tp_Qi tp / tp_Pi tp - tp_Qe tp / tp_Pe tp in
  y <- tabulate N (fun i =>
         q <- Vec.get (ds_Q state) i ;; p <- Vec.get (ds_P state) i ;; Ok (q / p)) ;;
  y <- Vec.set y (tp_i tp) (tp_Qi tp / tp_Pi tp) ;;
  zetai <- shootDiracErrorDELog zero y (ds_grid state) (ds_V state) (tp_i tp)
             (ds_E state) (ds_k state) (da_mu a) (da_dx a) "f"%char ;;
  y <- Vec.set y (tp_i tp) (tp_Qe tp / tp_Pe tp) ;;
  zetae <- boundaryDiracErrorDECoulomb zero (ds_E state) (ds_k state) (da_mu a) ;;
  zetae <- shootDiracErrorDELog zetae y (ds_grid state) (ds_V state) (tp_i tp)
             (ds_E state) (ds_k state) (da_mu a) (da_dx a) "b"%char ;;
  zi <- Vec.get zetai (tp_i tp) ;;
  ze <- Vec.get zetae (tp_i tp) ;;
  Ok (err / (zi - ze)).

(** [DiracAtom::integrateState(state, tp, dE)] *)
Definition integrateState_dE (a : DiracAtom) (state : DiracState)
  : outcome (DiracState * TurningPoint * double) :=
  '(state, tp) <- integrateState a state ;;
  dE <- energyCorrection a state tp ;;
  Ok (state, tp, dE).

(** [DiracAtom::stateIntegrate(state, tp)] *)
Definition stateIntegrate (a : DiracAtom) (state : DiracState)
  : outcome (DiracState * TurningPoint * double) :=
  g0 <- Vec.get (ds_grid state) 0 ;;
  '(Q, P) <- boundaryDiracCoulomb (ds_Q state) (ds_P state) (ds_grid state)
               (ds_E state) (ds_k state) (da_mu a) (da_Z a) (da_R a >? g0) ;;
  '(Q, P, tp) <- shootDiracLog Q P (ds_grid state) (ds_V state) (ds_E state)
                   (ds_k state) (da_mu a) (da_dx a) ;;
  let state := with_QP state Q P in
  dE <- energyCorrection a state tp ;;
  Ok (state, tp, dE).

(** [DiracAtom::stateCountNodes(state, tp)] *)
Definition stateCountNodes (a : DiracAtom) (state : DiracState)
  : outcome (DiracState * TurningPoint) :=
  let N := Vec.size (ds_grid state) in
  g0 <- Vec.get (ds_grid state) 0 ;;
  '(Q, P) <- boundaryDiracCoulomb (ds_Q state) (ds_P state) (ds_grid state)
               (ds_E state) (ds_k state) (da_mu a) (da_Z a) (da_R a >? g0) ;;
  '(Q, P, tp) <- shootDiracLog Q P (ds_grid state) (ds_V state) (ds_E state)
                   (ds_k state) (da_mu a) (da_dx a) ;;
  let state := with_QP state Q P in
  let f := tp_Pi tp / tp_Pe tp in
  P <- update_range (tp_i tp) N (fun x => x * f) (ds_P state) ;;
  Q <- update_range (tp_i tp) N (fun x => x * f) (ds_Q state) ;;
  let state := with_QP state Q P in
  Ok (with_nodes state (countNodes (ds_P state)) (countNodes (ds_Q state)), tp).

(** [DiracAtom::initState(E, k)]; the local [state] is returned in place, as
    in [convergeState]. *)
Definition initState (a : DiracAtom) (E : double) (k : Z) : outcome DiracState :=
  '(i0, i1) <- gridLimits a E k ;;
  state <- DiracState_grid (da_rc a) (da_dx a) i0 i1 ;;
  Ok (with_E (with_k state k) E).

(** *** The two search loops *)

(** The block that [convergeNodes] runs for each of its two trial energies:
    build the grid and the state for energy [E], integrate it, make it
    continuous and count its nodes. *)
Definition integrateTrial (a : DiracAtom) (E : double) (k : Z)
  : outcome (DiracState * TurningPoint) :=
  '(i0, i1) <- gridLimits a E k ;;
  state <- DiracState_grid (da_rc a) (da_dx a) i0 i1 ;;
  let state := with_E (with_k state k) E in
  V <- getV a (ds_grid state) ;;
  let state := with_V state V in
  '(state, tp) <- integrateState a state ;;
  state <- continuify state tp ;;
  Ok (findNodes state, tp).

(** The variables of [convergeNodes] that live across iterations. *)
Record NodesLoop : Type := {
  nl_state : DiracState;
  nl_tp : TurningPoint;
  nl_minE : double;
  nl_maxE : double;
  nl_El : double;
  nl_Er : double;
  nl_oldEl : double;
  nl_oldEr : double;
  nl_nl : Z;
  nl_nr : Z
}.

(** What [convergeNodes] leaves in its four reference arguments. *)
Definition NodesResult : Type := (DiracState * TurningPoint * double * double)%type.

Definition nodes_result (s : NodesLoop) : NodesResult :=
  (nl_state s, nl_tp s, nl_minE s, nl_maxE s).

(** [if (El != oldEl) { ... }] *)
Definition left_trial (a : DiracAtom) (k targ_nodes : Z) (s : NodesLoop)
  : outcome (step NodesLoop NodesResult) :=
  if nl_El s != nl_oldEl s then
    '(state, tp) <- integrateTrial a (nl_El s) k ;;
    let s' := {| nl_state := state; nl_tp := tp; nl_minE := nl_minE s;
                 nl_maxE := nl_maxE s; nl_El := nl_El s; nl_Er := nl_Er s;
                 nl_oldEl := nl_oldEl s; nl_oldEr := nl_oldEr s;
                 nl_nl := ds_nodes state; nl_nr := nl_nr s |} in
    if (nl_nl s' =? targ_nodes)%Z then Ok (Return (nodes_result s'))
    else Ok (Continue s')
  else Ok (Continue s).

(** [if (Er != oldEr) { ... }] *)
Definition right_trial (a : DiracAtom) (k targ_nodes : Z) (s : NodesLoop)
  : outcome (step NodesLoop NodesResult) :=
  if nl_Er s != nl_oldEr s then
    '(state, tp) <- integrateTrial a (nl_Er s) k ;;
    let s' := {| nl_state := state; nl_tp := tp; nl_minE := nl_minE s;
                 nl_maxE := nl_maxE s; nl_El := nl_El s; nl_Er := nl_Er s;
                 nl_oldEl := nl_oldEl s; nl_oldEr := nl_oldEr s;
                 nl_nl := nl_nl s; nl_nr := ds_nodes state |} in
    if (nl_nr s' =? targ_nodes)%Z then Ok (Return (nodes_result s'))
    else Ok (Continue s')
  else Ok (Continue s).

Definition msg_nodes_order : string :=
  "convergeNodes failed - higher number of nodes for lower energy".
Definition msg_nodes_maxit : string :=
  "convergeNodes failed to find a suitable state - maximum iterations hit".

(** The classification by the signs of [dl] and [dr], and the new bracket. *)
Definition classify (targ_nodes : Z) (s : NodesLoop) : outcome NodesLoop :=
  let dl := (nl_nl s - targ_nodes)%Z in
  let dr := (nl_nr s - targ_nodes)%Z in
  let El := nl_El s in
  let Er := nl_Er s in
  if ((dl >? 0) && (dr >? 0))%Z then
    Ok {| nl_state := nl_state s; nl_tp := nl_tp s;
          nl_minE := nl_minE s; nl_maxE := El;
          nl_El := (nl_minE s + El) / Fin 2; nl_Er := El;
          nl_oldEl := nl_oldEl s; nl_oldEr := Er;
          nl_nl := nl_nl s; nl_nr := nl_nr s |}
  else if ((dl <? 0) && (dr <? 0))%Z then
    Ok {| nl_state := nl_state s; nl_tp := nl_tp s;
          nl_minE := Er; nl_maxE := nl_maxE s;
          nl_El := Er; nl_Er := (nl_maxE s + Er) / Fin 2;
          nl_oldEl := El; nl_oldEr := nl_oldEr s;
          nl_nl := nl_nl s; nl_nr := nl_nr s |}
  else if ((dl <? 0) && (dr >? 0))%Z then
    Ok {| nl_state := nl_state s; nl_tp := nl_tp s;
          nl_minE := El; nl_maxE := nl_maxE s;
          nl_El := (El + Er) / Fin 2; nl_Er := Er;
          nl_oldEl := El; nl_oldEr := nl_oldEr s;
          nl_nl := nl_nl s; nl_nr := nl_nr s |}
  else Throw (runtime_error msg_nodes_order).

(** One iteration of the loop of [convergeNodes]. *)
Definition convergeNodes_body (a : DiracAtom) (k targ_nodes : Z) (s : NodesLoop)
  : outcome (step NodesLoop NodesResult) :=
  l <- left_trial a k targ_nodes s ;;
  match l with
  | Return r => Ok (Return r)
  | Continue s1 =>
      r <- right_trial a k targ_nodes s1 ;;
      match r with
      | Return r => Ok (Return r)
      | Continue s2 => s3 <- classify targ_nodes s2 ;; Ok (Continue s3)
      end
  end.

(** The loop of [convergeNodes], with [it] iterations left, and the [throw]
    that follows it. *)
Fixpoint convergeNodes_loop (a : DiracAtom) (k targ_nodes : Z) (it : nat)
  (s : NodesLoop) : outcome NodesResult :=
  match it with
  | O => Throw (runtime_error msg_nodes_maxit)
  | S it' =>
      r <- convergeNodes_body a k targ_nodes s ;;
      match r with
      | Return r => Ok r
      | Continue s' => convergeNodes_loop a k targ_nodes it' s'
      end
  end.

(** [iterates a k targ_nodes n s s']: started in the loop state [s], the loop
    of [convergeNodes] runs [n] iterations that neither return nor throw, and
    is then in the loop state [s']. *)
Inductive iterates (a : DiracAtom) (k targ_nodes : Z)
  : nat -> NodesLoop -> NodesLoop -> Prop :=
| iterates_O (s : NodesLoop) : iterates a k targ_nodes O s s
| iterates_S (n : nat) (s s1 s2 : NodesLoop) :
    convergeNodes_body a k targ_nodes s = Ok (Continue s1) ->
    iterates a k targ_nodes n s1 s2 ->
    iterates a k targ_nodes (S n) s s2.

(** The initial values of the loop variables of [convergeNodes]. *)
Definition convergeNodes_init (state : DiracState) (tp : TurningPoint)
  (minE maxE : double) : NodesLoop :=
  {| nl_state := state; nl_tp := tp; nl_minE := minE; nl_maxE := maxE;
     nl_El := minE + (maxE - minE) / Fin 3;
     nl_Er := maxE - (maxE - minE) / Fin 3;
     nl_oldEl := maxE + Fin 1; nl_oldEr := maxE + Fin 1;
     nl_nl := nl0; nl_nr := nr0 |}.

(** The bracket of the loop state [s] lies inside [[lo, hi]], and the two
    trial energies are finite and ordered inside the bracket. *)
Definition bracketed (lo hi : Q) (s : NodesLoop) : Prop :=
  exists a b l r : Q,
    nl_minE s = Fin a /\ nl_maxE s = Fin b /\ nl_El s = Fin l /\ nl_Er s = Fin r /\
    (lo <= a)%Q /\ (a <= l)%Q /\ (l <= r)%Q /\ (r <= b)%Q /\ (b <= hi)%Q.

(** [DiracAtom::convergeNodes(state, tp, targ_nodes, minE, maxE)] *)
Definition convergeNodes (a : DiracAtom) (state : DiracState) (tp : TurningPoint)
  (targ_nodes : Z) (minE maxE : double) : outcome NodesResult :=
  convergeNodes_loop a (ds_k state) targ_nodes (Z.to_nat (maxit a))
    (convergeNodes_init state tp minE maxE).

(** The step limited by [max_dE_ratio], as both [convergeE] and
    [convergeState] compute it. *)
Definition limited_step (a : DiracAtom) (E dE : double) : double :=
  if dabs (dE / E) >? max_dE_ratio a then
    dabs E * max_dE_ratio a * of_int (if dE >? Fin 0 then 1 else -1)
  else dE.

Definition msg_invalid_dE : string :=
  "Invalid dE value returned by integrateState".

(** The first half of the body of the loop of [convergeE]: the state built
    and integrated at energy [E], with the energy correction [dE]. *)
Definition energyTrial (a : DiracAtom) (k : Z) (E : double)
  : outcome (DiracState * TurningPoint * double) :=
  '(i0, i1) <- gridLimits a E k ;;
  state <- DiracState_grid (da_rc a) (da_dx a) i0 i1 ;;
  let state := with_E (with_k state k) E in
  V <- getV a (ds_grid state) ;;
  let state := with_V state V in
  integrateState_dE a state.

(** One iteration of the loop of [convergeE] at energy [E]. *)
Definition convergeE_body (a : DiracAtom) (k : Z) (E : double)
  : outcome (step (double * DiracState * TurningPoint) (DiracState * TurningPoint)) :=
  '(state, tp, dE) <- energyTrial a k E ;;
  if disnan dE then Throw (runtime_error msg_invalid_dE)
  else if dabs dE <? Etol a then
    let E := E - dE in
    let state := with_E state E in
    state <- continuify state tp ;;
    Ok (Return (findNodes state, tp))
  else
    let dE := limited_step a E dE in
    Ok (Continue (E - dE * Edamp a, state, tp)).

(** The loop of [convergeE], with [it] iterations left; when none is left the
    function returns. *)
Fixpoint convergeE_loop (a : DiracAtom) (k : Z) (it : nat) (E : double)
  (state : DiracState) (tp : TurningPoint) : outcome (DiracState * TurningPoint) :=
  match it with
  | O => Ok (state, tp)
  | S it' =>
      r <- convergeE_body a k E ;;
      match r with
      | Return r => Ok r
      | Continue (E', state', tp') => convergeE_loop a k it' E' state' tp'
      end
  end.

(** [DiracAtom::convergeE(state, tp)] *)
Definition convergeE (a : DiracAtom) (state : DiracState) (tp : TurningPoint)
  : outcome (DiracState * TurningPoint) :=
  convergeE_loop a (ds_k state) (Z.to_nat (maxit a)) (ds_E state) state tp.

(** Following the specification: [sign(dE)], and the step
    "clamp(dE) = sign(dE) |E| maxStepRatio if |dE/E| exceeds a configured
    ratio, else dE unchanged". *)
Definition spec_sign (x : double) : double :=
  if x >? Fin 0 then Fin 1 else if x <? Fin 0 then Fin (-1) else x.

Definition spec_clamp (a : DiracAtom) (E dE : double) : double :=
  if dabs (dE / E) >? max_dE_ratio a then spec_sign dE * dabs E * max_dE_ratio a
  else dE.

(** Following the specification: the momentum term
    [K^2 = (mu c)^2 - (E/c)^2] and the centrifugal term
    [gamma^2 = k^2 - (Z alpha)^2]. *)
Definition momentum_term (a : DiracAtom) (E : double) : double :=
  dpowi (da_mu a * Physical.c) 2 - dpowi (E / Physical.c) 2.

Definition centrifugal_term (a : DiracAtom) (k : Z) : double :=
  dpowi (of_int k) 2 - dpowi (da_Z a * Physical.alpha) 2.

(** *** convergeState *)

(** What the loop of [convergeState] leaves behind: the last state, its
    turning point and its grid size [N]. *)
Definition Converged : Type := (DiracState * TurningPoint * Z)%type.

(** One iteration of the loop of [convergeState]: [Return] stands for
    [break]. *)
Definition convergeState_body (a : DiracAtom) (k : Z) (E : double)
  : outcome (step (double * Converged) Converged) :=
  '(i0, i1) <- gridLimits a E k ;;
  state <- DiracState_grid (da_rc a) (da_dx a) i0 i1 ;;
  let state := with_k (with_E state E) k in
  let N := Vec.size (ds_grid state) in
  V <- getV a (ds_grid state) ;;
  let state := with_V state V in
  '(state, tp, dE) <- stateIntegrate a state ;;
  if negb (disnan dE) && (dabs dE <? Etol a) then
    Ok (Return (state, tp, N))
  else
    let dE := limited_step a E dE in
    let E := E - dE * Edamp a in
    if disnan E then Throw (literal "NAN ENERGY")
    else Ok (Continue (E, (state, tp, N))).

(** The first half of that body: the state built on its grid at energy [E]
    and integrated, with the energy correction [dE]. *)
Definition stateTrial (a : DiracAtom) (k : Z) (E : double)
  : outcome (DiracState * TurningPoint * double) :=
  '(i0, i1) <- gridLimits a E k ;;
  state <- DiracState_grid (da_rc a) (da_dx a) i0 i1 ;;
  let state := with_k (with_E state E) k in
  V <- getV a (ds_grid state) ;;
  stateIntegrate a (with_V state V).

(** The loop of [convergeState], with [it] iterations left; [last] is what
    the iterations run so far have left, if any was run. *)
Fixpoint convergeState_loop (a : DiracAtom) (k : Z) (it : nat) (E : double)
  (last : option Converged) : outcome (option Converged) :=
  match it with
  | O => Ok last
  | S it' =>
      r <- convergeState_body a k E ;;
      match r with
      | Return c => Ok (Some c)
      | Continue (E', c) => convergeState_loop a k it' E' (Some c)
      end
  end.

(** The code of [convergeState] after its loop: the state made continuous
    and normalised. *)
Definition convergeState_normalise (c : Converged) : outcome DiracState :=
  let '(state, tp, N) := c in
  let f := tp_Pi tp / tp_Pe tp in
  P <- update_range (tp_i tp) N (fun x => x * f) (ds_P state) ;;
  Q <- update_range (tp_i tp) N (fun x => x * f) (ds_Q state) ;;
  let state := with_QP state Q P in
  nrm <- norm state ;;
  P <- update_range 0 N (fun x => x / nrm) (ds_P state) ;;
  Q <- update_range 0 N (fun x => x / nrm) (ds_Q state) ;;
  Ok (with_QP state Q P).

(** The end of [convergeState]: the nodes are counted and checked. *)
Definition convergeState_check (a : DiracAtom) (state : DiracState)
  : outcome DiracState :=
  let Pn := countNodes (ds_P state) in
  let Qn := countNodes (ds_Q state) in
  g0 <- Vec.get (ds_grid state) 0 ;;
  if negb (Qn - Pn =? (if (da_R a >? g0)%D then 1 else 0))%Z then
    Throw (literal "NODES WRONG")
  else
    Ok (with_init (with_nodes state Pn Qn) true).

Definition convergeState_finish (a : DiracAtom) (c : Converged) : outcome DiracState :=
  state <- convergeState_normalise c ;;
  convergeState_check a state.

(** The grid of [state] is one that [logGrid] builds for this atom. *)
Definition on_logGrid (a : DiracAtom) (state : DiracState) : Prop :=
  exists i0 i1 loggrid,
    logGrid (da_rc a) (da_dx a) i0 i1 = Ok (loggrid, ds_grid state).

(** [DiracAtom::convergeState(E0, k)].  When the loop runs no iteration the
    code after it reads [tp] and [N], which were never written.  The local
    [state] is returned in place: the copy that C++ allows for [return state]
    is elided, as g++ and clang++ do. *)
Definition convergeState (a : DiracAtom) (E0 : double) (k : Z) : outcome DiracState :=
  last <- convergeState_loop a k (Z.to_nat (maxit a)) E0 None ;;
  c <- defined last ;;
  convergeState_finish a c.

(** *** The cache of states *)

(** [map<tuple<int, int, bool>, DiracState>]: an association list kept in the
    order of the keys, which is the order of iteration. *)
Definition key : Type := (Z * Z * bool)%type.
Definition cache : Type := list (key * DiracState).

Definition key_eqb (x y : key) : bool :=
  let '(n1, l1, s1) := x in
  let '(n2, l2, s2) := y in
  ((n1 =? n2) && (l1 =? l2))%Z && Bool.eqb s1 s2.

(** [operator<] of tuples. *)
Definition key_ltb (x y : key) : bool :=
  let '(n1, l1, s1) := x in
  let '(n2, l2, s2) := y in
  ((n1 <? n2) ||
   ((n1 =? n2) && ((l1 <? l2) || ((l1 =? l2) && (negb s1 && s2)))))%Z.

Fixpoint lookup (x : key) (m : cache) : option DiracState :=
  match m with
  | [] => None
  | (y, v) :: t => if key_eqb x y then Some v else lookup x t
  end.

Fixpoint insert (x : key) (v : DiracState) (m : cache) : cache :=
  match m with
  | [] => [(x, v)]
  | (y, w) :: t =>
      if key_eqb x y then (x, v) :: t
      else if key_ltb x y then (x, v) :: (y, w) :: t
      else (y, w) :: insert x v t
  end.

(** [states[x]] as an rvalue: the element, and the map, to which a
    default-constructed state has been added if the key was absent. *)
Definition subscript (x : key) (m : cache) : DiracState * cache :=
  match lookup x m with
  | Some v => (v, m)
  | None => (DiracState_default, insert x DiracState_default m)
  end.

(** [states[x] = v] *)
Definition assign (x : key) (v : DiracState) (m : cache) : cache :=
  insert x v (snd (subscript x m)).

(** The loop of [energyLimits] over the cache. *)
Fixpoint energyLimits_scan (n l : Z) (s : bool) (m : cache) (minE maxE : double)
  : double * double :=
  match m with
  | [] => (minE, maxE)
  | ((itn, itl, its), st) :: t =>
      if (itl =? l)%Z && Bool.eqb its s then
        if (itn <=? n)%Z then energyLimits_scan n l s t (dmax minE (ds_E st)) maxE
        else energyLimits_scan n l s t minE (dmin maxE (ds_E st))
      else energyLimits_scan n l s t minE maxE
  end.

(** [DiracAtom::energyLimits(nodes, k)] *)
Definition energyLimits (a : DiracAtom) (states : cache) (nodes k : Z)
  : outcome (double * double) :=
  let '(l, s) := qnumDirac2Schro k in
  let n := qnumNodes2Principal nodes l in
  V0 <- da_V a (Fin 0) ;;
  let minE := dmax (V0 + da_restE a) (- da_restE a) in
  let maxE := da_restE a in
  Ok (energyLimits_scan n l s states minE maxE).

(** *** calcState and getState *)

(** The next starting energy of [calcState] after a state with the wrong
    number of nodes: [E0 = dnode > 0 ? E0 / Esearch : E0 * Esearch]. *)
Definition next_guess (a : DiracAtom) (E0 : double) : double :=
  if (dnode >? 0)%Z then E0 / Esearch a else E0 * Esearch a.

(** The loop of [calcState], with [it] iterations left: the value of [state]
    after the loop and the cache. *)
Fixpoint calcState_loop (a : DiracAtom) (n l : Z) (s : bool) (k : Z) (it : nat)
  (E0 : double) (state : DiracState) (states : cache)
  : outcome DiracState * cache :=
  match it with
  | O => (Ok state, states)
  | S it' =>
      match convergeState a E0 k with
      | Ok state =>
          if (getn state =? n)%Z then (Ok state, states)
          else
            let states := assign (getn state, l, s) state states in
            calcState_loop a n l s k it' (next_guess a E0) state states
      | Throw e => (Throw e, states)
      | Undefined => (Undefined, states)
      end
  end.

(** The starting energy of [calcState]. *)
Definition startingEnergy (a : DiracAtom) (n k : Z) : outcome double :=
  let E0 := hydrogenicDiracEnergy (da_Z a) (da_mu a) n k in
  if da_R a >? Fin 0 then
    V0 <- da_V a (Fin 0) ;;
    if E0 - da_restE a <? V0 then
      V0 <- da_V a (Fin 0) ;;
      Ok (V0 + da_restE a + Fin 0.1)
    else Ok E0
  else Ok E0.

(** [DiracAtom::calcState(n, l, s, force)]: how the call ends and the cache
    it leaves. *)
Definition calcState (a : DiracAtom) (states : cache) (n l : Z) (s force : bool)
  : outcome unit * cache :=
  let k := if s && (l >? 0)%Z then l else (- l - 1)%Z in
  let '(cached, states) :=
    if negb force then
      let '(st, states) := subscript (n, l, s) states in (ds_init st, states)
    else (false, states) in
  if cached then (Ok tt, states)
  else
    match startingEnergy a n k with
    | Ok E0 =>
        match calcState_loop a n l s k (Z.to_nat (maxit a)) E0
                DiracState_default states with
        | (Ok state, states) => (Ok tt, assign (n, l, s) state states)
        | (Throw e, states) => (Throw e, states)
        | (Undefined, states) => (Undefined, states)
        end
    | Throw e => (Throw e, states)
    | Undefined => (Undefined, states)
    end.

(** [DiracAtom::calcAllStates(max_n, force)] *)
Definition calcAllStates (a : DiracAtom) (states : cache) (max_n : Z) (force : bool)
  : outcome unit * cache :=
  fold_left
    (fun acc '(n, l, s) =>
       match acc with
       | (Ok _, states) => calcState a states n l s force
       | _ => acc
       end)
    (flat_map (fun n =>
       flat_map (fun l => [(n, l, false); (n, l, true)])
         (Vec.indices (Z.to_nat n)))
       (map (fun n => (n + 1)%Z) (Vec.indices (Z.to_nat max_n))))
    (Ok tt, states).

(** [DiracAtom::getState(n, l, s)]; [force] takes its default, [false]. *)
Definition getState (a : DiracAtom) (states : cache) (n l : Z) (s : bool)
  : outcome DiracState * cache :=
  match calcState a states n l s false with
  | (Ok _, states) =>
      let '(entry, states) := subscript (n, l, s) states in
      let st := DiracState_copy entry in
      if negb (ds_init st) then (Throw (literal "MAXIT REACHED"), states)
      else (Ok (DiracState_copy st), states)
  | (Throw e, states) => (Throw e, states)
  | (Undefined, states) => (Undefined, states)
  end.

End WithCollaborators.

End Atom.

(* ================================================================== *)
(** ** potential.cpp, continued: the potential of a background charge *)

Module Background.

Import Atom.
Local Open Scope string_scope.
Local Open Scope double_scope.

(** The functions of integrate.cpp and utils.cpp that [BkgGridPotential]
    calls and that are not part of the sources.  [shootPotentialLog] returns
    the vector it writes through its first argument; [vectorOperation] may
    throw. *)
Class Collaborators : Type := {
  shootPotentialLog : list double -> list double -> double -> outcome (list double);
  vectorOperation : list double -> list double -> Ascii.ascii -> outcome (list double);
  lerp : double -> double -> double -> double
}.

(** The members of [BkgGridPotential]; [grid] holds the two vectors that
    [logGrid] returns, [grid[1]] being the radii. *)
Record BkgGridPotential : Type := {
  bg_rc : double;
  bg_dx : double;
  bg_i0 : Z;
  bg_i1 : Z;
  bg_grid : list double * list double;
  bg_rho : list double;
  bg_rho0 : double;
  bg_Vpot : list double;
  bg_V0 : double;
  bg_Q : double
}.

Section WithCollaborators.

Context {libm : Libm} {col : Collaborators}.

(** [BkgGridPotential::initPotential(rho)], run on an object whose grid
    members are set: the remaining members are written. *)
Definition initPotential (rc dx : double) (i0 i1 : Z)
  (grid : list double * list double) (rho : list double)
  : outcome BkgGridPotential :=
  rho0 <- Vec.get rho 0 ;;
  Vpot <- Vec.zeros (i1 - i0 + 1) ;;
  Vpot <- shootPotentialLog Vpot rho dx ;;
  w <- vectorOperation rho (snd grid) "*"%char ;;
  g0 <- Vec.get (snd grid) 0 ;;
  let Q := Potential.trapzInt dx w + rho0 * g0 / Fin 3 in
  gl <- Vec.get (snd grid) (i1 - i0) ;;
  vl <- Vec.get Vpot (i1 - i0) ;;
  let V0 := - Q / gl - vl in
  Ok {| bg_rc := rc; bg_dx := dx; bg_i0 := i0; bg_i1 := i1; bg_grid := grid;
        bg_rho := rho; bg_rho0 := rho0; bg_Vpot := Vpot; bg_V0 := V0;
        bg_Q := Q |}.

(** [BkgGridPotential::BkgGridPotential(rho, rc, dx, i0, i1)] *)
Definition BkgGridPotential_new (rho : list double) (rc dx : double) (i0 i1 : Z)
  : outcome BkgGridPotential :=
  grid <- logGrid rc dx i0 i1 ;;
  initPotential rc dx i0 i1 grid rho.

(** [BkgGridPotential::BkgGridPotential()] *)
Definition BkgGridPotential_default : outcome BkgGridPotential :=
  grid <- logGrid (Fin 1) (Fin 1e-3) 0 0 ;;
  Ok {| bg_rc := Fin 1; bg_dx := Fin 1e-3; bg_i0 := 0; bg_i1 := 0;
        bg_grid := grid; bg_rho := []; bg_rho0 := Fin 0; bg_Vpot := [Fin 0];
        bg_V0 := Fin 0; bg_Q := Fin 0 |}.

(** The value that both [V] and [Vgrid] return below the grid: a constant
    charge density is assumed for [r < r0]. *)
Definition inner_value (p : BkgGridPotential) (r : double) : outcome double :=
  g0 <- Vec.get (snd (bg_grid p)) 0 ;;
  Ok (Fin 1 / Fin 6 * bg_rho0 p * dpowi (r / g0) 2 + bg_V0 p).

(** [BkgGridPotential::V(r)] *)
Definition V (p : BkgGridPotential) (r : double) : outcome double :=
  let xi := m_log (r / bg_rc p) / bg_dx p in
  if xi <? of_int (bg_i0 p) then inner_value p r
  else if xi >? of_int (bg_i1 p) then Ok (- bg_Q p / r)
  else
    il <- defined (to_int (dfloor xi)) ;;
    ir <- defined (to_int (dceil xi)) ;;
    if (il =? ir)%Z then
      v <- Vec.get (bg_Vpot p) (il - bg_i0 p) ;;
      Ok (v + bg_V0 p)
    else
      gl <- Vec.get (snd (bg_grid p)) (il - bg_i0 p) ;;
      let drl := gl * (m_exp ((xi - of_int il) * bg_dx p) - Fin 1) in
      gr <- Vec.get (snd (bg_grid p)) (ir - bg_i0 p) ;;
      let f := drl / (gr - gl) in
      vl <- Vec.get (bg_Vpot p) (il - bg_i0 p) ;;
      vr <- Vec.get (bg_Vpot p) (ir - bg_i0 p) ;;
      Ok (lerp vl vr f + bg_V0 p).

(** [BkgGridPotential::Vgrid(i)] *)
Definition Vgrid (p : BkgGridPotential) (i : Z) : outcome double :=
  if ((i >=? bg_i0 p) && (i <=? bg_i1 p))%Z then
    v <- Vec.get (bg_Vpot p) (i - bg_i0 p) ;;
    Ok (v + bg_V0 p)
  else
    let r := bg_rc p * m_exp (of_int i * bg_dx p) in
    if (i <? bg_i0 p)%Z then inner_value p r
    else Ok (- bg_Q p / r).

End WithCollaborators.

End Background.

(* ================================================================== *)
(** ** mudirac.cpp: the transitions that [main] computes *)

Module Main.

Import Atom.

(** [struct TransLineSpec] of mudirac.hpp *)
Record TransLineSpec : Type := {
  n1 : Z;
  l1 : Z;
  s1 : bool;
  n2 : Z;
  l2 : Z;
  s2 : bool
}.


(** How the [try] block of [main] around the two calls of [getState] ends:
    both states are computed, a handler runs and [main] returns -1, or the
    exception matches neither handler and leaves [main]. *)
Inductive TryResult : Type :=
| Computed (ds1 ds2 : DiracState)
| ReturnedMinus1
| Uncaught (e : exn)
| UndefinedBehaviour.

(** [catch (AtomErrorCode aerr)] and [catch (const exception &e)]: the
    standard exception classes derive from [std::exception]; a string
    literal does not. *)
Definition handlers (e : exn) : TryResult :=
  match e with
  | error_code _ => ReturnedMinus1
  | invalid_argument _ | runtime_error _ | length_error => ReturnedMinus1
  | literal _ => Uncaught e
  end.

Section WithCollaborators.

Context {libm : Libm} {num : Numerics} {ind : Indeterminate}.

(** The [try] block and its handlers, for the transition [t]. *)
Definition tryStates (a : DiracAtom) (states : cache) (t : TransLineSpec)
  : TryResult * cache :=
  match getState a states (n1 t) (l1 t) (s1 t) with
  | (Ok ds1, states) =>
      match getState a states (n2 t) (l2 t) (s2 t) with
      | (Ok ds2, states) => (Computed ds1 ds2, states)
      | (Throw e, states) => (handlers e, states)
      | (Undefined, states) => (UndefinedBehaviour, states)
      end
  | (Throw e, states) => (handlers e, states)
  | (Undefined, states) => (UndefinedBehaviour, states)
  end.

End WithCollaborators.

End Main.

(* ================================================================== *)
(** ** A small instance on which the model can be run

    Rational stand-ins for the collaborators, used to run the definitions
    above on concrete inputs. *)

Module Toy.

Local Open Scope double_scope.

(** Rational stand-ins for the functions of [<cmath>]: first-order
    expansions around [1], and a square for [exp], which is never negative. *)
Definition libm : Libm :=
  {| m_exp := fun x => dpowi (Fin 1 + x / Fin 2) 2;
     m_log := fun x => x - Fin 1;
     m_sqrt := fun x => (Fin 1 + x) / Fin 2;
     m_pow := fun x y => Fin 1 + y * (x - Fin 1) |}.

(** A sampled wave of [N] points with [nodes] sign changes (as many as fit). *)
Fixpoint wave (sign : double) (nodes N : nat) : list double :=
  match N with
  | O => []
  | S N' =>
      sign :: match nodes with
              | O => wave sign O N'
              | S nodes' => wave (- sign) nodes' N'
              end
  end.

(** Stand-ins for the integrators, driven by three functions of the trial
    energy: the matching error [err_of E], the derivative [den_of E] of the
    error, so that the energy correction is [err_of E / den_of E], and the
    number of nodes [nodes_of E] of both components. *)
Definition numerics (err_of den_of : double -> double) (nodes_of : double -> nat)
  : Atom.Numerics :=
  {| Atom.hydrogenicDiracEnergy := fun Zn mu n k =>
       mu * dpowi Physical.c 2 - Zn * Zn * mu / (Fin 2 * of_int n * of_int n);
     Atom.effectiveMass := fun m M => m * M / (m + M);
     Atom.boundaryDiracCoulomb := fun Q P grid E k mu Zn inside => Ok (Q, P);
     Atom.shootDiracLog := fun Q P grid V E k mu dx =>
       Ok (wave (Fin 1) (nodes_of E) (List.length grid),
           wave (Fin 1) (nodes_of E) (List.length grid),
           {| Atom.tp_i := 0; Atom.tp_Qi := err_of E; Atom.tp_Qe := Fin 0;
              Atom.tp_Pi := Fin 1; Atom.tp_Pe := Fin 1 |});
     Atom.shootDiracErrorDELog := fun zeta y grid V i E k mu dx dir =>
       Ok (map (fun z => if Ascii.eqb dir "f" then den_of E else z) zeta);
     Atom.boundaryDiracErrorDECoulomb := fun zeta E k mu => Ok zeta |}.

Definition indeterminate : Atom.Indeterminate :=
  {| Atom.k0 := 0; Atom.nodesQ0 := 0; Atom.dnode := 1; Atom.nl0 := 0; Atom.nr0 := 0 |}.

Definition settings (maxit : Z) : Atom.Settings :=
  {| Atom.set_Etol := Fin 1e-7;
     Atom.set_Esearch := Fin 1.2;
     Atom.set_max_dE_ratio := Fin 0.1;
     Atom.set_Edamp := Fin 0.5;
     Atom.set_in_eps := Fin 1e-5;
     Atom.set_out_eps := Fin 1e-5;
     Atom.set_maxit := maxit |}.

(** An atom of charge [Zn] with a point nucleus ([A = -1]), a particle of
    mass 1, unit grid parameters and the iteration budget [maxit]. *)
Definition atom (num : Atom.Numerics) (Zn : double) (maxit : Z)
  : outcome Atom.DiracAtom :=
  @Atom.DiracAtom_new libm num Zn (Fin 1) (Fin (-1)) Atom.POINT (Fin 1) (Fin 1)
    (settings maxit).

(** The same atom, once constructed. *)
Definition the_atom (num : Atom.Numerics) (Zn : double) (maxit : Z)
  : Atom.DiracAtom :=
  match atom num Zn maxit with
  | Ok a => a
  | _ =>
      {| Atom.da_Z := NaN; Atom.da_A := NaN; Atom.da_m := NaN; Atom.da_mu := NaN;
         Atom.da_R := NaN; Atom.da_rc := NaN; Atom.da_dx := NaN;
         Atom.da_V := fun _ => Undefined; Atom.da_restE := NaN;
         Atom.da_set := settings maxit |}
  end.

(** Integrators whose energy correction is zero at every energy, for states
    without nodes: every trial converges at once to a node-less state. *)
Definition converging : Atom.Numerics :=
  numerics (fun _ => Fin 0) (fun _ => Fin 1) (fun _ => O).

(** Integrators whose energy correction is [1] at every energy: the energy
    never converges. *)
Definition stalling : Atom.Numerics :=
  numerics (fun _ => Fin 1) (fun _ => Fin 1) (fun _ => O).

(** Integrators whose error and error derivative both vanish: the energy
    correction is [0 / 0]. *)
Definition degenerate : Atom.Numerics :=
  numerics (fun _ => Fin 0) (fun _ => Fin 0) (fun _ => O).

(** Integrators whose error derivative vanishes at the energy [E0] only,
    where the error is [1]: the correction is [1 / 0] there and [0]
    elsewhere. *)
Definition singular_at (E0 : double) : Atom.Numerics :=
  numerics (fun E => if deqb E E0 then Fin 1 else Fin 0)
           (fun E => if deqb E E0 then Fin 0 else Fin 1)
           (fun _ => O).

(** Integrators that find two nodes below the energy [E0] and none from
    [E0] on: the number of nodes decreases with the energy. *)
Definition nodes_decreasing (E0 : double) : Atom.Numerics :=
  numerics (fun _ => Fin 0) (fun _ => Fin 1)
           (fun E => if E <? E0 then 2%nat else O).

(** Integrators that find two nodes at every energy. *)
Definition two_nodes : Atom.Numerics :=
  numerics (fun _ => Fin 0) (fun _ => Fin 1) (fun _ => 2%nat).

(** The rest energy of the atoms above, and a trial energy half a unit
    below it. *)
Definition restE : double := Fin 1 * dpowi Physical.c 2.
Definition E_start : double := restE - Fin 0.5.

(** A state [DiracState state; state.k = -1; state.E = E_start;] and a
    turning point, as a caller of the search loops would pass them. *)
Definition start : Atom.DiracState :=
  @Atom.with_E (@Atom.with_k (@Atom.DiracState_default indeterminate) (-1)) E_start.

Definition tp0 : Atom.TurningPoint :=
  {| Atom.tp_i := 0; Atom.tp_Qi := Fin 0; Atom.tp_Qe := Fin 0;
     Atom.tp_Pi := Fin 0; Atom.tp_Pe := Fin 0 |}.

(** Integrators that find one node below the energy [E0] and none from
    [E0] on. *)
Definition one_node_below (E0 : double) : Atom.Numerics :=
  numerics (fun _ => Fin 0) (fun _ => Fin 1)
           (fun E => if E <? E0 then 1%nat else O).

(** The atom [a] after [a.in_eps = in_eps; a.out_eps = out_eps;]. *)
Definition with_eps (a : Atom.DiracAtom) (in_eps out_eps : double)
  : Atom.DiracAtom :=
  {| Atom.da_Z := Atom.da_Z a; Atom.da_A := Atom.da_A a; Atom.da_m := Atom.da_m a;
     Atom.da_mu := Atom.da_mu a; Atom.da_R := Atom.da_R a;
     Atom.da_rc := Atom.da_rc a; Atom.da_dx := Atom.da_dx a;
     Atom.da_V := Atom.da_V a; Atom.da_restE := Atom.da_restE a;
     Atom.da_set :=
       {| Atom.set_Etol := Atom.Etol a;
          Atom.set_Esearch := Atom.Esearch a;
          Atom.set_max_dE_ratio := Atom.max_dE_ratio a;
          Atom.set_Edamp := Atom.Edamp a;
          Atom.set_in_eps := in_eps;
          Atom.set_out_eps := out_eps;
          Atom.set_maxit := Atom.maxit a |} |}.

(** The same atom with a nucleus of radius [R]. *)
Definition with_radius (a : Atom.DiracAtom) (R : double) : Atom.DiracAtom :=
  {| Atom.da_Z := Atom.da_Z a; Atom.da_A := Atom.da_A a; Atom.da_m := Atom.da_m a;
     Atom.da_mu := Atom.da_mu a; Atom.da_R := R;
     Atom.da_rc := Atom.da_rc a; Atom.da_dx := Atom.da_dx a;
     Atom.da_V :=
       Potential.CoulombSphere_V (Potential.CoulombSpherePotential_new (Atom.da_Z a) R);
     Atom.da_restE := Atom.da_restE a;
     Atom.da_set := Atom.da_set a |}.

(** A state of three samples and a turning point at its middle sample, where
    the outer solution has the amplitude [2] and the inner one [4]. *)
Definition three_samples : Atom.DiracState :=
  {| Atom.ds_E := E_start; Atom.ds_nodes := 0; Atom.ds_init := false;
     Atom.ds_k := -1; Atom.ds_nodesQ := 0; Atom.ds_grid_indices := (0, 2)%Z;
     Atom.ds_grid := [Fin 1; Fin 2; Fin 3]; Atom.ds_loggrid := [Fin 0; Fin 1; Fin 2];
     Atom.ds_Q := [Fin 1; Fin 1; Fin 1]; Atom.ds_P := [Fin 1; Fin 2; Fin 3];
     Atom.ds_V := [Fin 0; Fin 0; Fin 0] |}.

Definition tp_middle : Atom.TurningPoint :=
  {| Atom.tp_i := 1; Atom.tp_Qi := Fin 0; Atom.tp_Qe := Fin 0;
     Atom.tp_Pi := Fin 4; Atom.tp_Pe := Fin 2 |}.

(** Stand-ins for the collaborators of [BkgGridPotential]: a potential that
    is [1] at every grid point, the product of two vectors entry by entry,
    and the linear interpolation. *)
Definition background : Background.Collaborators :=
  {| Background.shootPotentialLog := fun Vpot rho dx => Ok (map (fun _ => Fin 1) Vpot);
     Background.vectorOperation := fun x y op =>
       Ok (map (fun xy => fst xy * snd xy) (combine x y));
     Background.lerp := fun a b f => a + f * (b - a) |}.

End Toy.

(* ================================================================== *)
(** * Properties *)

(** ** Arithmetic of doubles *)

Module DoubleFacts.

Lemma fin_eq (a b : Q) : a == b -> fin a = fin b.
Proof. intros H. unfold fin. f_equal. now apply Qred_complete. Qed.

Lemma Qsgn_spec (q : Q) :
  CompareSpec (q == 0) (q < 0) (0 < q) (Qsgn q).
Proof.
  unfold Qsgn, Qeq, Qlt. destruct q as [n d]. simpl.
  rewrite !Z.mul_1_r.
  destruct (Z.compare_spec n 0); constructor; lia.
Qed.

Lemma Qsgn_eq (a b : Q) : a == b -> Qsgn a = Qsgn b.
Proof.
  destruct a as [n d], b as [n' d']. unfold Qsgn, Qeq. simpl. intros H.
  destruct (Z.compare_spec n 0), (Z.compare_spec n' 0); try reflexivity; nia.
Qed.

Lemma dlt_Fin (a b : Q) : dlt (Fin a) (Fin b) = true <-> a < b.
Proof.
  simpl. rewrite Qlt_alt. destruct (a ?= b); split; congruence.
Qed.

Lemma dle_Fin (a b : Q) : dle (Fin a) (Fin b) = true <-> a <= b.
Proof.
  simpl. unfold Qle. rewrite Z.le_lteq.
  destruct (Qcompare_spec a b) as [H|H|H]; unfold Qeq, Qlt in *; split;
    intros; try reflexivity; try lia; try discriminate.
Qed.

Lemma dlt_false_Fin (a b : Q) : dlt (Fin a) (Fin b) = false <-> b <= a.
Proof.
  rewrite <- Bool.not_true_iff_false, dlt_Fin. split.
  - apply Qnot_lt_le.
  - apply Qle_not_lt.
Qed.

(** [0 <= r < R] gives [0 < R]. *)
Lemma dle_dlt_trans (x y z : double) :
  dle x y = true -> dlt y z = true -> dlt x z = true.
Proof.
  destruct x, y, z; try discriminate; try reflexivity.
  rewrite dle_Fin, !dlt_Fin. apply Qle_lt_trans.
Qed.

Lemma dlt_trans (x y z : double) :
  dlt x y = true -> dlt y z = true -> dlt x z = true.
Proof.
  destruct x, y, z; try discriminate; try reflexivity.
  rewrite !dlt_Fin. apply Qlt_trans.
Qed.

Lemma Qeq_bool_false (q : Q) : ~ q == 0 -> Qeq_bool q 0 = false.
Proof.
  intros H. destruct (Qeq_bool q 0) eqn:E; [|reflexivity].
  apply Qeq_bool_eq in E. contradiction.
Qed.

Lemma dmul_comm (x y : double) : dmul x y = dmul y x.
Proof.
  destruct x, y; try reflexivity; simpl;
    try (now destruct (Qsgn q)).
  apply fin_eq. ring.
Qed.

Ltac dsimpl :=
  cbn [dmul dopp dadd dsub ddiv dabs dsgn inf_of sgn_mul dlt dle dgt fin dpowi].

Lemma Qsgn_opp (q : Q) : Qsgn (- q) = CompOpp (Qsgn q).
Proof. unfold Qsgn. destruct q as [n d]. simpl. destruct n; reflexivity. Qed.

Lemma Qsgn_Qred (q : Q) : Qsgn (Qred q) = Qsgn q.
Proof. apply Qsgn_eq, Qred_correct. Qed.

Lemma dmul_Fin_opp (a : Q) (y : double) :
  dmul (Fin (- a)) y = dopp (dmul (Fin a) y).
Proof.
  destruct y; dsimpl; try reflexivity.
  - apply fin_eq. rewrite Qred_correct. ring.
  - rewrite Qsgn_opp. now destruct (Qsgn a).
  - rewrite Qsgn_opp. now destruct (Qsgn a).
Qed.

Lemma ddiv_opp_l (x y : double) : ddiv (dopp x) y = dopp (ddiv x y).
Proof.
  destruct x, y; dsimpl; try reflexivity.
  - destruct (Qeq_bool q0 0) eqn:E.
    + rewrite Qsgn_Qred, Qsgn_opp. now destruct (Qsgn q).
    + apply fin_eq. rewrite !Qred_correct. apply Qeq_bool_neq in E. now field.
  - now destruct (Qeq_bool q 0), (Qsgn q).
  - now destruct (Qeq_bool q 0), (Qsgn q).
Qed.

(** A comparison with NaN is false, and [<] is asymmetric. *)
Lemma dlt_asym (x y : double) : dlt x y = true -> dlt y x = false.
Proof.
  destruct x, y; try discriminate; try reflexivity.
  rewrite dlt_Fin, dlt_false_Fin. apply Qlt_le_weak.
Qed.

Lemma dlt_dle_trans (x y z : double) :
  dlt x y = true -> dle y z = true -> dlt x z = true.
Proof.
  destruct x, y, z; try discriminate; try reflexivity.
  rewrite dle_Fin, !dlt_Fin. apply Qlt_le_trans.
Qed.

Lemma dle_not_dlt (x y : double) : dle x y = true -> dlt y x = false.
Proof.
  destruct x, y; try discriminate; try reflexivity.
  rewrite dle_Fin, dlt_false_Fin. trivial.
Qed.

Lemma dlt_PInf_l (y : double) : dlt PInf y = false.
Proof. now destruct y. Qed.

(** The product of two non-negative doubles is not negative. *)
Lemma dmul_nonneg (x y : double) :
  dle (Fin 0) x = true -> dle (Fin 0) y = true -> dlt (dmul x y) (Fin 0) = false.
Proof.
  destruct x as [a| | |], y as [b| | |]; try discriminate; intros Hx Hy; dsimpl.
  - apply dlt_false_Fin. rewrite Qred_correct.
    apply dle_Fin in Hx, Hy. now apply Qmult_le_0_compat.
  - apply dle_Fin in Hx. destruct (Qsgn_spec a) as [H|H|H]; try reflexivity.
    now apply Qle_not_lt in Hx.
  - apply dle_Fin in Hy. destruct (Qsgn_spec b) as [H|H|H]; try reflexivity.
    now apply Qle_not_lt in Hy.
  - reflexivity.
Qed.

(** Multiplying by [1] or [-1] first or last gives the same product. *)
Lemma dmul_sign_l (a b : double) :
  dmul (dmul a b) (Fin 1) = dmul (dmul (Fin 1) a) b /\
  dmul (dmul a b) (Fin (-1)) = dmul (dmul (Fin (-1)) a) b.
Proof.
  destruct a as [x| | |], b as [y| | |]; dsimpl; split; try reflexivity;
    try (apply fin_eq; rewrite !Qred_correct; ring);
    rewrite ?Qsgn_Qred;
    try (rewrite (Qsgn_eq (1 * x) x) by ring);
    try (rewrite (Qsgn_eq (-1 * x) (- x)) by ring);
    try (rewrite (Qsgn_eq (-(1) * x) (- x)) by ring);
    rewrite ?Qsgn_opp;
    change (Qsgn 1) with Gt; change (Qsgn (-1)) with Lt;
    try (destruct (Qsgn x) eqn:Ex; dsimpl; rewrite ?Ex; reflexivity);
    try (destruct (Qsgn y) eqn:Ey; dsimpl; rewrite ?Ey; reflexivity).
Qed.

End DoubleFacts.

(* ================================================================== *)
(** ** Outcomes *)

Module OutcomeFacts.

Lemma Ok_inj {A : Type} (a b : A) : Ok a = Ok b -> a = b.
Proof. intros H. now injection H. Qed.

Lemma bind_Ok {A B : Type} (m : outcome A) (f : A -> outcome B) (b : B) :
  bind m f = Ok b -> exists a, m = Ok a /\ f a = Ok b.
Proof. destruct m; simpl; intros H; try discriminate. eauto. Qed.

Lemma bind_Throw {A B : Type} (m : outcome A) (f : A -> outcome B) (e : exn) :
  bind m f = Throw e -> m = Throw e \/ exists a, m = Ok a /\ f a = Throw e.
Proof.
  destruct m; simpl; intros H; [right; eauto | left; congruence | discriminate].
Qed.

Lemma defined_no_throw {A : Type} (o : option A) (e : exn) :
  defined o <> Throw e.
Proof. destruct o; discriminate. Qed.

Lemma get_no_throw {A : Type} (v : list A) (i : Z) (e : exn) :
  Vec.get v i <> Throw e.
Proof. unfold Vec.get. destruct (i <? 0)%Z; [discriminate|apply defined_no_throw]. Qed.

Lemma set_no_throw {A : Type} (v : list A) (i : Z) (a : A) (e : exn) :
  Vec.set v i a <> Throw e.
Proof. unfold Vec.set. destruct (i <? 0)%Z; [discriminate|apply defined_no_throw]. Qed.

Lemma for_each_no_throw {A S : Type} (l : list A) (body : A -> S -> outcome S) :
  (forall a s e, body a s <> Throw e) ->
  forall s e, for_each l body s <> Throw e.
Proof.
  intros Hb. induction l as [|a t IH]; simpl; intros s e H; [discriminate|].
  apply bind_Throw in H. destruct H as [H|[s' [_ H]]].
  - now apply Hb in H.
  - now apply IH in H.
Qed.

End OutcomeFacts.

(* ================================================================== *)
(** ** The potentials *)

Module PotentialFacts.

Import DoubleFacts OutcomeFacts Potential.
Local Open Scope string_scope.
Local Open Scope double_scope.

(** *** The sphere Coulomb potential *)

Lemma sphere_branch (Zn R r : double) :
  dle (Fin 0) r = true -> dlt r R = true ->
  CoulombSphere_V (CoulombSpherePotential_new Zn R) r =
  Ok (Zn * dpowi r 2 / (Fin 2 * dpowi R 3) - Fin 1.5 * Zn / R).
Proof.
  intros H0 H1.
  unfold CoulombSphere_V, CoulombSpherePotential_new.
  cbn [csp_Z csp_R csp_R3 csp_VR].
  assert (HR : dlt (Fin 0) R = true) by (eapply dle_dlt_trans; eauto).
  unfold dgt. rewrite HR, H1, (dle_not_dlt _ _ H0).
  f_equal. unfold dsub. f_equal.
  rewrite <- ddiv_opp_l, <- dmul_Fin_opp. reflexivity.
Qed.

Lemma coulomb_branch (Zn R r : double) :
  dle (Fin 0) r = true -> dle R r = true ->
  CoulombSphere_V (CoulombSpherePotential_new Zn R) r = Ok (- Zn / r).
Proof.
  intros H0 H1.
  unfold CoulombSphere_V, CoulombSpherePotential_new.
  cbn [csp_Z csp_R csp_R3 csp_VR].
  now rewrite (dle_not_dlt _ _ H0), (dle_not_dlt _ _ H1).
Qed.

Lemma branches_meet (z q : Q) :
  0 < q ->
  Fin z * dpowi (Fin q) 2 / (Fin 2 * dpowi (Fin q) 3) - Fin 1.5 * Fin z / Fin q =
  - Fin z / Fin q.
Proof.
  intros Hq.
  assert (Hq0 : ~ q == 0) by (intros E; rewrite E in Hq; now apply Qlt_irrefl in Hq).
  dsimpl.
  rewrite (Qeq_bool_false q Hq0).
  rewrite (Qeq_bool_false (Qred (2 * Qred (q * Qred (q * q))))).
  2:{ rewrite !Qred_correct. intros E. apply Hq0.
      destruct (Qmult_integral _ _ E) as [H2|H2]; [discriminate H2|].
      destruct (Qmult_integral _ _ H2) as [H3|H3]; [exact H3|].
      destruct (Qmult_integral _ _ H3); assumption. }
  dsimpl. apply fin_eq. rewrite !Qred_correct. field. auto.
Qed.

(** C7. For every radius [r >= 0] the sphere Coulomb potential returns
    [Z r^2 / (2 R^3) - 1.5 Z / R] when [r < R] and [-Z / r] when [r >= R]; the
    two expressions coincide at [r = R] (for a finite charge and a finite
    positive radius [R]); and for every [r < 0] the evaluation throws
    [invalid_argument] instead of returning a value. *)
Theorem CoulombSphere_V_spec (Zn R r : double) :
  (dle (Fin 0) r = true -> dlt r R = true ->
   CoulombSphere_V (CoulombSpherePotential_new Zn R) r =
   Ok (Zn * dpowi r 2 / (Fin 2 * dpowi R 3) - Fin 1.5 * Zn / R)) /\
  (dle (Fin 0) r = true -> dle R r = true ->
   CoulombSphere_V (CoulombSpherePotential_new Zn R) r = Ok (- Zn / r)) /\
  (forall z q : Q, Zn = Fin z -> R = Fin q -> 0 < q ->
   Zn * dpowi R 2 / (Fin 2 * dpowi R 3) - Fin 1.5 * Zn / R = - Zn / R) /\
  (dlt r (Fin 0) = true ->
   CoulombSphere_V (CoulombSpherePotential_new Zn R) r =
   Throw (invalid_argument "Negative radius not allowed for CoulombPotential")).
Proof.
  split; [|split; [|split]].
  - apply sphere_branch.
  - apply coulomb_branch.
  - intros z q -> ->. apply branches_meet.
  - intros H. unfold CoulombSphere_V. now rewrite H.
Qed.

Lemma CoulombSphere_V_spec_witness :
  CoulombSphere_V (CoulombSpherePotential_new (Fin 2) (Fin 2)) (Fin 1) =
    Ok (Fin (-11 # 8)) /\
  CoulombSphere_V (CoulombSpherePotential_new (Fin 2) (Fin 2)) (Fin 4) =
    Ok (Fin (-1 # 2)) /\
  Fin 2 * dpowi (Fin 2) 2 / (Fin 2 * dpowi (Fin 2) 3) - Fin 1.5 * Fin 2 / Fin 2 =
    - Fin 2 / Fin 2 /\
  CoulombSphere_V (CoulombSpherePotential_new (Fin 2) (Fin 2)) (Fin (-1)) =
    Throw (invalid_argument "Negative radius not allowed for CoulombPotential").
Proof.
  split; [|split; [|split]].
  - exact (proj1 (CoulombSphere_V_spec (Fin 2) (Fin 2) (Fin 1)) eq_refl eq_refl).
  - exact (proj1 (proj2 (CoulombSphere_V_spec (Fin 2) (Fin 2) (Fin 4)))
             eq_refl eq_refl).
  - exact (proj1 (proj2 (proj2 (CoulombSphere_V_spec (Fin 2) (Fin 2) (Fin 1))))
             2 2 eq_refl eq_refl eq_refl).
  - exact (proj2 (proj2 (proj2 (CoulombSphere_V_spec (Fin 2) (Fin 2) (Fin (-1)))))
             eq_refl).
Defined.

(** *** The Uehling potential *)

Section Uehling.

Context {libm : Libm}.
Variables exp_cutoff_low exp_cutoff_high : double.

Lemma V_kernel_no_throw (p : UehlingSpherePotential) (r : double) (i : Z) (e : exn) :
  V_kernel p r i <> Throw e.
Proof.
  unfold V_kernel, ukernel_r_greater, ukernel_r_smaller. intros H.
  repeat match goal with
         | H : bind _ _ = Throw _ |- _ =>
             apply bind_Throw in H; destruct H as [H|[? [_ H]]]
         | H : Vec.get _ _ = Throw _ |- _ => now apply get_no_throw in H
         | H : Ok _ = Throw _ |- _ => discriminate H
         | H : (if ?b then _ else _) = Throw _ |- _ => destruct b; cbn [negb] in H
         end.
Qed.

(** [UehlingSpherePotential::V] has no [throw]: whatever the radius, it
    returns or reads out of the assigned memory. *)
Lemma Uehling_V_no_throw (p : UehlingSpherePotential) (r : double) (e : exn) :
  Uehling_V exp_cutoff_low exp_cutoff_high p r <> Throw e.
Proof.
  unfold Uehling_V. intros H.
  destruct (r >? _); [discriminate|].
  destruct (r <? _).
  - apply bind_Throw in H. destruct H as [H|[? [_ H]]]; [|discriminate].
    now apply defined_no_throw in H.
  - apply bind_Throw in H. destruct H as [H|[? [_ H]]].
    + now apply set_no_throw in H.
    + apply bind_Throw in H. destruct H as [H|[? [_ H]]]; [|discriminate].
      revert H. apply for_each_no_throw. intros i s e' H.
      apply bind_Throw in H. destruct H as [H|[? [_ H]]].
      * now apply V_kernel_no_throw in H.
      * now apply set_no_throw in H.
Qed.

(** The small-radius branch of [V] is taken for every negative radius when
    the two cut-off radii are not negative. *)
Lemma Uehling_V_negative (p : UehlingSpherePotential) (r : double) :
  dlt r (Fin 0) = true ->
  dle (Fin 0) (exp_cutoff_high * Fin 0.5 * Physical.alpha) = true ->
  dle (Fin 0) (exp_cutoff_low * Fin 0.5 * usp_du p * Physical.alpha) = true ->
  Uehling_V exp_cutoff_low exp_cutoff_high p r =
  (uint0 <- defined (usp_uint0 p) ;; Ok (usp_K p * uint0, p)).
Proof.
  intros Hr Hhi Hlo. unfold Uehling_V, dgt.
  rewrite (dlt_asym _ _ (dlt_dle_trans _ _ _ Hr Hhi)).
  now rewrite (dlt_dle_trans _ _ _ Hr Hlo).
Qed.

(** C8. Evaluated at a negative radius, the Uehling potential does not fail:
    with cut-off radii that are not negative it returns [K * uint0] (once
    [uint0] has been assigned), where the sphere Coulomb potential throws
    [invalid_argument]. *)
Theorem Uehling_V_negative_radius_returns
  (p : UehlingSpherePotential) (r uint0 : double) :
  dlt r (Fin 0) = true ->
  dle (Fin 0) (exp_cutoff_high * Fin 0.5 * Physical.alpha) = true ->
  dle (Fin 0) (exp_cutoff_low * Fin 0.5 * usp_du p * Physical.alpha) = true ->
  usp_uint0 p = Some uint0 ->
  Uehling_V exp_cutoff_low exp_cutoff_high p r = Ok (usp_K p * uint0, p) /\
  forall e, Uehling_V exp_cutoff_low exp_cutoff_high p r <> Throw e.
Proof.
  intros Hr Hhi Hlo Hu. split; [|apply Uehling_V_no_throw].
  rewrite (Uehling_V_negative p r Hr Hhi Hlo), Hu. reflexivity.
Qed.

(** The constructor assigns [uint0] exactly when [R > 0]. *)
Lemma UehlingSpherePotential_new_uint0 (Zn R : double) (usteps : Z)
  (p : UehlingSpherePotential) :
  UehlingSpherePotential_new Zn R usteps = Ok p ->
  usp_R p = R /\
  if R >? Fin 0 then exists u, usp_uint0 p = Some u else usp_uint0 p = None.
Proof.
  unfold UehlingSpherePotential_new. intros H.
  apply bind_Ok in H. destruct H as [zero [_ H]].
  apply bind_Ok in H. destruct H as [[[rho uarg] uint0] [H1 H]].
  assert (Hp : usp_R p = R /\ usp_uint0 p = uint0).
  { apply Ok_inj in H. rewrite <- H. split; reflexivity. }
  clear H. destruct Hp as [HR Hu]. split; [exact HR|]. rewrite Hu.
  destruct (R >? Fin 0).
  - apply bind_Ok in H1. destruct H1 as [uarg0 [_ H1]].
    apply bind_Ok in H1. destruct H1 as [uarg' [_ H1]].
    injection H1 as _ _ <-. eauto.
  - injection H1 as _ _ <-. reflexivity.
Qed.

(** C10. For a potential built by the constructor and any radius that takes
    the small-radius branch of [V] (not above the high cut-off, below the low
    one): if [R > 0] the constructor has assigned [uint0] and [V] returns
    [K * uint0]; if not ([R <= 0], a point nucleus) [uint0] was never assigned
    and the evaluation reads it all the same, which is undefined. *)
Theorem Uehling_V_small_radius_needs_finite_nucleus
  (Zn R : double) (usteps : Z) (p : UehlingSpherePotential) (r : double) :
  UehlingSpherePotential_new Zn R usteps = Ok p ->
  (r >? exp_cutoff_high * Fin 0.5 * Physical.alpha) = false ->
  (r <? exp_cutoff_low * Fin 0.5 * usp_du p * Physical.alpha) = true ->
  ((R >? Fin 0) = true ->
   exists uint0, usp_uint0 p = Some uint0 /\
     Uehling_V exp_cutoff_low exp_cutoff_high p r = Ok (usp_K p * uint0, p)) /\
  ((R >? Fin 0) = false ->
   usp_uint0 p = None /\
   Uehling_V exp_cutoff_low exp_cutoff_high p r = Undefined).
Proof.
  intros Hp Hhi Hlo.
  destruct (UehlingSpherePotential_new_uint0 Zn R usteps p Hp) as [_ Hu].
  unfold Uehling_V. rewrite Hhi, Hlo.
  split; intros HR; rewrite HR in Hu.
  - destruct Hu as [u Hu]. exists u. now rewrite Hu.
  - now rewrite Hu.
Qed.

End Uehling.

Lemma Uehling_V_negative_radius_returns_witness :
  exists p uint0,
    @UehlingSpherePotential_new Toy.libm (Fin 1) (Fin 1) 3 = Ok p /\
    usp_uint0 p = Some uint0 /\
    @Uehling_V Toy.libm (Fin 1) (Fin 20) p (Fin (-1)) = Ok (usp_K p * uint0, p).
Proof.
  eexists. eexists. split; [vm_compute; reflexivity|]. split; [reflexivity|].
  apply (@Uehling_V_negative_radius_returns Toy.libm (Fin 1) (Fin 20));
    vm_compute; reflexivity.
Defined.

Lemma Uehling_V_small_radius_needs_finite_nucleus_witness :
  (exists p uint0,
     @UehlingSpherePotential_new Toy.libm (Fin 1) (Fin 1) 3 = Ok p /\
     usp_uint0 p = Some uint0 /\
     @Uehling_V Toy.libm (Fin 1) (Fin 20) p (Fin 0.001) = Ok (usp_K p * uint0, p)) /\
  (exists p,
     @UehlingSpherePotential_new Toy.libm (Fin 1) (Fin (-1)) 3 = Ok p /\
     usp_uint0 p = None /\
     @Uehling_V Toy.libm (Fin 1) (Fin 20) p (Fin 0.001) = Undefined).
Proof.
  split.
  - let v := eval vm_compute in (@UehlingSpherePotential_new Toy.libm (Fin 1) (Fin 1) 3) in
    match v with Ok ?p => exists p end.
    destruct (proj1 (@Uehling_V_small_radius_needs_finite_nucleus Toy.libm
                       (Fin 1) (Fin 20) (Fin 1) (Fin 1) 3 _ (Fin 0.001)
                       ltac:(vm_compute; reflexivity)
                       ltac:(vm_compute; reflexivity)
                       ltac:(vm_compute; reflexivity))
                eq_refl) as [u [Hu HV]].
    exists u. split; [vm_compute; reflexivity|]. split; [exact Hu|exact HV].
  - let v := eval vm_compute in (@UehlingSpherePotential_new Toy.libm (Fin 1) (Fin (-1)) 3) in
    match v with Ok ?p => exists p end.
    destruct (proj2 (@Uehling_V_small_radius_needs_finite_nucleus Toy.libm
                       (Fin 1) (Fin 20) (Fin 1) (Fin (-1)) 3 _ (Fin 0.001)
                       ltac:(vm_compute; reflexivity)
                       ltac:(vm_compute; reflexivity)
                       ltac:(vm_compute; reflexivity))
                eq_refl) as [Hu HV].
    split; [vm_compute; reflexivity|]. split; [exact Hu|exact HV].
Defined.

End PotentialFacts.

(* ================================================================== *)
(** ** The atom *)

Module AtomFacts.

Import DoubleFacts OutcomeFacts Atom.
Local Open Scope string_scope.
Local Open Scope double_scope.

Ltac invert_throw H :=
  repeat match type of H with
         | bind _ _ = Throw _ =>
             apply bind_Throw in H; destruct H as [H|[? [_ H]]]
         | defined _ = Throw _ => now apply defined_no_throw in H
         | Vec.get _ _ = Throw _ => now apply get_no_throw in H
         | Ok _ = Throw _ => discriminate H
         end.

Section WithCollaborators.

Context {libm : Libm} {num : Numerics} {ind : Indeterminate}.

(** *** gridLimits *)

Lemma gridLimits_unbound (a : DiracAtom) (E : double) (k : Z) :
  gridLimits a E k = Throw (error_code UNBOUND_STATE) <->
  (momentum_term a E <? Fin 0) = true.
Proof.
  unfold gridLimits. fold (momentum_term a E). fold (centrifugal_term a k).
  destruct (momentum_term a E <? Fin 0); [tauto|].
  split; [|discriminate].
  destruct (centrifugal_term a k <? Fin 0); [discriminate|].
  repeat match goal with
         | |- (if ?b then _ else _) = _ -> _ => destruct b; [discriminate|]
         end.
  intros H. invert_throw H.
Qed.

Lemma gridLimits_small_gamma (a : DiracAtom) (E : double) (k : Z) :
  gridLimits a E k = Throw (error_code SMALL_GAMMA) <->
  (momentum_term a E <? Fin 0) = false /\ (centrifugal_term a k <? Fin 0) = true.
Proof.
  unfold gridLimits. fold (momentum_term a E). fold (centrifugal_term a k).
  destruct (momentum_term a E <? Fin 0).
  { split; [discriminate|intros [H _]; discriminate H]. }
  destruct (centrifugal_term a k <? Fin 0); [tauto|].
  split; [|intros [_ H]; discriminate H].
  repeat match goal with
         | |- (if ?b then _ else _) = _ -> _ => destruct b; [discriminate|]
         end.
  intros H. invert_throw H.
Qed.

Lemma momentum_negative (a : DiracAtom) (E : double) (m : Q) :
  da_mu a = Fin m -> (0 < m)%Q ->
  da_restE a = da_mu a * dpowi Physical.c 2 ->
  ((momentum_term a E <? Fin 0) = true <-> dlt (da_restE a) (dabs E) = true).
Proof.
  intros Hmu Hm ->. unfold momentum_term. rewrite Hmu. unfold Physical.c.
  set (c := 137.035999139%Q).
  assert (Hc : (0 < c)%Q) by reflexivity.
  destruct E as [e| | |]; cbn [dmul dopp dadd dsub ddiv fin dpowi dabs].
  - change (Qeq_bool c 0) with false.
    cbn [dmul dopp dadd dsub ddiv fin dpowi dabs].
    unfold fin. rewrite !dlt_Fin, !Qred_correct.
    assert (He : (e == (e / c) * c)%Q) by (field; lra).
    set (d := (e / c)%Q) in *. clearbody d.
    rewrite He. clear He e. clearbody c.
    assert (Hy : (0 < m * c)%Q) by nra.
    setoid_replace (m * (c * c))%Q with (m * c * c)%Q by ring.
    set (y := (m * c)%Q) in *. clearbody y.
    apply Qabs_case; intros Hd.
    + assert (0 <= d)%Q by nra.
      assert (H1 : (y * y + - (d * d) < 0 <-> y < d)%Q) by (split; intros; nra).
      assert (H2 : (y * c < d * c <-> y < d)%Q) by (split; intros; nra).
      tauto.
    + assert (d <= 0)%Q by nra.
      assert (H1 : (y * y + - (d * d) < 0 <-> y < - d)%Q) by (split; intros; nra).
      assert (H2 : (y * c < - (d * c) <-> y < - d)%Q) by (split; intros; nra).
      tauto.
  - change (Qeq_bool c 0) with false. vm_compute. tauto.
  - change (Qeq_bool c 0) with false. vm_compute. tauto.
  - tauto.
Qed.

(** C4, amended. [gridLimits(E, k)] throws [UNBOUND_STATE] exactly when the
    momentum term [K^2 = (mu c)^2 - (E/c)^2] is negative, which for a positive
    reduced mass and [restE = mu c^2] means [|E| > restE] (at [E = restE] and
    [E = -restE] the term is zero and this error is not raised); it throws
    [SMALL_GAMMA] exactly when the momentum term is not negative and the
    centrifugal term [gamma^2 = k^2 - (Z alpha)^2] is negative; when both
    terms are non-negative neither error is raised. *)
Theorem gridLimits_boundary_errors (a : DiracAtom) (E : double) (k : Z) :
  (gridLimits a E k = Throw (error_code UNBOUND_STATE) <->
   (momentum_term a E <? Fin 0) = true) /\
  (forall m : Q, da_mu a = Fin m -> (0 < m)%Q ->
   da_restE a = da_mu a * dpowi Physical.c 2 ->
   (gridLimits a E k = Throw (error_code UNBOUND_STATE) <->
    dlt (da_restE a) (dabs E) = true)) /\
  (gridLimits a E k = Throw (error_code SMALL_GAMMA) <->
   (momentum_term a E <? Fin 0) = false /\
   (centrifugal_term a k <? Fin 0) = true) /\
  (dle (Fin 0) (momentum_term a E) = true ->
   dle (Fin 0) (centrifugal_term a k) = true ->
   forall code, gridLimits a E k <> Throw (error_code code)).
Proof.
  split; [apply gridLimits_unbound|].
  split.
  { intros m Hmu Hm HE. rewrite gridLimits_unbound. now apply momentum_negative with m. }
  split; [apply gridLimits_small_gamma|].
  intros HK Hg [|] H.
  - apply gridLimits_unbound in H. now rewrite (dle_not_dlt _ _ HK) in H.
  - apply gridLimits_small_gamma in H. destruct H as [_ H].
    now rewrite (dle_not_dlt _ _ Hg) in H.
Qed.

(** *** convergeE *)

Lemma limited_step_spec (a : DiracAtom) (E dE : double) :
  dlt (Fin 0) (Etol a) = true ->
  disnan dE = false ->
  (dabs dE <? Etol a) = false ->
  limited_step a E dE = spec_clamp a E dE.
Proof.
  intros Htol Hnan Hbig. unfold limited_step, spec_clamp, spec_sign.
  destruct (dabs (dE / E) >? max_dE_ratio a); [|reflexivity].
  destruct (dmul_sign_l (dabs E) (max_dE_ratio a)) as [H1 H2].
  unfold dgt. destruct (dlt (Fin 0) dE) eqn:Hpos.
  - exact H1.
  - assert (Hneg : dlt dE (Fin 0) = true).
    { destruct dE as [q| | |]; try discriminate; try reflexivity.
      destruct (Etol a) as [t| | |]; try discriminate.
      apply dlt_Fin in Htol. apply dlt_false_Fin in Hpos.
      cbn [dabs fin] in Hbig. apply dlt_false_Fin in Hbig.
      rewrite Qred_correct in Hbig. apply dlt_Fin.
      revert Hbig. apply Qabs_case; intros; lra. }
    rewrite Hneg. exact H2.
Qed.

(** A correction within tolerance is a number. *)
Lemma within_tolerance_not_nan (x tol : double) :
  (dabs x <? tol) = true -> disnan x = false.
Proof. destruct x; try reflexivity. discriminate. Qed.

(** With a turning point inside the grid and components of one size,
    [continuify] is defined, and it leaves the energy alone. *)
Lemma continuify_Ok (s : DiracState) (tp : TurningPoint) :
  (0 <= tp_i tp)%Z -> List.length (ds_Q s) = List.length (ds_P s) ->
  exists s', continuify s tp = Ok s' /\ ds_E s' = ds_E s.
Proof.
  intros Hi Hlen. unfold continuify, update_range, Vec.size.
  rewrite Hlen.
  replace (tp_i tp <? 0)%Z with false by (symmetry; lia).
  rewrite Z.ltb_irrefl, andb_false_r. cbn [orb bind].
  eexists. split; reflexivity.
Qed.

(** C5. In an iteration of [convergeE] at energy [E] whose correction [dE]
    is a number that does not meet the (positive) tolerance, the loop goes on
    from the energy [E - Edamp * clamp(dE)], where [clamp(dE)] is
    [sign(dE) |E| max_dE_ratio] when [|dE / E|] exceeds [max_dE_ratio] and
    [dE] otherwise; as soon as [|dE| < Etol] the loop ends and [convergeE]
    returns the state of that iteration, with energy [E - dE] (the turning
    point being inside the grid). *)
Theorem convergeE_iteration (a : DiracAtom) (k : Z) (it : nat) (E : double)
  (state : DiracState) (tp : TurningPoint)
  (state' : DiracState) (tp' : TurningPoint) (dE : double) :
  dlt (Fin 0) (Etol a) = true ->
  energyTrial a k E = Ok (state', tp', dE) ->
  (disnan dE = false -> (dabs dE <? Etol a) = false ->
   convergeE_loop a k (S it) E state tp =
   convergeE_loop a k it (E - Edamp a * spec_clamp a E dE) state' tp') /\
  ((dabs dE <? Etol a) = true ->
   (0 <= tp_i tp')%Z -> List.length (ds_Q state') = List.length (ds_P state') ->
   exists st,
     convergeE_loop a k (S it) E state tp = Ok (st, tp') /\ ds_E st = E - dE).
Proof.
  intros Htol Htrial. cbn [convergeE_loop]. unfold convergeE_body.
  rewrite Htrial. cbn [bind]. split.
  - intros Hnan Hbig. rewrite Hnan, Hbig. cbn [bind].
    rewrite (limited_step_spec a E dE Htol Hnan Hbig).
    now rewrite (dmul_comm (spec_clamp a E dE)).
  - intros Hsmall Hi Hlen.
    rewrite (within_tolerance_not_nan _ _ Hsmall), Hsmall.
    destruct (continuify_Ok (with_E state' (E - dE)) tp' Hi Hlen) as [s' [Hc HE]].
    rewrite Hc. cbn [bind]. eexists. split; [reflexivity|exact HE].
Qed.

(** C3, amended. In an iteration of [convergeE] whose energy correction is
    NaN the function throws [runtime_error]; an infinite correction is not
    an error: the step is limited and the loop goes on. *)
Theorem convergeE_nan (a : DiracAtom) (k : Z) (it : nat) (E : double)
  (state : DiracState) (tp : TurningPoint)
  (state' : DiracState) (tp' : TurningPoint) (dE : double) :
  energyTrial a k E = Ok (state', tp', dE) ->
  (disnan dE = true ->
   convergeE_loop a k (S it) E state tp = Throw (runtime_error msg_invalid_dE)) /\
  (dE = PInf \/ dE = NInf ->
   convergeE_loop a k (S it) E state tp =
   convergeE_loop a k it (E - limited_step a E dE * Edamp a) state' tp').
Proof.
  intros Htrial. cbn [convergeE_loop]. unfold convergeE_body.
  rewrite Htrial. cbn [bind]. split.
  - intros Hnan. now rewrite Hnan.
  - intros [-> | ->]; cbn [disnan dabs]; now rewrite dlt_PInf_l.
Qed.

(** With no iteration left, [convergeE] returns what it has. *)
Lemma convergeE_exhausted (a : DiracAtom) (k : Z) (E : double)
  (state : DiracState) (tp : TurningPoint) :
  convergeE_loop a k 0 E state tp = Ok (state, tp).
Proof. reflexivity. Qed.

(** *** convergeNodes *)

Lemma classify_order (targ_nodes : Z) (s : NodesLoop) :
  (nl_nl s > targ_nodes)%Z -> (nl_nr s < targ_nodes)%Z ->
  classify targ_nodes s = Throw (runtime_error msg_nodes_order).
Proof.
  intros Hl Hr. unfold classify.
  replace (nl_nl s - targ_nodes >? 0)%Z with true by (symmetry; lia).
  replace (nl_nr s - targ_nodes >? 0)%Z with false by (symmetry; lia).
  replace (nl_nl s - targ_nodes <? 0)%Z with false by (symmetry; lia).
  reflexivity.
Qed.

(** A trial energy that differs from the previous one is integrated anew,
    and the loop goes on when its number of nodes is not the target. *)
Lemma left_trial_fresh (a : DiracAtom) (k targ_nodes : Z) (s : NodesLoop)
  (state : DiracState) (tp : TurningPoint) :
  (nl_El s != nl_oldEl s) = true ->
  integrateTrial a (nl_El s) k = Ok (state, tp) ->
  ds_nodes state <> targ_nodes ->
  exists s1, left_trial a k targ_nodes s = Ok (Continue s1) /\
             nl_nl s1 = ds_nodes state /\ nl_nr s1 = nl_nr s /\
             nl_Er s1 = nl_Er s /\ nl_oldEr s1 = nl_oldEr s.
Proof.
  intros Hne Ht Hn. unfold left_trial. rewrite Hne, Ht. cbn.
  apply Z.eqb_neq in Hn. rewrite Hn. eexists. split; [reflexivity|]. cbn. auto.
Qed.

Lemma right_trial_fresh (a : DiracAtom) (k targ_nodes : Z) (s : NodesLoop)
  (state : DiracState) (tp : TurningPoint) :
  (nl_Er s != nl_oldEr s) = true ->
  integrateTrial a (nl_Er s) k = Ok (state, tp) ->
  ds_nodes state <> targ_nodes ->
  exists s2, right_trial a k targ_nodes s = Ok (Continue s2) /\
             nl_nr s2 = ds_nodes state /\ nl_nl s2 = nl_nl s.
Proof.
  intros Hne Ht Hn. unfold right_trial. rewrite Hne, Ht. cbn.
  apply Z.eqb_neq in Hn. rewrite Hn. eexists. split; [reflexivity|]. cbn. auto.
Qed.

Lemma convergeNodes_order (a : DiracAtom) (k targ_nodes : Z) (it : nat)
  (s s1 s2 : NodesLoop) :
  left_trial a k targ_nodes s = Ok (Continue s1) ->
  right_trial a k targ_nodes s1 = Ok (Continue s2) ->
  (nl_nl s2 > targ_nodes)%Z -> (nl_nr s2 < targ_nodes)%Z ->
  convergeNodes_loop a k targ_nodes (S it) s = Throw (runtime_error msg_nodes_order).
Proof.
  intros Hl Hr Hnl Hnr. cbn [convergeNodes_loop]. unfold convergeNodes_body.
  rewrite Hl. cbn [bind]. rewrite Hr. cbn [bind].
  now rewrite (classify_order targ_nodes s2 Hnl Hnr).
Qed.

Lemma convergeNodes_exhausted (a : DiracAtom) (k targ_nodes : Z) (n : nat)
  (s s' : NodesLoop) :
  iterates a k targ_nodes n s s' ->
  convergeNodes_loop a k targ_nodes n s = Throw (runtime_error msg_nodes_maxit).
Proof.
  induction 1 as [s|n s s1 s2 Hb _ IH]; [reflexivity|].
  cbn [convergeNodes_loop]. rewrite Hb. exact IH.
Qed.

(** [convergeNodes] returns only a state with the target number of nodes. *)
Lemma convergeNodes_returns_target (a : DiracAtom) (k targ_nodes : Z) (it : nat) :
  forall (s : NodesLoop) (state : DiracState) (tp : TurningPoint) (minE maxE : double),
    convergeNodes_loop a k targ_nodes it s = Ok (state, tp, minE, maxE) ->
    ds_nodes state = targ_nodes.
Proof.
  induction it as [|it IH]; intros s state tp minE maxE H; [discriminate|].
  cbn [convergeNodes_loop] in H. apply bind_Ok in H. destruct H as [r [Hb H]].
  destruct r as [s'|r]; [now apply IH in H|].
  apply Ok_inj in H. subst r.
  unfold convergeNodes_body in Hb.
  apply bind_Ok in Hb. destruct Hb as [l [Hl Hb]].
  destruct l as [s1|r].
  - apply bind_Ok in Hb. destruct Hb as [r' [Hr Hb]].
    destruct r' as [s2|r].
    + apply bind_Ok in Hb. destruct Hb as [s3 [_ Hb]]. discriminate.
    + apply Ok_inj in Hb. injection Hb as Hb. unfold right_trial in Hr.
      destruct (nl_Er s1 != nl_oldEr s1); [|discriminate].
      apply bind_Ok in Hr. destruct Hr as [[st' tp'] [_ Hr]].
      cbn [nl_nr] in Hr.
      destruct (ds_nodes st' =? targ_nodes)%Z eqn:En; [|discriminate].
      apply Ok_inj in Hr. injection Hr as Hr. subst r.
      unfold nodes_result in Hb. cbn in Hb. injection Hb as <- _ _ _.
      now apply Z.eqb_eq.
  - apply Ok_inj in Hb. injection Hb as Hb. unfold left_trial in Hl.
    destruct (nl_El s != nl_oldEl s); [|discriminate].
    apply bind_Ok in Hl. destruct Hl as [[st' tp'] [_ Hl]].
    cbn [nl_nl] in Hl.
    destruct (ds_nodes st' =? targ_nodes)%Z eqn:En; [|discriminate].
    apply Ok_inj in Hl. injection Hl as Hl. subst r.
    unfold nodes_result in Hb. cbn in Hb. injection Hb as <- _ _ _.
    now apply Z.eqb_eq.
Qed.

Lemma convergeNodes_order_fresh (a : DiracAtom) (k targ_nodes : Z) (it : nat)
  (s : NodesLoop) (stl str : DiracState) (tpl tpr : TurningPoint) :
  (nl_El s != nl_oldEl s) = true -> (nl_Er s != nl_oldEr s) = true ->
  integrateTrial a (nl_El s) k = Ok (stl, tpl) ->
  integrateTrial a (nl_Er s) k = Ok (str, tpr) ->
  (ds_nodes stl > targ_nodes)%Z -> (ds_nodes str < targ_nodes)%Z ->
  convergeNodes_loop a k targ_nodes (S it) s = Throw (runtime_error msg_nodes_order).
Proof.
  intros Hl Hr Htl Htr Hnl Hnr.
  destruct (left_trial_fresh a k targ_nodes s stl tpl Hl Htl)
    as [s1 [H1 [Hnl1 [_ [HEr HoldEr]]]]]; [lia|].
  rewrite <- HEr, <- HoldEr in Hr. rewrite <- HEr in Htr.
  destruct (right_trial_fresh a k targ_nodes s1 str tpr Hr Htr)
    as [s2 [H2 [Hnr2 Hnl2]]]; [lia|].
  apply (convergeNodes_order a k targ_nodes it s s1 s2 H1 H2); lia.
Qed.

(** C6. In an iteration of [convergeNodes], if the lower trial energy [El]
    yields more nodes than the target and the higher one [Er] fewer, the
    function throws [runtime_error] ("higher number of nodes for lower
    energy"): so it is when both trials are integrated in this iteration,
    and so it is in general for the node counts [nl] and [nr] that the
    iteration compares.  If the [maxit] iterations of the loop all run
    without returning, that is without a trial reaching the target, the
    function throws [runtime_error] ("maximum iterations hit"); it returns
    only a state with the target number of nodes. *)
Theorem convergeNodes_errors (a : DiracAtom) (state : DiracState)
  (tp : TurningPoint) (targ_nodes : Z) (minE maxE : double) :
  (forall (it : nat) (s : NodesLoop) (stl str : DiracState) (tpl tpr : TurningPoint),
     (nl_El s != nl_oldEl s) = true -> (nl_Er s != nl_oldEr s) = true ->
     integrateTrial a (nl_El s) (ds_k state) = Ok (stl, tpl) ->
     integrateTrial a (nl_Er s) (ds_k state) = Ok (str, tpr) ->
     (ds_nodes stl > targ_nodes)%Z -> (ds_nodes str < targ_nodes)%Z ->
     convergeNodes_loop a (ds_k state) targ_nodes (S it) s =
     Throw (runtime_error msg_nodes_order)) /\
  (forall (it : nat) (s s1 s2 : NodesLoop),
     left_trial a (ds_k state) targ_nodes s = Ok (Continue s1) ->
     right_trial a (ds_k state) targ_nodes s1 = Ok (Continue s2) ->
     (nl_nl s2 > targ_nodes)%Z -> (nl_nr s2 < targ_nodes)%Z ->
     convergeNodes_loop a (ds_k state) targ_nodes (S it) s =
     Throw (runtime_error msg_nodes_order)) /\
  (forall s' : NodesLoop,
     iterates a (ds_k state) targ_nodes (Z.to_nat (maxit a))
       (convergeNodes_init state tp minE maxE) s' ->
     convergeNodes a state tp targ_nodes minE maxE =
     Throw (runtime_error msg_nodes_maxit)) /\
  (forall state' tp' minE' maxE',
     convergeNodes a state tp targ_nodes minE maxE = Ok (state', tp', minE', maxE') ->
     ds_nodes state' = targ_nodes).
Proof.
  split; [|split; [|split]].
  - intros it s stl str tpl tpr. apply convergeNodes_order_fresh.
  - intros it s s1 s2. apply convergeNodes_order.
  - intros s' H. unfold convergeNodes. now apply convergeNodes_exhausted with s'.
  - intros state' tp' minE' maxE' H. unfold convergeNodes in H.
    now apply convergeNodes_returns_target in H.
Qed.

(** *** convergeState *)

(** The radii of a logarithmic grid are [rc * exp(i * dx)] with [rc] not
    below zero: a nuclear radius above one of them is positive, provided
    [exp] never returns a negative number. *)
Lemma logGrid_radius_below (rc dx : double) (i0 i1 : Z) (loggrid grid : list double)
  (g R : double) :
  (forall x, dlt (m_exp x) (Fin 0) = false) ->
  logGrid rc dx i0 i1 = Ok (loggrid, grid) ->
  In g grid ->
  (R >? g) = true -> (R >? Fin 0) = true.
Proof.
  intros Hexp H Hin. unfold logGrid in H.
  destruct (dx <=? Fin 0); [discriminate|].
  destruct (rc <=? Fin 0) eqn:Hrc; [discriminate|].
  destruct (i1 <? i0)%Z; [discriminate|].
  cbn [orb] in H. apply Ok_inj in H. injection H as _ <-.
  apply in_map_iff in Hin. destruct Hin as [i [<- _]]. cbv beta.
  unfold dgt.
  match goal with
  | |- context [m_exp ?x] => specialize (Hexp x); destruct (m_exp x) as [e| | |]
  end;
  destruct rc as [c| | |], R as [r| | |];
    try discriminate; try reflexivity; cbn [dmul dsgn inf_of sgn_mul fin].
  - unfold fin. rewrite !dlt_Fin, Qred_correct.
    apply dlt_false_Fin in Hexp.
    assert (Hc : ~ (c <= 0)%Q).
    { intros Hc. apply dle_Fin in Hc. now rewrite Hc in Hrc. }
    intros H. nra.
  - apply dlt_false_Fin in Hexp.
    destruct (Qsgn_spec e) as [He|He|He]; try discriminate. lra.
  - destruct (Qsgn e); discriminate.
  - destruct (Qsgn e); discriminate.
  - assert (Hc : ~ (c <= 0)%Q).
    { intros Hc. apply dle_Fin in Hc. now rewrite Hc in Hrc. }
    destruct (Qsgn_spec c) as [He|He|He]; try discriminate. lra.
  - destruct (Qsgn c); discriminate.
  - destruct (Qsgn c); discriminate.
Qed.

Lemma DiracState_grid_grid (rc dx : double) (i0 i1 : Z) (state : DiracState) :
  DiracState_grid rc dx i0 i1 = Ok state ->
  exists loggrid, logGrid rc dx i0 i1 = Ok (loggrid, ds_grid state).
Proof.
  unfold DiracState_grid. intros H.
  apply bind_Ok in H. destruct H as [s [_ H]].
  apply bind_Ok in H. destruct H as [[loggrid grid] [Hg H]].
  apply Ok_inj in H. subst state. cbn. eauto.
Qed.

Lemma stateIntegrate_grid (a : DiracAtom) (state state' : DiracState)
  (tp : TurningPoint) (dE : double) :
  stateIntegrate a state = Ok (state', tp, dE) -> ds_grid state' = ds_grid state.
Proof.
  unfold stateIntegrate. intros H.
  apply bind_Ok in H. destruct H as [g0 [_ H]].
  apply bind_Ok in H. destruct H as [[Q P] [_ H]].
  apply bind_Ok in H. destruct H as [[[Q' P'] tp'] [_ H]].
  apply bind_Ok in H. destruct H as [dE' [_ H]].
  apply Ok_inj in H. injection H as <- _ _. reflexivity.
Qed.

Lemma convergeState_body_grid (a : DiracAtom) (k : Z) (E : double)
  (r : step (double * Converged) Converged) :
  convergeState_body a k E = Ok r ->
  match r with
  | Continue (_, c) => on_logGrid a (fst (fst c))
  | Return c => on_logGrid a (fst (fst c))
  end.
Proof.
  unfold convergeState_body. intros H.
  apply bind_Ok in H. destruct H as [[i0 i1] [_ H]].
  apply bind_Ok in H. destruct H as [state [Hs H]].
  apply bind_Ok in H. destruct H as [V [_ H]].
  apply bind_Ok in H. destruct H as [[[state' tp] dE] [Hi H]].
  apply DiracState_grid_grid in Hs. destruct Hs as [loggrid Hs].
  apply stateIntegrate_grid in Hi. cbn in Hi.
  assert (Hc : on_logGrid a state').
  { exists i0, i1, loggrid. now rewrite Hi. }
  destruct (negb (disnan dE) && (dabs dE <? Etol a)).
  - apply Ok_inj in H. subst r. apply Hc.
  - destruct (disnan _); [discriminate|].
    apply Ok_inj in H. subst r. apply Hc.
Qed.

Lemma convergeState_loop_grid (a : DiracAtom) (k : Z) (it : nat) :
  forall (E : double) (last : option Converged) (c : Converged),
    (forall c', last = Some c' -> on_logGrid a (fst (fst c'))) ->
    convergeState_loop a k it E last = Ok (Some c) ->
    on_logGrid a (fst (fst c)).
Proof.
  induction it as [|it IH]; intros E last c Hlast H.
  - apply Ok_inj in H. now apply Hlast.
  - cbn [convergeState_loop] in H.
    apply bind_Ok in H. destruct H as [r [Hb H]].
    apply convergeState_body_grid in Hb.
    destruct r as [[E' c']|c'].
    + apply IH in H; [exact H|]. intros c'' Hc''. now injection Hc'' as <-.
    + apply Ok_inj in H. now injection H as <-.
Qed.

Lemma update_range_Ok (from N : Z) (f : double -> double) (v v' : list double) :
  update_range from N f v = Ok v' -> List.length v' = List.length v.
Proof.
  unfold update_range. destruct (_ && _)%bool; [discriminate|].
  intros H. apply Ok_inj in H. subst v'.
  rewrite length_map, length_combine. unfold Vec.indices.
  rewrite length_map, length_seq. apply Nat.min_id.
Qed.

Lemma convergeState_normalise_grid (c : Converged) (state : DiracState) :
  convergeState_normalise c = Ok state ->
  ds_grid state = ds_grid (fst (fst c)).
Proof.
  destruct c as [[state0 tp] N]. unfold convergeState_normalise. intros H.
  apply bind_Ok in H. destruct H as [P [_ H]].
  apply bind_Ok in H. destruct H as [Q [_ H]].
  apply bind_Ok in H. destruct H as [nrm [_ H]].
  apply bind_Ok in H. destruct H as [P' [_ H]].
  apply bind_Ok in H. destruct H as [Q' [_ H]].
  apply Ok_inj in H. subst state. reflexivity.
Qed.

(** The check that ends [convergeState]: it returns the state exactly when
    [nodesQ - nodesP] is [1] for a radius [R] above the innermost grid point
    and [0] otherwise, and throws if not. *)
Lemma convergeState_check_spec (a : DiracAtom) (state : DiracState) (g0 : double) :
  Vec.get (ds_grid state) 0 = Ok g0 ->
  let Pn := countNodes (ds_P state) in
  let Qn := countNodes (ds_Q state) in
  ((Qn - Pn)%Z = (if (da_R a >? g0)%D then 1 else 0)%Z ->
   convergeState_check a state = Ok (with_init (with_nodes state Pn Qn) true)) /\
  ((Qn - Pn)%Z <> (if (da_R a >? g0)%D then 1 else 0)%Z ->
   convergeState_check a state = Throw (literal "NODES WRONG")).
Proof.
  intros Hg Pn Qn. unfold convergeState_check. rewrite Hg. cbn [bind].
  fold Pn Qn. split; intros H.
  - apply Z.eqb_eq in H. now rewrite H.
  - apply Z.eqb_neq in H. now rewrite H.
Qed.

(** C2. Every state returned by [convergeState] has [nodesQ - nodesP] equal
    to [1] if the nucleus is finite ([R > 0]) and the innermost grid point
    lies inside the nuclear radius ([R > r[i0]]), and to [0] otherwise; and
    the final check throws ("NODES WRONG") on a state that violates the
    relation.  The radii of the grid are those of [logGrid], with an [exp]
    that is never negative. *)
Theorem convergeState_nodes_relation (a : DiracAtom) (E0 : double) (k : Z) :
  (forall x, dlt (m_exp x) (Fin 0) = false) ->
  (forall state,
     convergeState a E0 k = Ok state ->
     exists g0,
       Vec.get (ds_grid state) 0 = Ok g0 /\
       (ds_nodesQ state - ds_nodes state)%Z =
       (if ((da_R a >? Fin 0) && (da_R a >? g0))%D then 1 else 0)%Z) /\
  (forall state g0,
     Vec.get (ds_grid state) 0 = Ok g0 ->
     (countNodes (ds_Q state) - countNodes (ds_P state))%Z <>
     (if ((da_R a >? Fin 0) && (da_R a >? g0))%D then 1 else 0)%Z ->
     on_logGrid a state ->
     convergeState_check a state = Throw (literal "NODES WRONG")).
Proof.
  intros Hexp.
  assert (Hin : forall state g0 state0,
             on_logGrid a state0 -> ds_grid state = ds_grid state0 ->
             Vec.get (ds_grid state) 0 = Ok g0 ->
             (da_R a >? Fin 0) && (da_R a >? g0) = (da_R a >? g0)).
  { intros state g0 state0 [i0 [i1 [lg Hlg]]] Hgrid Hg.
    destruct (da_R a >? g0) eqn:HR; [|apply andb_false_r].
    rewrite <- Hgrid in Hlg.
    rewrite (logGrid_radius_below _ _ _ _ _ _ g0 (da_R a) Hexp Hlg); [reflexivity| |exact HR].
    unfold Vec.get in Hg. cbn in Hg.
    destruct (ds_grid state) as [|x t]; [discriminate|].
    cbn in Hg. apply Ok_inj in Hg. subst x. now left. }
  split.
  - intros state H. unfold convergeState in H.
    apply bind_Ok in H. destruct H as [last [Hloop H]].
    apply bind_Ok in H. destruct H as [c [Hc H]].
    destruct last as [c'|]; [|discriminate]. apply Ok_inj in Hc. subst c'.
    apply convergeState_loop_grid in Hloop; [|discriminate].
    unfold convergeState_finish in H.
    apply bind_Ok in H. destruct H as [state1 [Hn H]].
    apply convergeState_normalise_grid in Hn.
    unfold convergeState_check in H.
    apply bind_Ok in H. destruct H as [g0 [Hg H]].
    exists g0.
    rewrite (Hin state1 g0 _ Hloop Hn Hg).
    destruct (negb _) eqn:Hcheck; [discriminate|].
    apply Ok_inj in H. subst state. cbn.
    split; [exact Hg|].
    apply negb_false_iff, Z.eqb_eq in Hcheck. exact Hcheck.
  - intros state g0 Hg Hne Hgrid.
    rewrite (Hin state g0 _ Hgrid eq_refl Hg) in Hne.
    now apply (convergeState_check_spec a state g0 Hg).
Qed.

(** *** The cache, calcState and getState *)

Lemma key_eqb_refl (x : key) : key_eqb x x = true.
Proof.
  destruct x as [[n l] s]. unfold key_eqb.
  now rewrite !Z.eqb_refl, Bool.eqb_reflx.
Qed.

Lemma key_eqb_eq (x y : key) : key_eqb x y = true -> x = y.
Proof.
  destruct x as [[n l] s], y as [[n' l'] s']. unfold key_eqb. intros H.
  apply andb_prop in H. destruct H as [H Hs].
  apply andb_prop in H. destruct H as [Hn Hl].
  apply Z.eqb_eq in Hn, Hl. apply Bool.eqb_prop in Hs. now subst.
Qed.

Lemma lookup_insert (x : key) (v : DiracState) (m : cache) :
  lookup x (insert x v m) = Some v.
Proof.
  induction m as [|[y w] t IH]; cbn.
  - now rewrite key_eqb_refl.
  - destruct (key_eqb x y) eqn:E; cbn.
    + now rewrite key_eqb_refl.
    + destruct (key_ltb x y); cbn.
      * now rewrite key_eqb_refl.
      * now rewrite E.
Qed.

Lemma lookup_insert_other (x y : key) (v : DiracState) (m : cache) :
  key_eqb y x = false -> lookup y (insert x v m) = lookup y m.
Proof.
  intros Hne. induction m as [|[z w] t IH]; cbn.
  - now rewrite Hne.
  - destruct (key_eqb x z) eqn:E; cbn.
    + apply key_eqb_eq in E. subst z. now rewrite Hne.
    + destruct (key_ltb x z); cbn.
      * now rewrite Hne.
      * now rewrite IH.
Qed.

Lemma In_insert (x : key) (v : DiracState) (m : cache) :
  In (x, v) (insert x v m).
Proof.
  induction m as [|[y w] t IH]; cbn.
  - now left.
  - destruct (key_eqb x y); [now left|].
    destruct (key_ltb x y); [now left|]. right. exact IH.
Qed.

Lemma lookup_assign (x : key) (v : DiracState) (m : cache) :
  lookup x (assign x v m) = Some v.
Proof. unfold assign. apply lookup_insert. Qed.

Lemma subscript_found (x : key) (v : DiracState) (m : cache) :
  lookup x m = Some v -> subscript x m = (v, m).
Proof. unfold subscript. now intros ->. Qed.

Lemma subscript_absent (x : key) (m : cache) :
  lookup x m = None ->
  subscript x m = (DiracState_default, insert x DiracState_default m).
Proof. unfold subscript. now intros ->. Qed.

Lemma getn_copy (st : DiracState) : getn (DiracState_copy st) = getn st.
Proof. reflexivity. Qed.

Lemma calcState_loop_off_target (a : DiracAtom) (n l : Z) (s : bool) (k : Z)
  (it : nat) (E0 : double) (state st : DiracState) (states : cache) :
  convergeState a E0 k = Ok st -> getn st <> n ->
  calcState_loop a n l s k (S it) E0 state states =
  calcState_loop a n l s k it (next_guess a E0) st
    (assign (getn st, l, s) st states).
Proof.
  intros Hc Hn. cbn [calcState_loop]. rewrite Hc.
  apply Z.eqb_neq in Hn. now rewrite Hn.
Qed.

(** When every attempt converges to a state whose principal quantum number
    is not [n], the loop of [calcState] uses up its iterations and is left
    with the last of these states. *)
Lemma calcState_loop_exhausted (a : DiracAtom) (n l : Z) (s : bool) (k : Z) (it : nat) :
  forall (E0 : double) (state : DiracState) (states : cache),
    (forall j, (j < S it)%nat ->
       exists st, convergeState a (Nat.iter j (next_guess a) E0) k = Ok st /\
                  getn st <> n) ->
    exists st states',
      calcState_loop a n l s k (S it) E0 state states = (Ok st, states') /\
      getn st <> n.
Proof.
  induction it as [|it IH]; intros E0 state states H.
  - destruct (H O) as [st [Hc Hn]]; [lia|]. cbn in Hc.
    rewrite (calcState_loop_off_target a n l s k _ E0 state st states Hc Hn).
    cbn [calcState_loop]. eauto.
  - destruct (H O) as [st [Hc Hn]]; [lia|]. cbn in Hc.
    rewrite (calcState_loop_off_target a n l s k _ E0 state st states Hc Hn).
    apply IH. intros j Hj.
    destruct (H (S j)) as [st' [Hc' Hn']]; [lia|].
    rewrite Nat.iter_succ_r in Hc'. eauto.
Qed.

(** C1, on the code as it is.  When the cache holds no initialised state for
    [(n, l, s)] and each of the [maxit] attempts of [calcState] converges to
    a state whose principal quantum number differs from [n], [getState]
    raises no error: it returns the last of these states, and leaves it in
    the cache under the key [(n, l, s)]. *)
Theorem getState_budget_exhausted (a : DiracAtom) (states : cache)
  (n l : Z) (s : bool) (E0 : double) :
  let k := if s && (l >? 0)%Z then l else (- l - 1)%Z in
  ds_init (fst (subscript (n, l, s) states)) = false ->
  startingEnergy a n k = Ok E0 ->
  (0 < maxit a)%Z ->
  (forall j, (j < Z.to_nat (maxit a))%nat ->
     exists st, convergeState a (Nat.iter j (next_guess a) E0) k = Ok st /\
                getn st <> n) ->
  exists st states',
    getState a states n l s = (Ok st, states') /\
    getn st <> n /\
    exists entry, lookup (n, l, s) states' = Some entry /\ getn entry <> n.
Proof.
  intros k Hmiss HE0 Hmax Hoff.
  destruct (Z.to_nat (maxit a)) as [|it] eqn:Hit; [lia|].
  unfold getState, calcState. fold k.
  destruct (subscript (n, l, s) states) as [st0 states0] eqn:Hsub.
  cbn [negb]. cbn in Hmiss. rewrite Hmiss, HE0, Hit.
  destruct (calcState_loop_exhausted a n l s k it E0 DiracState_default states0 Hoff)
    as [st [states1 [Hloop Hn]]].
  rewrite Hloop.
  rewrite (subscript_found _ _ _ (lookup_assign (n, l, s) st states1)).
  cbn [DiracState_copy ds_init negb].
  eexists. eexists. split; [reflexivity|]. split; [exact Hn|].
  exists st. split; [apply lookup_assign|exact Hn].
Qed.

(** [getState] never reaches its own [throw "MAXIT REACHED"]: the entry is
    read through the copy constructor, which marks the copy initialised. *)
Lemma getState_after_calcState (a : DiracAtom) (states : cache)
  (n l : Z) (s : bool) :
  getState a states n l s =
  match calcState a states n l s false with
  | (Ok _, states1) =>
      (Ok (DiracState_copy (DiracState_copy (fst (subscript (n, l, s) states1)))),
       snd (subscript (n, l, s) states1))
  | (Throw e, states1) => (Throw e, states1)
  | (Undefined, states1) => (Undefined, states1)
  end.
Proof.
  unfold getState.
  destruct (calcState a states n l s false) as [[u|e|] states1]; try reflexivity.
  now destruct (subscript (n, l, s) states1).
Qed.

(** *** The cache after a failed getState *)

(** The two order facts behind the scan of [energyLimits]. *)
Lemma dmax_keeps_above (acc x E : double) :
  dlt acc E = false -> dlt (dmax acc x) E = false.
Proof.
  unfold dmax. destruct (dlt acc x) eqn:Hx; [|trivial].
  destruct acc as [p| | |], x as [q| | |], E as [e| | |];
    try discriminate; try reflexivity.
  rewrite dlt_false_Fin. apply dlt_Fin in Hx. rewrite dlt_false_Fin. lra.
Qed.

Lemma dmin_keeps_below (acc x E : double) :
  dlt E acc = false -> dlt E (dmin acc x) = false.
Proof.
  unfold dmin. destruct (dlt x acc) eqn:Hx; [|trivial].
  destruct acc as [p| | |], x as [q| | |], E as [e| | |];
    try discriminate; try reflexivity.
  rewrite dlt_false_Fin. apply dlt_Fin in Hx. rewrite dlt_false_Fin. lra.
Qed.

Lemma dmax_above_new (acc E : double) : dlt (dmax acc E) E = false.
Proof.
  unfold dmax. destruct (dlt acc E) eqn:H; [|exact H].
  destruct E; try reflexivity. apply dlt_false_Fin. lra.
Qed.

Lemma dmin_below_new (acc E : double) : dlt E (dmin acc E) = false.
Proof.
  unfold dmin. destruct (dlt E acc) eqn:H; [|exact H].
  destruct E; try reflexivity. apply dlt_false_Fin. lra.
Qed.

Lemma energyLimits_scan_keeps (n l : Z) (s : bool) (E : double) (m : cache) :
  forall minE maxE : double,
    (dlt minE E = false ->
     dlt (fst (energyLimits_scan n l s m minE maxE)) E = false) /\
    (dlt E maxE = false ->
     dlt E (snd (energyLimits_scan n l s m minE maxE)) = false).
Proof.
  induction m as [|[[[itn itl] its] st] t IH]; intros minE maxE; cbn.
  - tauto.
  - destruct ((itl =? l)%Z && Bool.eqb its s); [|apply IH].
    destruct (itn <=? n)%Z.
    + split; intros H; apply IH; [now apply dmax_keeps_above|exact H].
    + split; intros H; apply IH; [exact H|now apply dmin_keeps_below].
Qed.

(** Every entry of the cache with the orbital and spin numbers of the
    request takes part in the scan: the lower bound is not below the energy
    of an entry with [itn <= n], the upper bound not above the energy of an
    entry with [itn > n]. *)
Lemma energyLimits_scan_visits (n l : Z) (s : bool) (itn : Z) (st : DiracState)
  (m : cache) :
  In ((itn, l, s), st) m ->
  forall minE maxE : double,
    ((itn <= n)%Z ->
     dlt (fst (energyLimits_scan n l s m minE maxE)) (ds_E st) = false) /\
    ((itn > n)%Z ->
     dlt (ds_E st) (snd (energyLimits_scan n l s m minE maxE)) = false).
Proof.
  induction m as [|[[[itn' itl] its] st'] t IH]; intros Hin minE maxE; [contradiction|].
  destruct Hin as [Heq|Hin].
  - injection Heq as -> -> -> ->. cbn.
    rewrite Z.eqb_refl, Bool.eqb_reflx. cbn.
    destruct (itn <=? n)%Z eqn:Hn.
    + split; [|lia]. intros _.
      apply energyLimits_scan_keeps, dmax_above_new.
    + split; [lia|]. intros _.
      apply energyLimits_scan_keeps, dmin_below_new.
  - cbn. destruct ((itl =? l)%Z && Bool.eqb its s); [|now apply IH].
    destruct (itn' <=? n)%Z; now apply IH.
Qed.

(** C9. The presence check of [calcState] goes through [states[key]]: when
    the key [(n, l, s)] is absent and the computation then fails (the
    starting energy or the first convergence throws), [getState] fails with
    that error and leaves in the cache a default-constructed state
    ([E = 0], [init = false]) under [(n, l, s)].  Any later scan of
    [energyLimits] for the same [(l, s)] takes this entry into account: the
    lower bound it returns is not below [0] when [n] is at most the requested
    principal number, and the upper bound not above [0] otherwise. *)
Theorem getState_failure_leaves_entry (a : DiracAtom) (states : cache)
  (n l : Z) (s : bool) (e : exn) :
  let k := if s && (l >? 0)%Z then l else (- l - 1)%Z in
  let states' := insert (n, l, s) DiracState_default states in
  lookup (n, l, s) states = None ->
  (startingEnergy a n k = Throw e \/
   exists E0, startingEnergy a n k = Ok E0 /\ (0 < maxit a)%Z /\
              convergeState a E0 k = Throw e) ->
  getState a states n l s = (Throw e, states') /\
  lookup (n, l, s) states' = Some DiracState_default /\
  ds_E DiracState_default = Fin 0 /\ ds_init DiracState_default = false /\
  forall (nodes k' : Z) (minE maxE : double),
    qnumDirac2Schro k' = (l, s) ->
    energyLimits a states' nodes k' = Ok (minE, maxE) ->
    ((n <= qnumNodes2Principal nodes l)%Z -> dlt minE (Fin 0) = false) /\
    ((n > qnumNodes2Principal nodes l)%Z -> dlt (Fin 0) maxE = false).
Proof.
  intros k states' Habs Hfail.
  split; [|split; [apply lookup_insert|split; [reflexivity|split; [reflexivity|]]]].
  - unfold getState, calcState. fold k.
    rewrite (subscript_absent _ _ Habs). cbn [negb ds_init DiracState_default].
    destruct Hfail as [HE|[E0 [HE [Hmax Hc]]]].
    + now rewrite HE.
    + rewrite HE. destruct (Z.to_nat (maxit a)) as [|it] eqn:Hit; [lia|].
      cbn [calcState_loop]. now rewrite Hc.
  - intros nodes k' minE maxE Hk HE. unfold energyLimits in HE.
    rewrite Hk in HE. apply bind_Ok in HE. destruct HE as [V0 [_ HE]].
    apply Ok_inj in HE.
    pose proof (energyLimits_scan_visits (qnumNodes2Principal nodes l) l s n
                  DiracState_default states' (In_insert _ _ _)
                  (dmax (V0 + da_restE a) (- da_restE a)) (da_restE a)) as Hv.
    rewrite HE in Hv. exact Hv.
Qed.

End WithCollaborators.

(** *** The properties on the small instance *)

(** At [E = 2 restE] the error is [UNBOUND_STATE], and [|E| > restE]; at
    [E = restE - 1/2] with [k = -1] and [Z = 1] no error code is raised. *)
Lemma gridLimits_boundary_errors_witness :
  let a := Toy.the_atom Toy.converging (Fin 1) 2 in
  @gridLimits Toy.libm a (Fin 2 * da_restE a) (-1) = Throw (error_code UNBOUND_STATE) /\
  dlt (da_restE a) (dabs (Fin 2 * da_restE a)) = true /\
  forall code,
    @gridLimits Toy.libm a (da_restE a - Fin 0.5) (-1) <> Throw (error_code code).
Proof.
  intros a.
  pose proof (@gridLimits_boundary_errors Toy.libm a (Fin 2 * da_restE a) (-1))
    as [H1 [H2 _]].
  pose proof (@gridLimits_boundary_errors Toy.libm a (da_restE a - Fin 0.5) (-1))
    as [_ [_ [_ H4]]].
  split; [apply H1; vm_compute; reflexivity|].
  split; [apply (H2 1%Q eq_refl eq_refl eq_refl); apply H1; vm_compute; reflexivity|].
  apply H4; vm_compute; reflexivity.
Defined.

(** C4 as stated fails twice.  At [E = restE], which is not inside
    [(-restE, restE)], the momentum term is zero and [UNBOUND_STATE] is not
    raised.  For [Z = 200], [k = -1] and [E = 2 restE] the centrifugal term is
    negative, yet the error raised is [UNBOUND_STATE], not [SMALL_GAMMA]. *)
Lemma gridLimits_claim_counterexample :
  let a := Toy.the_atom Toy.converging (Fin 1) 2 in
  let a' := Toy.the_atom Toy.converging (Fin 200) 2 in
  (dlt (- da_restE a) (da_restE a) && dlt (da_restE a) (da_restE a) = false /\
   @gridLimits Toy.libm a (da_restE a) (-1) <> Throw (error_code UNBOUND_STATE)) /\
  ((centrifugal_term a' (-1) <? Fin 0) = true /\
   @gridLimits Toy.libm a' (Fin 2 * da_restE a') (-1) = Throw (error_code UNBOUND_STATE) /\
   @gridLimits Toy.libm a' (Fin 2 * da_restE a') (-1) <> Throw (error_code SMALL_GAMMA)).
Proof.
  intros a a'. split; [split|split; [|split]].
  - vm_compute. reflexivity.
  - vm_compute. discriminate.
  - vm_compute. reflexivity.
  - vm_compute. reflexivity.
  - vm_compute. discriminate.
Qed.

(** A correction of [1] is applied with the damping factor; a correction of
    [0] ends the loop. *)
Lemma convergeE_iteration_witness :
  let a := Toy.the_atom Toy.stalling (Fin 1) 2 in
  (exists state' tp',
     @convergeE_loop Toy.libm Toy.stalling Toy.indeterminate a (-1) 2
       Toy.E_start Toy.start Toy.tp0 =
     @convergeE_loop Toy.libm Toy.stalling Toy.indeterminate a (-1) 1
       (Toy.E_start - Edamp a * spec_clamp a Toy.E_start (Fin 1)) state' tp') /\
  (exists st tp',
     @convergeE_loop Toy.libm Toy.converging Toy.indeterminate a (-1) 2
       Toy.E_start Toy.start Toy.tp0 = Ok (st, tp') /\
     ds_E st = Toy.E_start - Fin 0).
Proof.
  intros a. split.
  - let v := eval vm_compute in
      (@energyTrial Toy.libm Toy.stalling Toy.indeterminate a (-1) Toy.E_start) in
    match v with
    | Ok (?st, ?tp, ?dE) =>
        exists st, tp;
        apply (proj1 (@convergeE_iteration Toy.libm Toy.stalling Toy.indeterminate
                        a (-1) 1 Toy.E_start Toy.start Toy.tp0 st tp dE
                        ltac:(vm_compute; reflexivity) ltac:(vm_compute; reflexivity)));
        vm_compute; reflexivity
    end.
  - let v := eval vm_compute in
      (@energyTrial Toy.libm Toy.converging Toy.indeterminate a (-1) Toy.E_start) in
    match v with
    | Ok (?st, ?tp, ?dE) =>
        destruct (proj2 (@convergeE_iteration Toy.libm Toy.converging
                           Toy.indeterminate
                           a (-1) 1 Toy.E_start Toy.start Toy.tp0 st tp dE
                           ltac:(vm_compute; reflexivity)
                           ltac:(vm_compute; reflexivity))
                    ltac:(vm_compute; reflexivity)
                    ltac:(vm_compute; discriminate)
                    ltac:(vm_compute; reflexivity)) as [st' [Hloop HE]];
        exists st', tp; split; [exact Hloop|exact HE]
    end.
Defined.

(** A correction [0 / 0] makes [convergeE] throw; a correction [1 / 0] does
    not. *)
Lemma convergeE_nan_witness :
  let a := Toy.the_atom Toy.stalling (Fin 1) 2 in
  @convergeE Toy.libm Toy.degenerate Toy.indeterminate a Toy.start Toy.tp0 =
    Throw (runtime_error msg_invalid_dE) /\
  (exists state' tp',
     @convergeE Toy.libm (Toy.singular_at Toy.E_start) Toy.indeterminate a
       Toy.start Toy.tp0 =
     @convergeE_loop Toy.libm (Toy.singular_at Toy.E_start) Toy.indeterminate a (-1) 1
       (Toy.E_start - limited_step a Toy.E_start PInf * Edamp a) state' tp').
Proof.
  intros a. split.
  - let v := eval vm_compute in
      (@energyTrial Toy.libm Toy.degenerate Toy.indeterminate a (-1) Toy.E_start) in
    match v with
    | Ok (?st, ?tp, ?dE) =>
        apply (proj1 (@convergeE_nan Toy.libm Toy.degenerate Toy.indeterminate
                        a (-1) 1 Toy.E_start Toy.start Toy.tp0 st tp dE
                        ltac:(vm_compute; reflexivity)));
        reflexivity
    end.
  - let v := eval vm_compute in
      (@energyTrial Toy.libm (Toy.singular_at Toy.E_start) Toy.indeterminate a (-1)
         Toy.E_start) in
    match v with
    | Ok (?st, ?tp, ?dE) =>
        exists st, tp;
        apply (proj2 (@convergeE_nan Toy.libm (Toy.singular_at Toy.E_start)
                        Toy.indeterminate
                        a (-1) 1 Toy.E_start Toy.start Toy.tp0 st tp dE
                        ltac:(vm_compute; reflexivity)));
        left; reflexivity
    end.
Defined.

(** C3 as stated fails twice.  With an energy correction that is [+inf] in
    the first iteration and [0] in the second, [convergeE] raises no error and
    returns.  With a correction that is [1] at every energy and a budget of
    two iterations, [convergeE] returns normally, and the state it returns is
    not converged: its correction is still [1], above [Etol]. *)
Lemma convergeE_claim_counterexample :
  let a := Toy.the_atom Toy.stalling (Fin 1) 2 in
  (exists st tp st' tp',
     @energyTrial Toy.libm (Toy.singular_at Toy.E_start) Toy.indeterminate a (-1)
       Toy.E_start = Ok (st, tp, PInf) /\
     @convergeE Toy.libm (Toy.singular_at Toy.E_start) Toy.indeterminate a
       Toy.start Toy.tp0 = Ok (st', tp')) /\
  (exists st tp st' tp',
     @convergeE Toy.libm Toy.stalling Toy.indeterminate a Toy.start Toy.tp0 =
       Ok (st, tp) /\
     @energyTrial Toy.libm Toy.stalling Toy.indeterminate a (-1) (ds_E st) =
       Ok (st', tp', Fin 1) /\
     (dabs (Fin 1) <? Etol a) = false).
Proof.
  intros a. split.
  - do 4 eexists. split; vm_compute; reflexivity.
  - do 4 eexists. split; [vm_compute; reflexivity|].
    split; vm_compute; reflexivity.
Qed.

(** With two nodes at the lower trial energy and none at the higher one,
    for a target of one node, [convergeNodes] throws in its first iteration;
    with two nodes at every energy it throws after its two iterations. *)
Lemma convergeNodes_errors_witness :
  let a := Toy.the_atom Toy.stalling (Fin 1) 2 in
  @convergeNodes Toy.libm (Toy.nodes_decreasing Toy.E_start) Toy.indeterminate a
    Toy.start Toy.tp0 1 (Toy.restE - Fin 1) Toy.restE =
    Throw (runtime_error msg_nodes_order) /\
  @convergeNodes Toy.libm Toy.two_nodes Toy.indeterminate a
    Toy.start Toy.tp0 1 (Toy.restE - Fin 1) Toy.restE =
    Throw (runtime_error msg_nodes_maxit) /\
  (forall state' tp' minE' maxE',
     @convergeNodes Toy.libm Toy.two_nodes Toy.indeterminate a
       Toy.start Toy.tp0 2 (Toy.restE - Fin 1) Toy.restE =
       Ok (state', tp', minE', maxE') ->
     ds_nodes state' = 2%Z).
Proof.
  intros a. split; [|split].
  - eapply (proj1 (@convergeNodes_errors Toy.libm (Toy.nodes_decreasing Toy.E_start)
                     Toy.indeterminate a Toy.start Toy.tp0 1
                     (Toy.restE - Fin 1) Toy.restE) 1%nat
              (@convergeNodes_init Toy.indeterminate Toy.start Toy.tp0
                 (Toy.restE - Fin 1) Toy.restE)).
    + vm_compute. reflexivity.
    + vm_compute. reflexivity.
    + vm_compute. reflexivity.
    + vm_compute. reflexivity.
    + vm_compute. reflexivity.
    + vm_compute. reflexivity.
  - eapply (proj1 (proj2 (proj2 (@convergeNodes_errors Toy.libm Toy.two_nodes
                                   Toy.indeterminate a Toy.start Toy.tp0 1
                                   (Toy.restE - Fin 1) Toy.restE)))).
    change (Z.to_nat (maxit a)) with 2%nat.
    eapply iterates_S; [vm_compute; reflexivity|].
    eapply iterates_S; [vm_compute; reflexivity|].
    apply iterates_O.
  - apply (proj2 (proj2 (proj2 (@convergeNodes_errors Toy.libm Toy.two_nodes
                                  Toy.indeterminate a Toy.start Toy.tp0 2
                                  (Toy.restE - Fin 1) Toy.restE)))).
Defined.

(** The stand-in for [exp] is a square. *)
Lemma Toy_exp_nonneg (x : double) : dlt (@m_exp Toy.libm x) (Fin 0) = false.
Proof.
  cbn [m_exp Toy.libm dpowi].
  destruct (Fin 1 + x / Fin 2) as [q| | |]; try reflexivity.
  cbn [dmul fin]. apply dlt_false_Fin. rewrite Qred_correct. nra.
Qed.

(** A state converged for a point nucleus has as many nodes in [Q] as in
    [P]; a state with one more node in [Q] is rejected. *)
Lemma convergeState_nodes_relation_witness :
  let a := Toy.the_atom Toy.converging (Fin 1) 2 in
  (exists state g0,
     @convergeState Toy.libm Toy.converging Toy.indeterminate a Toy.E_start (-1) =
       Ok state /\
     Vec.get (ds_grid state) 0 = Ok g0 /\
     (ds_nodesQ state - ds_nodes state)%Z = 0%Z) /\
  (exists state,
     @convergeState Toy.libm Toy.converging Toy.indeterminate a Toy.E_start (-1) =
       Ok state /\
     @convergeState_check a (with_QP state (Toy.wave (Fin 1) 1 5) (ds_P state)) =
       Throw (literal "NODES WRONG")).
Proof.
  intros a.
  pose proof (@convergeState_nodes_relation Toy.libm Toy.converging Toy.indeterminate
                a Toy.E_start (-1) Toy_exp_nonneg) as [H1 H2].
  let v := eval vm_compute in
    (@convergeState Toy.libm Toy.converging Toy.indeterminate a Toy.E_start (-1)) in
  match v with
  | Ok ?st =>
      assert (Hc : @convergeState Toy.libm Toy.converging Toy.indeterminate a
                     Toy.E_start (-1) = Ok st) by (vm_compute; reflexivity);
      split; [exists st|exists st; split; [exact Hc|]]
  end.
  - destruct (H1 _ Hc) as [g0 [Hg Hn]]. exists g0.
    split; [exact Hc|]. split; [exact Hg|exact Hn].
  - apply (H2 _ (Fin 0)); [reflexivity|vm_compute; discriminate|].
    exists (-2)%Z, 2%Z. eexists. vm_compute. reflexivity.
Defined.

(** Asked for the state [(2, 0, false)] with two attempts that both converge
    to a node-less state, [getState] returns a state whose principal quantum
    number is [1], and caches it under [(2, 0, false)]. *)
Lemma getState_budget_exhausted_witness :
  let a := Toy.the_atom Toy.converging (Fin 1) 2 in
  exists st states',
    @getState Toy.libm Toy.converging Toy.indeterminate a [] 2 0 false =
      (Ok st, states') /\
    getn st <> 2%Z /\
    exists entry, lookup (2, 0, false)%Z states' = Some entry /\ getn entry <> 2%Z.
Proof.
  intros a.
  let v := eval vm_compute in
    (@startingEnergy Toy.converging a 2 (-1)) in
  match v with
  | Ok ?E0 =>
      apply (@getState_budget_exhausted Toy.libm Toy.converging Toy.indeterminate
               a [] 2 0 false E0)
  end.
  - reflexivity.
  - vm_compute. reflexivity.
  - reflexivity.
  - intros [|[|j]] Hj.
    + eexists. split; [vm_compute; reflexivity|vm_compute; discriminate].
    + eexists. split; [vm_compute; reflexivity|vm_compute; discriminate].
    + change (Z.to_nat (maxit a)) with 2%nat in Hj. lia.
Defined.

(** For [Z = 200] the grid limits fail with [SMALL_GAMMA]: the failed
    [getState] leaves a default entry in the cache, and the next scan of
    [energyLimits] returns a lower bound that is not below [0]. *)
Lemma getState_failure_leaves_entry_witness :
  let a := Toy.the_atom Toy.converging (Fin 200) 2 in
  let states' := [((1, 0, false)%Z, @DiracState_default Toy.indeterminate)] in
  @getState Toy.libm Toy.converging Toy.indeterminate a [] 1 0 false =
    (Throw (error_code SMALL_GAMMA), states') /\
  exists minE maxE,
    energyLimits a states' 0 (-1) = Ok (minE, maxE) /\
    dlt minE (Fin 0) = false.
Proof.
  intros a states'.
  destruct (@getState_failure_leaves_entry Toy.libm Toy.converging Toy.indeterminate
              a [] 1 0 false (error_code SMALL_GAMMA) eq_refl)
    as [Hg [_ [_ [_ Hscan]]]].
  { right. eexists. split; [vm_compute; reflexivity|].
    split; [reflexivity|vm_compute; reflexivity]. }
  split; [exact Hg|].
  let v := eval vm_compute in (energyLimits a states' 0 (-1)) in
  match v with
  | Ok (?minE, ?maxE) =>
      exists minE, maxE;
      assert (HE : energyLimits a states' 0 (-1) = Ok (minE, maxE))
        by (vm_compute; reflexivity);
      split; [exact HE|];
      apply (proj1 (Hscan 0%Z (-1)%Z minE maxE eq_refl HE)); vm_compute; discriminate
  end.
Defined.

End AtomFacts.

(* ================================================================== *)
(** * Further properties

    Properties of the code around the functions studied above: the rest of
    potential.cpp and of atom.cpp, the transitions of [main], and how the
    functions compose. *)

(** ** More arithmetic of doubles *)

Module DoubleExtra.

Import DoubleFacts.
Local Open Scope double_scope.

Lemma ddiv_Fin (a b : Q) : ~ (b == 0)%Q -> Fin a / Fin b = fin (a / b).
Proof. intros H. cbn [ddiv]. now rewrite (Qeq_bool_false b H). Qed.

Lemma cube_pos (q : Q) : (0 < q)%Q -> (0 < q * (q * q))%Q.
Proof.
  intros H. apply Qmult_lt_0_compat; [exact H|]. now apply Qmult_lt_0_compat.
Qed.

Lemma Qred_idem (q : Q) : Qred (Qred q) = Qred q.
Proof. apply Qred_complete, Qred_correct. Qed.

(** A finite quotient is in lowest terms. *)
Lemma ddiv_canonical (a b : double) (w : Q) : a / b = Fin w -> Qred w = w.
Proof.
  destruct a as [x| | |], b as [y| | |]; cbn [ddiv]; try discriminate.
  - destruct (Qeq_bool y 0).
    + destruct (Qsgn x); discriminate.
    + unfold fin. intros H. apply (f_equal (fun d => match d with Fin q => q | _ => 0%Q end)) in H.
      rewrite <- H. apply Qred_idem.
  - intros H. now injection H as <-.
  - intros H. now injection H as <-.
  - destruct (Qeq_bool y 0), (Qsgn y); discriminate.
  - destruct (Qeq_bool y 0), (Qsgn y); discriminate.
Qed.

(** Adding [v] to [x - v] gives [x] back when [v] is finite and [x] is a
    quotient. *)
Lemma add_sub_cancel (a b : double) (v : Q) :
  Fin v + (a / b - Fin v) = a / b.
Proof.
  destruct (a / b) as [w| | |] eqn:E; try reflexivity.
  apply ddiv_canonical in E. cbn [dsub dopp dadd]. unfold fin.
  rewrite <- E at 2. f_equal. apply Qred_complete. rewrite !Qred_correct. ring.
Qed.

Lemma dlt_irrefl (x : double) : dlt x x = false.
Proof.
  destruct x; try reflexivity. apply dlt_false_Fin. apply Qle_refl.
Qed.

Lemma dsub_NaN_r (x : double) : x - NaN = NaN.
Proof. now destruct x. Qed.

End DoubleExtra.

(** ** Subscripts in range *)

Module VecFacts.

Import OutcomeFacts.

Lemma get_in_range {A : Type} (v : list A) (i : Z) :
  (0 <= i < Vec.size v)%Z -> exists a, Vec.get v i = Ok a.
Proof.
  unfold Vec.get, Vec.size. intros H.
  destruct (Z.ltb_spec i 0) as [H0|H0]; [lia|].
  destruct (nth_error v (Z.to_nat i)) as [a|] eqn:E.
  - now exists a.
  - apply nth_error_None in E. lia.
Qed.

Lemma set_nat_in_range {A : Type} (a : A) (v : list A) :
  forall i : nat, (i < List.length v)%nat ->
    exists v', Vec.set_nat v i a = Some v' /\ List.length v' = List.length v.
Proof.
  induction v as [|h t IH]; simpl; intros i H; [lia|].
  destruct i as [|i].
  - eexists. split; [reflexivity|reflexivity].
  - destruct (IH i) as [v' [E L]]; [lia|].
    rewrite E. simpl. eexists. split; [reflexivity|]. simpl. now rewrite L.
Qed.

Lemma set_in_range {A : Type} (v : list A) (i : Z) (a : A) :
  (0 <= i < Vec.size v)%Z ->
  exists v', Vec.set v i a = Ok v' /\ Vec.size v' = Vec.size v.
Proof.
  unfold Vec.set, Vec.size. intros H.
  destruct (Z.ltb_spec i 0) as [H0|H0]; [lia|].
  destruct (set_nat_in_range a v (Z.to_nat i)) as [v' [E L]]; [lia|].
  rewrite E. exists v'. split; [reflexivity|]. now rewrite L.
Qed.

(** A loop whose body keeps an invariant and never fails under it runs to
    its end. *)
Lemma for_each_invariant {A S : Type} (I : S -> Prop) (J : A -> Prop)
  (body : A -> S -> outcome S) (l : list A) :
  (forall a, In a l -> J a) ->
  (forall a s, J a -> I s -> exists s', body a s = Ok s' /\ I s') ->
  forall s, I s -> exists s', for_each l body s = Ok s' /\ I s'.
Proof.
  intros HJ Hbody. induction l as [|a t IH]; simpl; intros s Hs.
  - now exists s.
  - destruct (Hbody a s) as [s1 [E H1]]; [apply HJ; now left|exact Hs|].
    rewrite E. simpl. apply IH; [|exact H1].
    intros b Hb. apply HJ. now right.
Qed.

Lemma In_tl_indices (n : nat) (i : Z) :
  In i (tl (Vec.indices n)) -> (1 <= i < Z.of_nat n)%Z.
Proof.
  unfold Vec.indices. destruct n as [|n]; simpl; [tauto|].
  rewrite in_map_iff. intros [j [<- Hj]]. apply in_seq in Hj. lia.
Qed.

Lemma get_map {A B : Type} (f : A -> B) (v : list A) (i : Z) (b : B) :
  Vec.get (map f v) i = Ok b -> exists a, Vec.get v i = Ok a /\ b = f a.
Proof.
  unfold Vec.get. destruct (i <? 0)%Z; [discriminate|].
  rewrite nth_error_map. destruct (nth_error v (Z.to_nat i)) as [a|]; simpl.
  - intros H. apply Ok_inj in H. now exists a.
  - discriminate.
Qed.

Lemma get_indices (n : nat) (i j : Z) :
  Vec.get (Vec.indices n) i = Ok j -> j = i /\ (0 <= i < Z.of_nat n)%Z.
Proof.
  unfold Vec.indices. intros H. apply get_map in H. destruct H as [a [H ->]].
  unfold Vec.get in H. destruct (Z.ltb_spec i 0); [discriminate|].
  destruct (nth_error (seq 0 n) (Z.to_nat i)) eqn:E; [|discriminate].
  apply Ok_inj in H. subst a.
  assert (Hl : (Z.to_nat i < n)%nat).
  { pose proof (proj1 (nth_error_Some (seq 0 n) (Z.to_nat i))) as Hs.
    rewrite length_seq in Hs. apply Hs. congruence. }
  apply (nth_error_nth _ _ 0%nat) in E. rewrite seq_nth in E by exact Hl. lia.
Qed.

Lemma nth_error_combine_seq {A : Type} (v : list A) :
  forall (s i : nat) (x : A),
    nth_error v i = Some x ->
    nth_error (combine (map Z.of_nat (seq s (List.length v))) v) i =
    Some (Z.of_nat (s + i), x).
Proof.
  induction v as [|h t IH]; intros s i x; [now destruct i|].
  destruct i as [|i]; cbn.
  - intros H. injection H as ->. now rewrite Nat.add_0_r.
  - intros H. rewrite (IH (S s) i x H). do 2 f_equal. lia.
Qed.

Lemma get_nth_error {A : Type} (v : list A) (i : Z) (x : A) :
  Vec.get v i = Ok x <-> (0 <= i)%Z /\ nth_error v (Z.to_nat i) = Some x.
Proof.
  unfold Vec.get. destruct (Z.ltb_spec i 0) as [Hi|Hi].
  - split; [discriminate|lia].
  - destruct (nth_error v (Z.to_nat i)); cbn; split.
    + intros H. apply Ok_inj in H. subst. auto.
    + intros [_ H]. congruence.
    + discriminate.
    + intros [_ H]. discriminate.
Qed.

End VecFacts.

(* ================================================================== *)
(** ** The potentials, continued *)

Module PotentialExtra.

Import DoubleFacts OutcomeFacts DoubleExtra VecFacts Potential.
Local Open Scope string_scope.
Local Open Scope double_scope.

(** *** The floor of the sphere Coulomb potential *)

Lemma inside_value (z q x : Q) :
  (0 < q)%Q ->
  exists w, Fin z * dpowi (Fin x) 2 / (Fin 2 * dpowi (Fin q) 3) + Fin (-1.5) * Fin z / Fin q = Fin w /\
    (w == z * (x * x) / (2 * (q * (q * q))) - (3 # 2) * z / q)%Q.
Proof.
  intros Hq.
  assert (Hq0 : ~ (q == 0)%Q) by lra.
  assert (Hq3 : ~ (Qred (2 * Qred (q * Qred (q * q))) == 0)%Q).
  { rewrite !Qred_correct. pose proof (cube_pos q Hq). lra. }
  cbn [dpowi dmul]. unfold fin. rewrite (ddiv_Fin _ _ Hq3), (ddiv_Fin _ _ Hq0).
  unfold fin. cbn [dadd]. unfold fin. eexists. split; [reflexivity|].
  rewrite !Qred_correct. field. lra.
Qed.

(** X1. For a positive charge and a nucleus of positive radius [R], both
    finite, the potential at the centre is [-3/2 Z / R], and the potential at
    any radius [r >= 0] is not below it: the value [V(0)] that [energyLimits]
    and [calcState] take as the floor of the potential is its minimum. *)
Theorem CoulombSphere_V_floor (z q x : Q) :
  (0 < z)%Q -> (0 < q)%Q -> (0 <= x)%Q ->
  exists w0 w : Q,
    CoulombSphere_V (CoulombSpherePotential_new (Fin z) (Fin q)) (Fin 0) = Ok (Fin w0) /\
    CoulombSphere_V (CoulombSpherePotential_new (Fin z) (Fin q)) (Fin x) = Ok (Fin w) /\
    (w0 == - (3 # 2) * z / q)%Q /\ (w0 <= w)%Q.
Proof.
  intros Hz Hq Hx.
  assert (Hq0 : ~ (q == 0)%Q) by lra.
  assert (HR : (Fin q >? Fin 0) = true) by (apply dlt_Fin; exact Hq).
  assert (H0 : (Fin 0 <? Fin q) = true) by (apply dlt_Fin; exact Hq).
  unfold CoulombSphere_V, CoulombSpherePotential_new. cbn [csp_R csp_Z csp_R3 csp_VR].
  rewrite HR, H0.
  replace (Fin 0 <? Fin 0) with false by reflexivity.
  replace (Fin x <? Fin 0) with false by (symmetry; apply dlt_false_Fin; exact Hx).
  destruct (inside_value z q 0 Hq) as [w0 [E0 Hw0]].
  assert (Hiq : (0 < / q)%Q) by now apply Qinv_lt_0_compat.
  assert (Hw0' : (w0 == - (3 # 2) * z / q)%Q).
  { rewrite Hw0. field. lra. }
  destruct (Fin x <? Fin q) eqn:Hxq.
  - apply dlt_Fin in Hxq.
    destruct (inside_value z q x Hq) as [w [E Hw]].
    exists w0, w. rewrite E0, E. repeat split; trivial.
    rewrite Hw0', Hw.
    assert (Hd : (0 < / (2 * (q * (q * q))))%Q).
    { apply Qinv_lt_0_compat. pose proof (cube_pos q Hq). lra. }
    unfold Qdiv. set (d := (/ (2 * (q * (q * q))))%Q) in *. clearbody d.
    assert (0 <= z * (x * x) * d)%Q by
      (apply Qmult_le_0_compat; [apply Qmult_le_0_compat; nra | lra]).
    lra.
  - apply dlt_false_Fin in Hxq.
    assert (Hx0 : ~ (x == 0)%Q) by lra.
    exists w0. eexists. rewrite E0. cbn [dopp]. unfold fin. rewrite (ddiv_Fin _ _ Hx0).
    unfold fin. repeat split; trivial.
    rewrite Hw0', !Qred_correct.
    assert (Hix : (0 < / x)%Q) by (apply Qinv_lt_0_compat; lra).
    assert (Hle : (/ x <= / q)%Q).
    { apply Qle_shift_inv_l; [lra|]. 
      setoid_replace (/ x * q)%Q with (q / x)%Q by (field; lra).
      apply Qle_shift_div_r; lra. }
    unfold Qdiv. set (ix := (/ x)%Q) in *. set (iq := (/ q)%Q) in *.
    clearbody ix iq. nra.
Qed.



(** *** The tables of the Uehling potential *)

Section Uehling.

Context {libm : Libm}.
Variables exp_cutoff_low exp_cutoff_high : double.

Lemma table_size (usteps : Z) (du : double) (f : double -> double) :
  (0 <= usteps)%Z -> Vec.size (table usteps du f) = usteps.
Proof.
  intros H. unfold table, Vec.size, Vec.indices.
  rewrite !length_map, length_seq. lia.
Qed.

Lemma zeros_size (N : Z) :
  (0 <= N)%Z -> exists z, Vec.zeros N = Ok z /\ Vec.size z = N.
Proof.
  intros H. unfold Vec.zeros. destruct (Z.ltb_spec N 0); [lia|].
  eexists. split; [reflexivity|]. unfold Vec.size. rewrite repeat_length. lia.
Qed.

(** X2. The constructor of the Uehling potential by its number of steps: a
    negative [usteps] throws [length_error] from the first allocation; with
    [usteps = 0] and a nucleus of positive radius the write to [uarg[0]] is
    out of range; with [usteps >= 1] the constructor returns, the five tables
    have [usteps] entries each, and [uint0] is assigned when [R > 0]. *)
Theorem UehlingSpherePotential_new_outcomes (Zn R : double) (usteps : Z) :
  ((usteps < 0)%Z ->
   UehlingSpherePotential_new Zn R usteps = Throw length_error) /\
  (usteps = 0%Z -> (R >? Fin 0) = true ->
   UehlingSpherePotential_new Zn R usteps = Undefined) /\
  ((1 <= usteps)%Z ->
   exists p, UehlingSpherePotential_new Zn R usteps = Ok p /\
     tables_ready p /\ usp_usteps p = usteps /\ usp_R p = R /\
     ((R >? Fin 0) = true -> usp_uint0 p <> None)).
Proof.
  unfold UehlingSpherePotential_new. repeat split.
  - intros H. unfold Vec.zeros. destruct (Z.ltb_spec usteps 0); [reflexivity|lia].
  - intros -> HR. change (Vec.zeros 0) with (Ok (@nil double)). cbn [bind].
    rewrite HR. change (Vec.set [] 0 (Fin 0)) with (@Undefined (list double)).
    reflexivity.
  - intros H.
    destruct (zeros_size usteps) as [z [Ez Lz]]; [lia|]. rewrite Ez.
    cbn [bind].
    destruct (R >? Fin 0) eqn:HR.
    + destruct (set_in_range z 0 (Fin 0)) as [u0 [E0 L0]]; [lia|].
      rewrite E0. cbn [bind].
      match goal with
      | |- context [for_each ?l ?body u0] =>
          destruct (for_each_invariant (fun u => Vec.size u = usteps)
                      (fun i => (1 <= i < usteps)%Z) body l) with (s := u0)
            as [u [Eu Lu]]
      end.
      * intros i Hi. apply In_tl_indices in Hi. lia.
      * intros i u Hi Hu.
        destruct (get_in_range
                    (table usteps (Fin 1 / (of_int usteps - Fin 1))
                       (fun u => m_sqrt (Fin 1 - u * u) * (Fin 1 + Fin 0.5 * u * u))) i)
          as [uk Ek]; [rewrite table_size; lia|].
        rewrite Ek. cbn [bind].
        destruct (set_in_range u i
                    (ukernel_r_verysmall (of_int i * (Fin 1 / (of_int usteps - Fin 1))) R * uk))
          as [u' [Eu' Lu']]; [lia|].
        exists u'. split; [exact Eu'|lia].
      * lia.
      * rewrite Eu. cbn [bind]. eexists. split; [reflexivity|].
        unfold tables_ready.
        cbn [usp_usteps usp_uarg usp_uker usp_u24c2 usp_uker_great usp_uker_small
             usp_R usp_uint0].
        rewrite !table_size by lia.
        repeat split; trivial. discriminate.
    + eexists. split; [reflexivity|].
      unfold tables_ready.
        cbn [usp_usteps usp_uarg usp_uker usp_u24c2 usp_uker_great usp_uker_small
             usp_R usp_uint0].
        rewrite !table_size by lia.
      repeat split; trivial. discriminate.
Qed.

Lemma V_kernel_defined (p : UehlingSpherePotential) (r : double) (i : Z) :
  tables_ready p -> (1 <= i < usp_usteps p)%Z ->
  exists v, V_kernel p r i = Ok v.
Proof.
  intros (H1 & Ha & Hk & Hc & Hg & Hs) Hi.
  destruct (get_in_range (usp_uker p) i) as [uk Ek]; [lia|].
  destruct (get_in_range (usp_u24c2 p) i) as [w Ew]; [lia|].
  destruct (get_in_range (usp_uker_great p) i) as [g Eg]; [lia|].
  destruct (get_in_range (usp_uker_small p) i) as [sm Es]; [lia|].
  unfold V_kernel, ukernel_r_greater, ukernel_r_smaller. cbn [negb].
  rewrite Ek, Ew, Eg, Es. cbn [bind].
  destruct (usp_R p <=? Fin 0); [eexists; reflexivity|].
  destruct (r >? usp_R p); eexists; reflexivity.
Qed.

Lemma set_uarg_same (p : UehlingSpherePotential) : set_uarg p (usp_uarg p) = p.
Proof. now destruct p. Qed.

(** X3. On a potential whose tables have [usteps >= 1] entries, [V(r)]
    returns a value for every [r] (no subscript is out of range), provided
    that [uint0] was assigned or that [r] is not below the lower cut-off;
    the call changes no member but the scratch vector [uarg], which keeps
    its size, so that [V] can be called again. *)
Theorem Uehling_V_defined (p : UehlingSpherePotential) (r : double) :
  tables_ready p ->
  usp_uint0 p <> None \/
  (r <? exp_cutoff_low * Fin 0.5 * usp_du p * Physical.alpha) = false ->
  exists v p',
    Uehling_V exp_cutoff_low exp_cutoff_high p r = Ok (v, p') /\
    p' = set_uarg p (usp_uarg p') /\
    tables_ready p' /\ usp_uint0 p' = usp_uint0 p.
Proof.
  intros Hp Hu. unfold Uehling_V.
  destruct (r >? exp_cutoff_high * Fin 0.5 * Physical.alpha).
  { exists (Fin 0), p. now rewrite set_uarg_same. }
  destruct (r <? exp_cutoff_low * Fin 0.5 * usp_du p * Physical.alpha).
  { destruct Hu as [Hu|Hu]; [|discriminate].
    destruct (usp_uint0 p) as [u|] eqn:E; [|contradiction].
    cbn [defined bind]. exists (usp_K p * u), p.
    rewrite set_uarg_same, E. auto. }
  pose proof Hp as (H1 & Ha & Hk & Hc & Hg & Hs).
  destruct (set_in_range (usp_uarg p) 0 (Fin 0)) as [u0 [E0 L0]]; [lia|].
  rewrite E0. cbn [bind].
  match goal with
  | |- context [for_each ?l ?body u0] =>
      destruct (for_each_invariant (fun u => Vec.size u = usp_usteps p)
                  (fun i => (1 <= i < usp_usteps p)%Z) body l) with (s := u0)
        as [u [Eu Lu]]
  end.
  - intros i Hi. apply In_tl_indices in Hi. lia.
  - intros i u Hi Lu.
    destruct (V_kernel_defined p r i Hp Hi) as [v Ev]. rewrite Ev. cbn [bind].
    destruct (set_in_range u i v) as [u' [Eu' Lu']]; [lia|].
    exists u'. split; [exact Eu'|lia].
  - lia.
  - rewrite Eu. cbn [bind]. eexists. eexists. split; [reflexivity|].
    split; [reflexivity|]. split; [|reflexivity].
    unfold tables_ready, set_uarg.
    cbn [usp_usteps usp_uarg usp_uker usp_u24c2 usp_uker_great usp_uker_small].
    repeat split; trivial.
Qed.

End Uehling.

(** *** The properties on the small instance *)

(** For [Z = 2] and [R = 2] the potential at the centre is [-3/2], and it is
    not above the potential at [r = 1]. *)
Lemma CoulombSphere_V_floor_witness :
  exists w0 w : Q,
    CoulombSphere_V (CoulombSpherePotential_new (Fin 2) (Fin 2)) (Fin 0) = Ok (Fin w0) /\
    CoulombSphere_V (CoulombSpherePotential_new (Fin 2) (Fin 2)) (Fin 1) = Ok (Fin w) /\
    (w0 == - (3 # 2) * 2 / 2)%Q /\ (w0 <= w)%Q.
Proof.
  apply (CoulombSphere_V_floor 2 2 1); unfold Qlt, Qle; simpl; lia.
Defined.

(** The constructor with [-1], [0] and [3] steps, for a nucleus of radius
    [1]. *)
Lemma UehlingSpherePotential_new_outcomes_witness :
  @UehlingSpherePotential_new Toy.libm (Fin 1) (Fin 1) (-1) = Throw length_error /\
  @UehlingSpherePotential_new Toy.libm (Fin 1) (Fin 1) 0 = Undefined /\
  exists p,
    @UehlingSpherePotential_new Toy.libm (Fin 1) (Fin 1) 3 = Ok p /\
    tables_ready p /\ usp_uint0 p <> None.
Proof.
  split; [|split].
  - apply (proj1 (@UehlingSpherePotential_new_outcomes Toy.libm (Fin 1) (Fin 1) (-1))).
    lia.
  - apply (proj1 (proj2 (@UehlingSpherePotential_new_outcomes Toy.libm (Fin 1) (Fin 1) 0)));
      reflexivity.
  - destruct (proj2 (proj2 (@UehlingSpherePotential_new_outcomes Toy.libm
                              (Fin 1) (Fin 1) 3)) ltac:(lia))
      as (p & Hp & Hr & _ & _ & Hu).
    exists p. split; [exact Hp|]. split; [exact Hr|]. apply Hu. reflexivity.
Defined.

(** The potential built with three steps, evaluated between the two
    cut-offs, where the integral is computed. *)
Lemma Uehling_V_defined_witness :
  exists p v p',
    @UehlingSpherePotential_new Toy.libm (Fin 1) (Fin 1) 3 = Ok p /\
    (Fin 0.01 >? Fin 20 * Fin 0.5 * Physical.alpha) = false /\
    (Fin 0.01 <? Fin 1 * Fin 0.5 * usp_du p * Physical.alpha) = false /\
    @Uehling_V Toy.libm (Fin 1) (Fin 20) p (Fin 0.01) = Ok (v, p') /\
    tables_ready p'.
Proof.
  let v := eval vm_compute in (@UehlingSpherePotential_new Toy.libm (Fin 1) (Fin 1) 3) in
  match v with
  | Ok ?p =>
      destruct (@Uehling_V_defined Toy.libm (Fin 1) (Fin 20) p (Fin 0.01))
        as (v' & p' & HV & _ & Hr & _);
      [repeat split; vm_compute; try reflexivity; discriminate
      |left; discriminate
      |exists p, v', p';
       split; [vm_compute; reflexivity|];
       split; [vm_compute; reflexivity|];
       split; [vm_compute; reflexivity|];
       split; [exact HV|exact Hr]]
  end.
Defined.

End PotentialExtra.

(* ================================================================== *)
(** ** The potential of a background charge *)

Module BackgroundFacts.

Import DoubleFacts OutcomeFacts DoubleExtra VecFacts Atom Background.
Local Open Scope string_scope.
Local Open Scope double_scope.

Section WithCollaborators.

Context {libm : Libm} {col : Collaborators}.

(** The radius that [logGrid] stores at position [j]. *)
Lemma logGrid_radius (rc dx : double) (i0 i1 : Z) (loggrid grid : list double)
  (j : Z) (g : double) :
  logGrid rc dx i0 i1 = Ok (loggrid, grid) ->
  Vec.get grid j = Ok g ->
  g = rc * m_exp (of_int (i0 + j) * dx) /\ (i0 <= i0 + j <= i1)%Z.
Proof.
  unfold logGrid. destruct (_ || _ || (i1 <? i0)%Z) eqn:G; [discriminate|].
  intros H. apply Ok_inj in H. injection H as _ <-.
  intros H. apply get_map in H. destruct H as [i [H ->]].
  apply get_map in H. destruct H as [j' [H ->]].
  apply get_indices in H. destruct H as [-> H]. split; [reflexivity|lia].
Qed.

(** X4. After construction, [Vgrid] at the last grid index [i1] is
    [-Q / (rc exp(i1 dx))], the expression that [Vgrid] returns beyond the
    grid: [initPotential] shifts the tabulated potential by [V0] so that it
    joins the Coulomb tail at the outer edge.  The tabulated value at [i1]
    is taken to be finite. *)
Theorem Vgrid_outer_edge (rho : list double) (rc dx : double) (i0 i1 : Z)
  (p : BkgGridPotential) (v : Q) :
  BkgGridPotential_new rho rc dx i0 i1 = Ok p ->
  Vec.get (bg_Vpot p) (i1 - i0) = Ok (Fin v) ->
  Vgrid p i1 = Ok (- bg_Q p / (rc * m_exp (of_int i1 * dx))).
Proof.
  unfold BkgGridPotential_new, initPotential. intros H Hv.
  apply bind_Ok in H. destruct H as [[lg g] [Hg H]].
  repeat (apply bind_Ok in H; destruct H as [? [? H]]).
  apply Ok_inj in H. subst p. cbn [bg_Vpot bg_Q snd] in *.
  match goal with
  | Hl : Vec.get g (i1 - i0) = Ok ?gl |- _ =>
      destruct (logGrid_radius _ _ _ _ _ _ _ _ Hg Hl) as [Egl Hr]
  end.
  replace (i0 + (i1 - i0))%Z with i1 in * by lia.
  unfold Vgrid. cbn [bg_i0 bg_i1 bg_Vpot bg_V0 bg_Q].
  replace ((i1 >=? i0) && (i1 <=? i1))%Z with true by (symmetry; apply andb_true_iff; lia).
  rewrite Hv. cbn [bind].
  match goal with
  | Hl : Vec.get _ (i1 - i0) = Ok ?vl, Hv : Vec.get _ (i1 - i0) = Ok (Fin v) |- _ =>
      rewrite Hv in Hl; apply Ok_inj in Hl; subst vl
  end.
  rewrite add_sub_cancel. now rewrite Egl.
Qed.

(** X5. When the logarithmic coordinate [log(r / rc) / dx] of [r] is the
    integer [i] of a grid point, [V(r)] is [Vgrid(i)]: at the grid points the
    interpolation returns the tabulated values. *)
Theorem V_at_grid_point (p : BkgGridPotential) (r : double) (i : Z) :
  m_log (r / bg_rc p) / bg_dx p = of_int i ->
  (bg_i0 p <= i <= bg_i1 p)%Z ->
  (-2147483648 <= i <= 2147483647)%Z ->
  V p r = Vgrid p i.
Proof.
  intros Hxi Hi Hint. unfold V, Vgrid. rewrite Hxi.
  replace (of_int i <? of_int (bg_i0 p)) with false.
  2:{ symmetry. apply dlt_false_Fin. rewrite <- Zle_Qle. lia. }
  replace (of_int i >? of_int (bg_i1 p)) with false.
  2:{ symmetry. apply dlt_false_Fin. rewrite <- Zle_Qle. lia. }
  replace ((i >=? bg_i0 p) && (i <=? bg_i1 p))%Z with true
    by (symmetry; apply andb_true_iff; lia).
  unfold of_int, dfloor, dceil. rewrite Qfloor_Z, Qceiling_Z.
  unfold to_int, inject_Z. cbn [Qnum Qden]. rewrite Z.quot_1_r.
  replace ((-2147483648 <=? i) && (i <=? 2147483647))%Z with true
    by (symmetry; apply andb_true_iff; lia).
  cbn [defined bind]. now rewrite Z.eqb_refl.
Qed.

End WithCollaborators.

(** *** The properties on the small instance *)

(** A grid of three points, [i0 = 0] and [i1 = 2], with a unit density. *)
Lemma Vgrid_outer_edge_witness :
  exists p,
    @BkgGridPotential_new Toy.libm Toy.background [Fin 1; Fin 1; Fin 1]
      (Fin 1) (Fin 1) 0 2 = Ok p /\
    @Vgrid Toy.libm p 2 =
    Ok (- bg_Q p / (Fin 1 * @m_exp Toy.libm (of_int 2 * Fin 1))).
Proof.
  let v := eval vm_compute in
    (@BkgGridPotential_new Toy.libm Toy.background [Fin 1; Fin 1; Fin 1]
       (Fin 1) (Fin 1) 0 2) in
  match v with
  | Ok ?p =>
      exists p; split; [vm_compute; reflexivity|];
      apply (@Vgrid_outer_edge Toy.libm Toy.background [Fin 1; Fin 1; Fin 1]
               (Fin 1) (Fin 1) 0 2 p 1%Q); vm_compute; reflexivity
  end.
Defined.

(** On the same grid the radius [r = 1] has the coordinate [0], the first
    grid point. *)
Lemma V_at_grid_point_witness :
  exists p,
    @BkgGridPotential_new Toy.libm Toy.background [Fin 1; Fin 1; Fin 1]
      (Fin 1) (Fin 1) 0 2 = Ok p /\
    @V Toy.libm Toy.background p (Fin 1) = @Vgrid Toy.libm p 0.
Proof.
  let v := eval vm_compute in
    (@BkgGridPotential_new Toy.libm Toy.background [Fin 1; Fin 1; Fin 1]
       (Fin 1) (Fin 1) 0 2) in
  match v with
  | Ok ?p =>
      exists p; split; [vm_compute; reflexivity|];
      apply (@V_at_grid_point Toy.libm Toy.background p (Fin 1) 0);
        [vm_compute; reflexivity|vm_compute; split; discriminate|lia]
  end.
Defined.

End BackgroundFacts.

(* ================================================================== *)
(** ** The atom, continued *)

Module AtomExtra.

Import DoubleFacts OutcomeFacts DoubleExtra VecFacts Atom AtomFacts.
Local Open Scope string_scope.
Local Open Scope double_scope.

Section WithCollaborators.

Context {libm : Libm} {num : Numerics} {ind : Indeterminate}.

(** *** gridLimits *)

(** X6. [gridLimits] throws nothing but its two error codes and its three
    [runtime_error]s.  For a state that is bound and whose centrifugal term
    is not negative, a value of [out_eps] above 1 or below 0 gives the
    [runtime_error] on [out_eps], as the tests expect, and, with a valid
    [out_eps], a value of [in_eps] above 1 or below 0 gives the one on
    [in_eps]. *)
Theorem gridLimits_failures (a : DiracAtom) (E : double) (k : Z) :
  (forall e, gridLimits a E k = Throw e ->
     e = error_code UNBOUND_STATE \/ e = error_code SMALL_GAMMA \/
     e = runtime_error "Invalid value for out_eps in DiracAtom; must be 0 < out_eps < 1" \/
     e = runtime_error "Invalid value for in_eps in DiracAtom; must be 0 < in_eps < 1" \/
     e = runtime_error "Inner grid radius is too small for given atom and state; please decrease in_eps") /\
  ((momentum_term a E <? Fin 0) = false ->
   (centrifugal_term a k <? Fin 0) = false ->
   (out_eps a >? Fin 1) = true \/ (out_eps a <? Fin 0) = true ->
   gridLimits a E k =
   Throw (runtime_error "Invalid value for out_eps in DiracAtom; must be 0 < out_eps < 1")) /\
  ((momentum_term a E <? Fin 0) = false ->
   (centrifugal_term a k <? Fin 0) = false ->
   (out_eps a >? Fin 1) = false -> (out_eps a <? Fin 0) = false ->
   (in_eps a >? Fin 1) = true \/ (in_eps a <? Fin 0) = true ->
   gridLimits a E k =
   Throw (runtime_error "Invalid value for in_eps in DiracAtom; must be 0 < in_eps < 1")).
Proof.
  unfold gridLimits, momentum_term, centrifugal_term. repeat split.
  - intros e.
    destruct (_ <? Fin 0); [intros H; injection H as <-; auto|].
    destruct (_ <? Fin 0); [intros H; injection H as <-; auto|].
    destruct (_ || _); [intros H; injection H as <-; auto|].
    destruct (_ || _); [intros H; injection H as <-; auto 6|].
    destruct (_ >? _); [intros H; injection H as <-; auto 6|].
    intros H. invert_throw H.
  - intros -> -> H.
    replace ((out_eps a >? Fin 1) || (out_eps a <? Fin 0)) with true; [reflexivity|].
    symmetry. apply orb_true_iff. exact H.
  - intros -> -> -> -> H. cbn [orb].
    replace ((in_eps a >? Fin 1) || (in_eps a <? Fin 0)) with true; [reflexivity|].
    symmetry. apply orb_true_iff. exact H.
Qed.

(** *** The states that the search loops build *)

Lemma getV_size (a : DiracAtom) (r : list double) :
  forall V, getV a r = Ok V -> List.length V = List.length r.
Proof.
  induction r as [|x t IH]; simpl; intros V H.
  - apply Ok_inj in H. now subst V.
  - apply bind_Ok in H. destruct H as [v [_ H]].
    apply bind_Ok in H. destruct H as [vt [Ht H]].
    apply Ok_inj in H. subst V. simpl. now rewrite (IH vt Ht).
Qed.

Lemma logGrid_sizes (rc dx : double) (i0 i1 : Z) (loggrid grid : list double) :
  logGrid rc dx i0 i1 = Ok (loggrid, grid) ->
  (i0 <= i1)%Z /\ Vec.size loggrid = (i1 - i0 + 1)%Z /\
  Vec.size grid = (i1 - i0 + 1)%Z.
Proof.
  unfold logGrid. destruct (_ || _ || (i1 <? i0)%Z) eqn:G; [discriminate|].
  apply orb_false_iff in G. destruct G as [_ G]. apply Z.ltb_ge in G.
  intros H. apply Ok_inj in H. injection H as <- <-.
  unfold Vec.size, Vec.indices. rewrite !length_map, length_seq. lia.
Qed.

Lemma DiracState_grid_shape (rc dx : double) (i0 i1 : Z) (s : DiracState) :
  DiracState_grid rc dx i0 i1 = Ok s ->
  logGrid rc dx i0 i1 = Ok (ds_loggrid s, ds_grid s) /\
  ds_grid_indices s = (i0, i1) /\ ds_init s = false.
Proof.
  unfold DiracState_grid, DiracState_N. intros H.
  apply bind_Ok in H. destruct H as [s0 [H0 H]].
  apply bind_Ok in H0. destruct H0 as [z [_ H0]]. apply Ok_inj in H0. subst s0.
  apply bind_Ok in H. destruct H as [[lg g] [Hg H]].
  apply Ok_inj in H. subst s. cbn. auto.
Qed.

Lemma integrateState_frame (a : DiracAtom) (s s' : DiracState) (tp : TurningPoint) :
  integrateState a s = Ok (s', tp) ->
  exists Q P, s' = with_QP s Q P.
Proof.
  unfold integrateState. destruct (_ =? 0)%Z; [discriminate|]. intros H.
  apply bind_Ok in H. destruct H as [g0 [_ H]].
  apply bind_Ok in H. destruct H as [[Q P] [_ H]].
  apply bind_Ok in H. destruct H as [[[Q' P'] tp'] [_ H]].
  apply Ok_inj in H. injection H as <- <-. now exists Q', P'.
Qed.

Lemma continuify_frame (s s' : DiracState) (tp : TurningPoint) :
  continuify s tp = Ok s' -> exists Q P, s' = with_QP s Q P.
Proof.
  unfold continuify. intros H.
  apply bind_Ok in H. destruct H as [P [_ H]].
  apply bind_Ok in H. destruct H as [Q [_ H]].
  apply Ok_inj in H. subst s'. now exists Q, P.
Qed.

(** X7. The state that [convergeNodes] builds and integrates at a trial
    energy [E]: it carries [E] and [k], its grid is the logarithmic grid
    between the limits that [gridLimits] returns for [E] and [k], which has
    [i1 - i0 + 1 >= 1] points, its [V] is the potential of the atom on this
    grid, with as many entries, and its node counts are those of [P] and
    [Q]. *)
Theorem integrateTrial_shape (a : DiracAtom) (E : double) (k : Z)
  (st : DiracState) (tp : TurningPoint) :
  integrateTrial a E k = Ok (st, tp) ->
  exists i0 i1,
    gridLimits a E k = Ok (i0, i1) /\ (i0 <= i1)%Z /\
    ds_grid_indices st = (i0, i1) /\ ds_E st = E /\ ds_k st = k /\
    logGrid (da_rc a) (da_dx a) i0 i1 = Ok (ds_loggrid st, ds_grid st) /\
    Vec.size (ds_grid st) = (i1 - i0 + 1)%Z /\
    getV a (ds_grid st) = Ok (ds_V st) /\
    Vec.size (ds_V st) = (i1 - i0 + 1)%Z /\
    ds_nodes st = countNodes (ds_P st) /\
    ds_nodesQ st = countNodes (ds_Q st).
Proof.
  unfold integrateTrial. intros H.
  apply bind_Ok in H. destruct H as [[i0 i1] [Hl H]].
  apply bind_Ok in H. destruct H as [s0 [Hs H]].
  apply bind_Ok in H. destruct H as [V [HV H]].
  apply bind_Ok in H. destruct H as [[s1 tp1] [Hi H]].
  apply bind_Ok in H. destruct H as [s2 [Hc H]].
  apply Ok_inj in H. injection H as <- <-.
  apply integrateState_frame in Hi. destruct Hi as (Q1 & P1 & ->).
  apply continuify_frame in Hc. destruct Hc as (Q2 & P2 & ->).
  apply DiracState_grid_shape in Hs. destruct Hs as (Hg & Hidx & _).
  cbn in HV.
  destruct (logGrid_sizes _ _ _ _ _ _ Hg) as (Hle & _ & Hsz).
  exists i0, i1. cbn. repeat split; trivial.
  unfold Vec.size in *. now rewrite (getV_size _ _ _ HV).
Qed.

(** *** The bracket of convergeNodes *)

Lemma integrateTrial_energy (a : DiracAtom) (E : double) (k : Z)
  (st : DiracState) (tp : TurningPoint) :
  integrateTrial a E k = Ok (st, tp) -> ds_E st = E.
Proof.
  unfold integrateTrial. intros H.
  apply bind_Ok in H. destruct H as [[i0 i1] [_ H]].
  apply bind_Ok in H. destruct H as [s0 [_ H]].
  apply bind_Ok in H. destruct H as [V [_ H]].
  apply bind_Ok in H. destruct H as [[s1 tp1] [Hi H]].
  apply bind_Ok in H. destruct H as [s2 [Hc H]].
  apply Ok_inj in H. injection H as <- <-.
  apply integrateState_frame in Hi. destruct Hi as (Q1 & P1 & ->).
  apply continuify_frame in Hc. destruct Hc as (Q2 & P2 & ->).
  reflexivity.
Qed.

Lemma bracketed_init (lo hi : Q) (state : DiracState) (tp : TurningPoint) :
  (lo <= hi)%Q -> bracketed lo hi (convergeNodes_init state tp (Fin lo) (Fin hi)).
Proof.
  intros H. unfold bracketed, convergeNodes_init. cbn [nl_minE nl_maxE nl_El nl_Er].
  cbn [dsub dopp dadd]. unfold fin. rewrite ddiv_Fin by (intros X; discriminate X).
  cbn [dopp dadd]. unfold fin.
  do 4 eexists. do 4 (split; [reflexivity|]).
  rewrite !Qred_correct. repeat split; try lra.
  - assert (0 <= (hi + - lo) / 3)%Q by (apply Qle_shift_div_l; lra). lra.
  - assert ((hi + - lo) / 3 <= (hi + - lo) / 2)%Q.
    { unfold Qdiv. 
      assert (0 <= hi + - lo)%Q by lra.
      change (/ 3)%Q with (1 # 3)%Q. change (/ 2)%Q with (1 # 2)%Q. nra. }
    assert ((hi + - lo) / 2 + (hi + - lo) / 2 == hi + - lo)%Q by field.
    lra.
  - assert (0 <= (hi + - lo) / 3)%Q by (apply Qle_shift_div_l; lra). lra.
Qed.

Lemma bracketed_classify (lo hi : Q) (targ_nodes : Z) (s s' : NodesLoop) :
  bracketed lo hi s -> classify targ_nodes s = Ok s' -> bracketed lo hi s'.
Proof.
  intros (a & b & l & r & Ha & Hb & Hl & Hr & H) Hc.
  unfold classify in Hc. rewrite Ha, Hb, Hl, Hr in Hc.
  cbn [dadd] in Hc. unfold fin in Hc.
  rewrite !ddiv_Fin in Hc by (intros X; discriminate X).
  unfold fin in Hc.
  assert (H2 : forall x, (Qred (Qred x / 2) == x * (1 # 2))%Q).
  { intros x. rewrite !Qred_correct. unfold Qdiv. now change (/ 2)%Q with (1 # 2)%Q. }
  destruct ((_ >? 0)%Z && (_ >? 0)%Z);
    [|destruct ((_ <? 0)%Z && (_ <? 0)%Z);
      [|destruct ((_ <? 0)%Z && (_ >? 0)%Z); [|discriminate]]];
    apply Ok_inj in Hc; subst s'; unfold bracketed;
    cbn [nl_minE nl_maxE nl_El nl_Er];
    do 4 eexists; (do 4 (split; [reflexivity|]));
    rewrite ?H2; repeat split; lra.
Qed.

Lemma bracketed_left (lo hi : Q) (a : DiracAtom) (k targ_nodes : Z) (s : NodesLoop) :
  bracketed lo hi s ->
  match left_trial a k targ_nodes s with
  | Ok (Continue s') => bracketed lo hi s'
  | Ok (Return (st, _, mn, mx)) =>
      exists a' b' e, mn = Fin a' /\ mx = Fin b' /\ ds_E st = Fin e /\
        (lo <= a')%Q /\ (a' <= e)%Q /\ (e <= b')%Q /\ (b' <= hi)%Q
  | _ => True
  end.
Proof.
  intros Hs. pose proof Hs as (x & b & l & r & Ha & Hb & Hl & Hr & H).
  unfold left_trial. destruct (_ != _); [|exact Hs].
  destruct (integrateTrial a (nl_El s) k) as [[st tp]| |] eqn:Ht; cbn [bind]; trivial.
  apply integrateTrial_energy in Ht. rename Ht into HE.
  cbn [nl_nl]. destruct (_ =? _)%Z.
  - unfold nodes_result. cbn [nl_state nl_tp nl_minE nl_maxE].
    exists x, b, l. rewrite HE. repeat split; trivial; lra.
  - exists x, b, l, r. cbn [nl_minE nl_maxE nl_El nl_Er]. repeat split; trivial; lra.
Qed.

Lemma bracketed_right (lo hi : Q) (a : DiracAtom) (k targ_nodes : Z) (s : NodesLoop) :
  bracketed lo hi s ->
  match right_trial a k targ_nodes s with
  | Ok (Continue s') => bracketed lo hi s'
  | Ok (Return (st, _, mn, mx)) =>
      exists a' b' e, mn = Fin a' /\ mx = Fin b' /\ ds_E st = Fin e /\
        (lo <= a')%Q /\ (a' <= e)%Q /\ (e <= b')%Q /\ (b' <= hi)%Q
  | _ => True
  end.
Proof.
  intros Hs. pose proof Hs as (x & b & l & r & Ha & Hb & Hl & Hr & H).
  unfold right_trial. destruct (_ != _); [|exact Hs].
  destruct (integrateTrial a (nl_Er s) k) as [[st tp]| |] eqn:Ht; cbn [bind]; trivial.
  apply integrateTrial_energy in Ht. rename Ht into HE.
  cbn [nl_nr]. destruct (_ =? _)%Z.
  - unfold nodes_result. cbn [nl_state nl_tp nl_minE nl_maxE].
    exists x, b, r. rewrite HE. repeat split; trivial; lra.
  - exists x, b, l, r. cbn [nl_minE nl_maxE nl_El nl_Er]. repeat split; trivial; lra.
Qed.

Lemma bracketed_loop (lo hi : Q) (a : DiracAtom) (k targ_nodes : Z) (it : nat) :
  forall (s : NodesLoop) (st : DiracState) (tp : TurningPoint) (mn mx : double),
    bracketed lo hi s ->
    convergeNodes_loop a k targ_nodes it s = Ok (st, tp, mn, mx) ->
    exists a' b' e, mn = Fin a' /\ mx = Fin b' /\ ds_E st = Fin e /\
      (lo <= a')%Q /\ (a' <= e)%Q /\ (e <= b')%Q /\ (b' <= hi)%Q.
Proof.
  induction it as [|it IH]; intros s st tp mn mx Hs; [discriminate|].
  cbn [convergeNodes_loop]. unfold convergeNodes_body.
  pose proof (bracketed_left lo hi a k targ_nodes s Hs) as HL.
  destruct (left_trial a k targ_nodes s) as [[s1|[[[st1 tp1] mn1] mx1]]| |];
    cbn [bind]; try discriminate.
  2:{ intros E. apply Ok_inj in E. injection E as <- <- <- <-. exact HL. }
  pose proof (bracketed_right lo hi a k targ_nodes s1 HL) as HR.
  destruct (right_trial a k targ_nodes s1) as [[s2|[[[st2 tp2] mn2] mx2]]| |];
    cbn [bind]; try discriminate.
  2:{ intros E. apply Ok_inj in E. injection E as <- <- <- <-. exact HR. }
  destruct (classify targ_nodes s2) as [s3| |] eqn:Hc; cbn [bind]; try discriminate.
  apply IH. exact (bracketed_classify lo hi targ_nodes s2 s3 HR Hc).
Qed.

(** X8. Called with finite bounds [lo <= hi], [convergeNodes] returns a
    bracket [[minE, maxE]] that lies inside [[lo, hi]], and the energy of the
    state it returns lies inside this bracket. *)
Theorem convergeNodes_bracket (a : DiracAtom) (state : DiracState)
  (tp : TurningPoint) (targ_nodes : Z) (lo hi : Q)
  (st : DiracState) (tp' : TurningPoint) (mn mx : double) :
  (lo <= hi)%Q ->
  convergeNodes a state tp targ_nodes (Fin lo) (Fin hi) = Ok (st, tp', mn, mx) ->
  exists a' b' e : Q,
    mn = Fin a' /\ mx = Fin b' /\ ds_E st = Fin e /\
    (lo <= a')%Q /\ (a' <= e)%Q /\ (e <= b')%Q /\ (b' <= hi)%Q.
Proof.
  intros H. unfold convergeNodes. apply bracketed_loop.
  now apply bracketed_init.
Qed.

(** *** convergeState *)

Lemma stateIntegrate_frame (a : DiracAtom) (s s' : DiracState) (tp : TurningPoint)
  (dE : double) :
  stateIntegrate a s = Ok (s', tp, dE) -> exists Q P, s' = with_QP s Q P.
Proof.
  unfold stateIntegrate. intros H.
  apply bind_Ok in H. destruct H as [g0 [_ H]].
  apply bind_Ok in H. destruct H as [[Q P] [_ H]].
  apply bind_Ok in H. destruct H as [[[Q' P'] tp'] [_ H]].
  apply bind_Ok in H. destruct H as [dE' [_ H]].
  apply Ok_inj in H. injection H as <- <- <-. now exists Q', P'.
Qed.

(** The body of the loop of [convergeState], in terms of [stateTrial]. *)
Lemma convergeState_body_trial (a : DiracAtom) (k : Z) (E : double) :
  convergeState_body a k E =
  ('(state, tp, dE) <- stateTrial a k E ;;
   let N := Vec.size (ds_grid state) in
   if negb (disnan dE) && (dabs dE <? Etol a) then Ok (Return (state, tp, N))
   else
     let E' := E - limited_step a E dE * Edamp a in
     if disnan E' then Throw (literal "NAN ENERGY")
     else Ok (Continue (E', (state, tp, N)))).
Proof.
  unfold convergeState_body, stateTrial.
  destruct (gridLimits a E k) as [[i0 i1]| |]; cbn [bind]; try reflexivity.
  destruct (DiracState_grid (da_rc a) (da_dx a) i0 i1) as [s0| |]; cbn [bind];
    try reflexivity.
  destruct (getV a _) as [V| |]; cbn [bind]; try reflexivity.
  destruct (stateIntegrate a _) as [[[s1 tp] dE]| |] eqn:Hi; cbn [bind];
    try reflexivity.
  apply stateIntegrate_grid in Hi. now rewrite Hi.
Qed.

Lemma stateTrial_shape (a : DiracAtom) (k : Z) (E : double)
  (st : DiracState) (tp : TurningPoint) (dE : double) :
  stateTrial a k E = Ok (st, tp, dE) ->
  ds_E st = E /\ ds_k st = k /\ ds_init st = false.
Proof.
  unfold stateTrial. intros H.
  apply bind_Ok in H. destruct H as [[i0 i1] [_ H]].
  apply bind_Ok in H. destruct H as [s0 [Hs H]].
  apply bind_Ok in H. destruct H as [V [_ H]].
  apply stateIntegrate_frame in H. destruct H as (Q & P & ->).
  apply DiracState_grid_shape in Hs. destruct Hs as (_ & _ & Hi).
  cbn. auto.
Qed.

(** When the energy correction of the first iteration is NaN,
    [convergeState] throws the string ["NAN ENERGY"]. *)
Lemma convergeState_nan (a : DiracAtom) (E0 : double) (k : Z)
  (st : DiracState) (tp : TurningPoint) :
  (0 < maxit a)%Z ->
  stateTrial a k E0 = Ok (st, tp, NaN) ->
  convergeState a E0 k = Throw (literal "NAN ENERGY").
Proof.
  intros Hm Ht. unfold convergeState.
  destruct (Z.to_nat (maxit a)) as [|it] eqn:Hit; [lia|].
  cbn [convergeState_loop]. rewrite convergeState_body_trial, Ht.
  cbn [bind disnan negb andb]. unfold limited_step.
  cbn [ddiv dabs dgt dlt]. 
  replace (NaN / E0) with NaN by (now destruct E0).
  replace (NaN >? max_dE_ratio a) with false
    by (unfold dgt; now destruct (max_dE_ratio a)).
  replace (NaN * Edamp a) with NaN by reflexivity.
  now rewrite dsub_NaN_r.
Qed.

(** What the iterations of [convergeState] leave behind was integrated at
    its own energy. *)
Lemma convergeState_loop_trial (a : DiracAtom) (k : Z) (it : nat) :
  forall (E : double) (last : option Converged) (st : DiracState)
    (tp : TurningPoint) (N : Z),
    (forall st' tp' N', last = Some (st', tp', N') ->
       exists dE, stateTrial a k (ds_E st') = Ok (st', tp', dE)) ->
    convergeState_loop a k it E last = Ok (Some (st, tp, N)) ->
    exists dE, stateTrial a k (ds_E st) = Ok (st, tp, dE).
Proof.
  induction it as [|it IH]; intros E last st tp N Hl; cbn [convergeState_loop].
  - intros H. apply Ok_inj in H. now apply (Hl st tp N).
  - rewrite convergeState_body_trial.
    destruct (stateTrial a k E) as [[[s1 tp1] dE]| |] eqn:Ht; cbn [bind];
      try discriminate.
    pose proof (stateTrial_shape _ _ _ _ _ _ Ht) as (HE & _).
    destruct (negb (disnan dE) && _); cbn [bind].
    + intros H. apply Ok_inj in H. injection H as <- <- <-.
      exists dE. now rewrite HE.
    + destruct (disnan _); cbn [bind]; [discriminate|].
      apply IH. intros st' tp' N' H. injection H as <- <- <-.
      exists dE. now rewrite HE.
Qed.

Lemma convergeState_normalise_frame (c : Converged) (state : DiracState) :
  convergeState_normalise c = Ok state ->
  exists Q P, state = with_QP (fst (fst c)) Q P.
Proof.
  destruct c as [[s tp] N]. unfold convergeState_normalise. intros H.
  repeat (apply bind_Ok in H; destruct H as [? [_ H]]).
  apply Ok_inj in H. subst state. cbn. eexists. eexists. reflexivity.
Qed.

(** X9. A state that [convergeState] returns: at least one iteration was
    run ([maxit > 0]), the state is marked initialised, carries the requested
    [k], and its node counts are those of its [P] and [Q].  Its energy is the
    trial energy of the last iteration, at which it was integrated (the last
    correction is not applied to it), and its grid and potential are those of
    that trial. *)
Theorem convergeState_result (a : DiracAtom) (E0 : double) (k : Z)
  (st : DiracState) :
  convergeState a E0 k = Ok st ->
  (0 < maxit a)%Z /\
  ds_init st = true /\ ds_k st = k /\
  ds_nodes st = countNodes (ds_P st) /\
  ds_nodesQ st = countNodes (ds_Q st) /\
  exists st0 tp dE,
    stateTrial a k (ds_E st) = Ok (st0, tp, dE) /\
    ds_grid st = ds_grid st0 /\ ds_loggrid st = ds_loggrid st0 /\
    ds_V st = ds_V st0 /\ ds_grid_indices st = ds_grid_indices st0.
Proof.
  unfold convergeState. intros H.
  apply bind_Ok in H. destruct H as [last [Hl H]].
  apply bind_Ok in H. destruct H as [[[s1 tp] N] [Hd H]].
  destruct last as [c|]; [|discriminate]. apply Ok_inj in Hd. subst c.
  split.
  { destruct (Z.to_nat (maxit a)) eqn:Hm; [discriminate|lia]. }
  apply convergeState_loop_trial in Hl; [|discriminate].
  destruct Hl as [dE Ht].
  pose proof (stateTrial_shape _ _ _ _ _ _ Ht) as (HE & Hk & _).
  unfold convergeState_finish in H.
  apply bind_Ok in H. destruct H as [s2 [Hn H]].
  apply convergeState_normalise_frame in Hn. destruct Hn as (Q & P & ->).
  unfold convergeState_check in H.
  apply bind_Ok in H. destruct H as [g0 [_ H]].
  destruct (negb _); [discriminate|]. apply Ok_inj in H. subst st.
  cbn in *. repeat split; trivial.
  exists s1, tp, dE. auto.
Qed.

(** *** The cache: calcState, getState and calcAllStates *)

Lemma DiracState_copy_idem (st : DiracState) :
  DiracState_copy (DiracState_copy st) = DiracState_copy st.
Proof. reflexivity. Qed.

Lemma subscript_lookup (x : key) (m : cache) :
  lookup x (snd (subscript x m)) = Some (fst (subscript x m)).
Proof.
  unfold subscript. destruct (lookup x m) as [v|] eqn:E; cbn [fst snd].
  - exact E.
  - apply lookup_insert.
Qed.

Lemma subscript_frame (x y : key) (m : cache) :
  key_eqb y x = false -> lookup y (snd (subscript x m)) = lookup y m.
Proof.
  intros H. unfold subscript. destruct (lookup x m); cbn [snd]; [reflexivity|].
  now apply lookup_insert_other.
Qed.

Lemma assign_frame (x y : key) (v : DiracState) (m : cache) :
  key_eqb y x = false -> lookup y (assign x v m) = lookup y m.
Proof.
  intros H. unfold assign. rewrite lookup_insert_other by exact H.
  now apply subscript_frame.
Qed.

(** The state that the loop of [calcState] ends with, when the target is
    first found at attempt [j]. *)
Lemma calcState_loop_finds (a : DiracAtom) (n l : Z) (s : bool) (k : Z)
  (st : DiracState) (j : nat) :
  forall (it : nat) (E0 : double) (state : DiracState) (states : cache),
    (j < it)%nat ->
    (forall i, (i < j)%nat ->
       exists st', convergeState a (Nat.iter i (next_guess a) E0) k = Ok st' /\
                   getn st' <> n) ->
    convergeState a (Nat.iter j (next_guess a) E0) k = Ok st ->
    getn st = n ->
    exists states', calcState_loop a n l s k it E0 state states = (Ok st, states').
Proof.
  induction j as [|j IH]; intros it E0 state states Hj Hoff Hon Hn.
  - destruct it as [|it]; [lia|]. cbn [calcState_loop].
    change (Nat.iter 0 (next_guess a) E0) with E0 in Hon.
    rewrite Hon. replace (getn st =? n)%Z with true by (symmetry; now apply Z.eqb_eq).
    now exists states.
  - destruct it as [|it]; [lia|].
    destruct (Hoff 0%nat) as [st0 [H0 Hn0]]; [lia|].
    change (Nat.iter 0 (next_guess a) E0) with E0 in H0.
    rewrite (calcState_loop_off_target _ _ _ _ _ _ _ _ st0 _ H0 Hn0).
    apply IH; [lia| |now rewrite <- Nat.iter_succ_r|exact Hn].
    intros i Hi. rewrite <- Nat.iter_succ_r. apply Hoff. lia.
Qed.

(** X10. When the cache holds no initialised state for [(n, l, s)], the
    attempts [0 .. j-1] of [calcState] converge to states with another
    principal quantum number and attempt [j], within the budget, converges to
    a state with the principal quantum number [n], [getState] returns a copy
    of this state, whose principal quantum number is [n], and the state is
    cached under [(n, l, s)]. *)
Theorem getState_finds_target (a : DiracAtom) (states : cache)
  (n l : Z) (s : bool) (E0 : double) (j : nat) (st : DiracState) :
  let k := if s && (l >? 0)%Z then l else (- l - 1)%Z in
  ds_init (fst (subscript (n, l, s) states)) = false ->
  startingEnergy a n k = Ok E0 ->
  (j < Z.to_nat (maxit a))%nat ->
  (forall i, (i < j)%nat ->
     exists st', convergeState a (Nat.iter i (next_guess a) E0) k = Ok st' /\
                 getn st' <> n) ->
  convergeState a (Nat.iter j (next_guess a) E0) k = Ok st ->
  getn st = n ->
  exists states',
    getState a states n l s = (Ok (DiracState_copy st), states') /\
    lookup (n, l, s) states' = Some st /\
    getn (DiracState_copy st) = n.
Proof.
  intros k Hinit HE Hj Hoff Hon Hn.
  rewrite getState_after_calcState. unfold calcState. fold k. cbn [negb].
  destruct (subscript (n, l, s) states) as [e m1] eqn:Hsub. cbn [fst] in Hinit.
  rewrite Hinit, HE.
  destruct (calcState_loop_finds a n l s k st j (Z.to_nat (maxit a)) E0
              DiracState_default m1 Hj Hoff Hon Hn) as [m2 Hloop].
  rewrite Hloop.
  rewrite (subscript_found _ _ _ (lookup_assign (n, l, s) st m2)). cbn [fst snd].
  eexists. split; [reflexivity|]. split; [apply lookup_assign|].
  now rewrite getn_copy.
Qed.

Lemma convergeState_marks_init (a : DiracAtom) (E0 : double) (k : Z)
  (st : DiracState) :
  convergeState a E0 k = Ok st -> ds_init st = true.
Proof.
  unfold convergeState, convergeState_finish, convergeState_check. intros H.
  apply bind_Ok in H. destruct H as [last [_ H]].
  apply bind_Ok in H. destruct H as [c [_ H]].
  apply bind_Ok in H. destruct H as [s2 [_ H]].
  apply bind_Ok in H. destruct H as [g0 [_ H]].
  destruct (negb _); [discriminate|]. apply Ok_inj in H. now subst st.
Qed.

(** After at least one attempt the loop of [calcState] ends with a state
    that [convergeState] returned. *)
Lemma calcState_loop_init (a : DiracAtom) (n l : Z) (s : bool) (k : Z) (it : nat) :
  forall (E0 : double) (state st : DiracState) (states states' : cache),
    ds_init state = true \/ (0 < it)%nat ->
    calcState_loop a n l s k it E0 state states = (Ok st, states') ->
    ds_init st = true.
Proof.
  induction it as [|it IH]; intros E0 state st states states' H; cbn [calcState_loop].
  - intros E. injection E as E _. subst st.
    destruct H as [H|H]; [exact H|lia].
  - destruct (convergeState a E0 k) as [st1| |] eqn:Hc; try discriminate.
    apply convergeState_marks_init in Hc. rename Hc into Hi.
    destruct (getn st1 =? n)%Z.
    + intros E. injection E as E _. now subst st.
    + apply IH. now left.
Qed.

Lemma calcState_hit (a : DiracAtom) (states : cache) (n l : Z) (s : bool)
  (e : DiracState) :
  lookup (n, l, s) states = Some e -> ds_init e = true ->
  calcState a states n l s false = (Ok tt, states).
Proof.
  intros Hl Hi. unfold calcState. cbn [negb].
  rewrite (subscript_found _ _ _ Hl). now rewrite Hi.
Qed.

Lemma calcState_entry (a : DiracAtom) (states states' : cache) (n l : Z) (s : bool) :
  (0 < maxit a)%Z ->
  calcState a states n l s false = (Ok tt, states') ->
  exists e, lookup (n, l, s) states' = Some e /\ ds_init e = true.
Proof.
  intros Hm. unfold calcState. cbn [negb].
  pose proof (subscript_lookup (n, l, s) states) as Hs.
  destruct (subscript (n, l, s) states) as [e m1]. cbn [fst snd] in Hs.
  destruct (ds_init e) eqn:Hi.
  - intros E. injection E as <-. now exists e.
  - destruct (startingEnergy a n _) as [E0| |]; try discriminate.
    destruct (calcState_loop a n l s _ _ E0 DiracState_default m1)
      as [[st| |] m2] eqn:Hloop; try discriminate.
    intros E. injection E as <-. exists st. split; [apply lookup_assign|].
    apply calcState_loop_init in Hloop; [exact Hloop|]. right. lia.
Qed.

(** X11. With a budget of at least one iteration, calling [getState] again
    for a state that it has returned gives the same state and leaves the
    cache unchanged: [calcState] finds the initialised entry and computes
    nothing. *)
Theorem getState_memoized (a : DiracAtom) (states states' : cache)
  (n l : Z) (s : bool) (st : DiracState) :
  (0 < maxit a)%Z ->
  getState a states n l s = (Ok st, states') ->
  getState a states' n l s = (Ok st, states') /\
  calcState a states' n l s false = (Ok tt, states').
Proof.
  intros Hm. rewrite !getState_after_calcState.
  destruct (calcState a states n l s false) as [[[]| |] m1] eqn:Hc; try discriminate.
  destruct (calcState_entry _ _ _ _ _ _ Hm Hc) as [e [Hl Hi]].
  rewrite (subscript_found _ _ _ Hl). cbn [fst snd].
  intros E. injection E as <- <-.
  rewrite (calcState_hit a m1 n l s e Hl Hi).
  rewrite (subscript_found _ _ _ Hl). cbn [fst snd]. split; reflexivity.
Qed.

Lemma key_other (n n' l l' : Z) (s s' : bool) :
  (l', s') <> (l, s) -> key_eqb (n', l', s') (n, l, s) = false.
Proof.
  intros H. unfold key_eqb.
  destruct (Z.eqb_spec l' l) as [->|]; [|now rewrite andb_false_r].
  destruct (Bool.eqb_spec s' s) as [->|]; [congruence|now rewrite andb_false_r].
Qed.

Lemma calcState_loop_frame (a : DiracAtom) (n l : Z) (s : bool) (k : Z) (it : nat)
  (y : key) :
  (forall n', key_eqb y (n', l, s) = false) ->
  forall (E0 : double) (state : DiracState) (states : cache),
    lookup y (snd (calcState_loop a n l s k it E0 state states)) = lookup y states.
Proof.
  intros Hy. induction it as [|it IH]; intros E0 state states; cbn [calcState_loop].
  - reflexivity.
  - destruct (convergeState a E0 k) as [st| |]; try reflexivity.
    destruct (getn st =? n)%Z; [reflexivity|].
    rewrite IH. now apply assign_frame.
Qed.

Lemma calcState_compute_frame (a : DiracAtom) (n l : Z) (s : bool) (k : Z)
  (y : key) (m0 : cache) :
  (forall n', key_eqb y (n', l, s) = false) ->
  lookup y
    (snd (match startingEnergy a n k with
          | Ok E0 =>
              match calcState_loop a n l s k (Z.to_nat (maxit a)) E0
                      DiracState_default m0 with
              | (Ok state, states) => (Ok tt, assign (n, l, s) state states)
              | (Throw e, states) => (Throw e, states)
              | (Undefined, states) => (Undefined, states)
              end
          | Throw e => (Throw e, m0)
          | Undefined => (Undefined, m0)
          end)) = lookup y m0.
Proof.
  intros Hy.
  destruct (startingEnergy a n k) as [E0| |]; try reflexivity.
  pose proof (calcState_loop_frame a n l s k (Z.to_nat (maxit a)) y Hy E0
                DiracState_default m0) as HL.
  destruct (calcState_loop _ _ _ _ _ _ _ _ _) as [[st| |] m2]; cbn [snd] in *;
    try exact HL.
  rewrite assign_frame by apply Hy. exact HL.
Qed.

Lemma calcState_frame (a : DiracAtom) (states : cache) (n l : Z) (s force : bool)
  (y : key) :
  (forall n', key_eqb y (n', l, s) = false) ->
  lookup y (snd (calcState a states n l s force)) = lookup y states.
Proof.
  intros Hy. unfold calcState. destruct force; cbn [negb]; cbv iota beta.
  - now apply calcState_compute_frame.
  - pose proof (subscript_frame (n, l, s) y states (Hy n)) as Hs.
    destruct (subscript (n, l, s) states) as [e m1]. cbn [snd] in Hs.
    destruct (ds_init e); [exact Hs|].
    rewrite calcState_compute_frame by exact Hy. exact Hs.
Qed.

(** X12. However it ends, [getState(n, l, s)] leaves the cache entries of
    every other pair [(l', s')] as they were: all it writes is stored under
    keys [(n', l, s)]. *)
Theorem getState_frame (a : DiracAtom) (states : cache) (n l : Z) (s : bool)
  (n' l' : Z) (s' : bool) :
  (l', s') <> (l, s) ->
  lookup (n', l', s') (snd (getState a states n l s)) = lookup (n', l', s') states.
Proof.
  intros H.
  assert (Hy : forall n0, key_eqb (n', l', s') (n0, l, s) = false)
    by (intros n0; now apply key_other).
  rewrite getState_after_calcState.
  pose proof (calcState_frame a states n l s false _ Hy) as Hc.
  destruct (calcState a states n l s false) as [[[]| |] m1]; cbn [snd] in *;
    try exact Hc.
  rewrite subscript_frame by apply Hy. exact Hc.
Qed.

(** X13. The state that [getState] returns is the copy of the entry that
    the cache holds under [(n, l, s)] after the call: it is marked
    initialised, and the copy constructor leaves its [V] empty and does not
    copy [nodesQ]. *)
Theorem getState_returns_cached_copy (a : DiracAtom) (states states' : cache)
  (n l : Z) (s : bool) (st : DiracState) :
  getState a states n l s = (Ok st, states') ->
  exists e,
    lookup (n, l, s) states' = Some e /\ st = DiracState_copy e /\
    ds_init st = true /\ ds_V st = [] /\ ds_nodesQ st = nodesQ0.
Proof.
  rewrite getState_after_calcState.
  destruct (calcState a states n l s false) as [[[]| |] m1]; try discriminate.
  intros E. injection E as <- <-.
  exists (fst (subscript (n, l, s) m1)). split; [apply subscript_lookup|].
  repeat split.
Qed.


Lemma getState_computed (a : DiracAtom) (states : cache) (n l : Z) (s : bool) :
  ds_init (fst (subscript (n, l, s) states)) = false ->
  fst (getState a states n l s) =
  match startingEnergy a n (if s && (l >? 0)%Z then l else (- l - 1)%Z) with
  | Ok E0 =>
      match fst (calcState_loop a n l s (if s && (l >? 0)%Z then l else (- l - 1)%Z)
                   (Z.to_nat (maxit a)) E0 DiracState_default
                   (snd (subscript (n, l, s) states))) with
      | Ok st => Ok (DiracState_copy st)
      | Throw e => Throw e
      | Undefined => Undefined
      end
  | Throw e => Throw e
  | Undefined => Undefined
  end.
Proof.
  intros Hi. rewrite getState_after_calcState. unfold calcState. cbn [negb].
  destruct (subscript (n, l, s) states) as [e m1]. cbn [fst snd] in *.
  rewrite Hi.
  destruct (startingEnergy a n _) as [E0| |]; try reflexivity.
  destruct (calcState_loop _ _ _ _ _ _ _ _ _) as [[st| |] m2]; try reflexivity.
  cbn [fst]. rewrite (subscript_found _ _ _ (lookup_assign (n, l, s) st m2)).
  reflexivity.
Qed.


(** *** calcAllStates *)

Lemma lookup_insert_keeps (x y : key) (v : DiracState) (m : cache) :
  lookup y m <> None -> lookup y (insert x v m) <> None.
Proof.
  intros H. destruct (key_eqb y x) eqn:E.
  - apply key_eqb_eq in E. subst y. now rewrite lookup_insert.
  - now rewrite lookup_insert_other.
Qed.

Lemma subscript_keeps (x y : key) (m : cache) :
  lookup y m <> None -> lookup y (snd (subscript x m)) <> None.
Proof.
  intros H. unfold subscript. destruct (lookup x m); cbn [snd]; [exact H|].
  now apply lookup_insert_keeps.
Qed.

Lemma assign_keeps (x y : key) (v : DiracState) (m : cache) :
  lookup y m <> None -> lookup y (assign x v m) <> None.
Proof.
  intros H. unfold assign. now apply lookup_insert_keeps, subscript_keeps.
Qed.

Lemma calcState_loop_keeps (a : DiracAtom) (n l : Z) (s : bool) (k : Z) (it : nat)
  (y : key) :
  forall (E0 : double) (state : DiracState) (states : cache),
    lookup y states <> None ->
    lookup y (snd (calcState_loop a n l s k it E0 state states)) <> None.
Proof.
  induction it as [|it IH]; intros E0 state states H; cbn [calcState_loop].
  - exact H.
  - destruct (convergeState a E0 k) as [st| |]; try exact H.
    destruct (getn st =? n)%Z; [exact H|].
    apply IH. now apply assign_keeps.
Qed.

(** [calcState] removes no key, and leaves the key it was called for when it
    returns. *)
Lemma calcState_keeps (a : DiracAtom) (states : cache) (n l : Z) (s force : bool)
  (y : key) :
  lookup y states <> None ->
  lookup y (snd (calcState a states n l s force)) <> None.
Proof.
  intros Hy. unfold calcState.
  assert (H0 : forall m0, lookup y m0 <> None ->
    lookup y
      (snd (match startingEnergy a n (if s && (l >? 0)%Z then l else (- l - 1)%Z) with
            | Ok E0 =>
                match calcState_loop a n l s (if s && (l >? 0)%Z then l else (- l - 1)%Z)
                        (Z.to_nat (maxit a)) E0 DiracState_default m0 with
                | (Ok state, states) => (Ok tt, assign (n, l, s) state states)
                | (Throw e, states) => (Throw e, states)
                | (Undefined, states) => (Undefined, states)
                end
            | Throw e => (Throw e, m0)
            | Undefined => (Undefined, m0)
            end)) <> None).
  { intros m0 Hm.
    destruct (startingEnergy a n _) as [E0| |]; try exact Hm.
    pose proof (calcState_loop_keeps a n l s
                  (if s && (l >? 0)%Z then l else (- l - 1)%Z)
                  (Z.to_nat (maxit a)) y E0 DiracState_default m0 Hm) as HL.
    destruct (calcState_loop _ _ _ _ _ _ _ _ _) as [[st| |] m2]; cbn [snd] in *;
      try exact HL.
    now apply assign_keeps. }
  destruct force; cbn [negb]; cbv iota beta.
  - now apply H0.
  - pose proof (subscript_keeps (n, l, s) y states Hy) as Hs.
    destruct (subscript (n, l, s) states) as [e m1]. cbn [snd] in Hs.
    destruct (ds_init e); [exact Hs|]. now apply H0.
Qed.

Lemma calcState_Ok_present (a : DiracAtom) (states states' : cache) (n l : Z)
  (s force : bool) :
  calcState a states n l s force = (Ok tt, states') ->
  lookup (n, l, s) states' <> None.
Proof.
  unfold calcState. destruct force; cbn [negb]; cbv iota beta.
  - destruct (startingEnergy a n _) as [E0| |]; try discriminate.
    destruct (calcState_loop _ _ _ _ _ _ _ _ _) as [[st| |] m2]; try discriminate.
    intros E. injection E as <-. now rewrite lookup_assign.
  - pose proof (subscript_lookup (n, l, s) states) as Hs.
    destruct (subscript (n, l, s) states) as [e m1]. cbn [fst snd] in Hs.
    destruct (ds_init e).
    + intros E. injection E as <-. now rewrite Hs.
    + destruct (startingEnergy a n _) as [E0| |]; try discriminate.
      destruct (calcState_loop _ _ _ _ _ _ _ _ _) as [[st| |] m2]; try discriminate.
      intros E. injection E as <-. now rewrite lookup_assign.
Qed.

Lemma calcAll_fold (a : DiracAtom) (force : bool) (L : list key) :
  forall (acc : outcome unit * cache) (states' : cache),
    fold_left
      (fun acc '(n, l, s) =>
         match acc with
         | (Ok _, states) => calcState a states n l s force
         | _ => acc
         end) L acc = (Ok tt, states') ->
    (exists u, fst acc = Ok u) /\
    (forall y, lookup y (snd acc) <> None -> lookup y states' <> None) /\
    (forall y, In y L -> lookup y states' <> None).
Proof.
  induction L as [|[[n l] s] L IH]; intros acc states'; cbn [fold_left].
  - intros ->. cbn. split; [now exists tt|]. split; [auto|]. intros y [].
  - intros H. destruct (IH _ _ H) as ([u Hu] & Hk & Hin).
    destruct acc as [[[]| |] m]; cbn [fst snd] in *.
    + split; [now exists tt|].
      destruct (calcState a m n l s force) as [r m1] eqn:Hc. cbn [fst snd] in *.
      subst r. destruct u.
      split.
      * intros y Hy. apply Hk.
        pose proof (calcState_keeps a m n l s force y Hy) as Hq.
        now rewrite Hc in Hq.
      * intros y [<-|Hy]; [|now apply Hin].
        apply Hk. exact (calcState_Ok_present _ _ _ _ _ _ _ Hc).
    + discriminate.
    + discriminate.
Qed.

(** X15. When [calcAllStates(max_n, force)] returns, the cache holds an
    entry for every [(n, l, s)] with [1 <= n <= max_n] and [0 <= l < n], and
    every key that was in the cache before is still there. *)
Theorem calcAllStates_covers (a : DiracAtom) (states states' : cache)
  (max_n : Z) (force : bool) :
  calcAllStates a states max_n force = (Ok tt, states') ->
  (forall n l s, (1 <= n <= max_n)%Z -> (0 <= l < n)%Z ->
     exists e, lookup (n, l, s) states' = Some e) /\
  (forall y, lookup y states <> None -> lookup y states' <> None).
Proof.
  unfold calcAllStates. intros H. apply calcAll_fold in H.
  destruct H as (_ & Hk & Hin). cbn [snd] in Hk. split; [|exact Hk].
  intros n l s Hn Hl.
  destruct (lookup (n, l, s) states') as [e|] eqn:E; [now exists e|].
  exfalso. apply (Hin (n, l, s)); [|exact E].
  apply in_flat_map. exists n. split.
  - apply in_map_iff. exists (n - 1)%Z. split; [lia|].
    unfold Vec.indices. apply in_map_iff. exists (Z.to_nat (n - 1)).
    split; [lia|]. apply in_seq. lia.
  - apply in_flat_map. exists l. split.
    + unfold Vec.indices. apply in_map_iff. exists (Z.to_nat l).
      split; [lia|]. apply in_seq. lia.
    + destruct s; cbn; auto.
Qed.

(** *** energyLimits *)

Lemma energyLimits_scan_none (n l : Z) (s : bool) (m : cache) :
  (forall n' st, ~ In ((n', l, s), st) m) ->
  forall minE maxE, energyLimits_scan n l s m minE maxE = (minE, maxE).
Proof.
  induction m as [|[[[itn itl] its] st] t IH]; intros H minE maxE;
    cbn [energyLimits_scan]; [reflexivity|].
  destruct ((itl =? l)%Z && Bool.eqb its s) eqn:E.
  - apply andb_true_iff in E. destruct E as [El Es].
    apply Z.eqb_eq in El. apply Bool.eqb_prop in Es. subst itl its.
    exfalso. apply (H itn st). now left.
  - apply IH. intros n' st' Hin. apply (H n' st'). now right.
Qed.

(** X16. Whatever the cache holds, the limits that [energyLimits] returns
    stay inside the physical ones: the lower limit is not below
    [max(V(0) + restE, -restE)] and the upper limit is not above [restE].
    When no cached state has the [(l, s)] of [k], the limits are exactly
    these. *)
Theorem energyLimits_physical_bounds (a : DiracAtom) (states : cache)
  (nodes k : Z) (V0 minE maxE : double) :
  da_V a (Fin 0) = Ok V0 ->
  energyLimits a states nodes k = Ok (minE, maxE) ->
  dlt minE (dmax (V0 + da_restE a) (- da_restE a)) = false /\
  dlt (da_restE a) maxE = false /\
  ((forall n' st,
      ~ In ((n', fst (qnumDirac2Schro k), snd (qnumDirac2Schro k)), st) states) ->
   minE = dmax (V0 + da_restE a) (- da_restE a) /\ maxE = da_restE a).
Proof.
  intros HV. unfold energyLimits.
  destruct (qnumDirac2Schro k) as [l s]. rewrite HV. cbn [bind fst snd].
  intros H. apply Ok_inj in H.
  pose proof (energyLimits_scan_keeps (qnumNodes2Principal nodes l) l s
                (dmax (V0 + da_restE a) (- da_restE a)) states
                (dmax (V0 + da_restE a) (- da_restE a)) (da_restE a)) as [H1 _].
  pose proof (energyLimits_scan_keeps (qnumNodes2Principal nodes l) l s
                (da_restE a) states
                (dmax (V0 + da_restE a) (- da_restE a)) (da_restE a)) as [_ H2].
  rewrite H in H1, H2. cbn [fst snd] in H1, H2.
  split; [apply H1, dlt_irrefl|]. split; [apply H2, dlt_irrefl|].
  intros Hnone. rewrite (energyLimits_scan_none _ _ _ _ Hnone) in H.
  now injection H as <- <-.
Qed.

(** X17. An atom constructed with [A = -1], whatever the radius model, has
    the rest energy [m c^2] and a point nucleus, whose potential at the
    centre is [-inf]; on an empty cache its energy limits are
    [(-restE, restE)], as the tests expect. *)
Theorem energyLimits_point_atom (z m : Q) (radius_model : NuclearRadiusModel)
  (fc dx : double) (settings : Settings) (a : DiracAtom) (nodes k : Z) :
  DiracAtom_new (Fin z) (Fin m) (Fin (-1)) radius_model fc dx settings = Ok a ->
  da_restE a = Fin m * dpowi Physical.c 2 /\
  da_V a (Fin 0) = Ok NInf /\
  energyLimits a [] nodes k = Ok (- da_restE a, da_restE a).
Proof.
  unfold DiracAtom_new.
  destruct (Fin z <=? Fin 0) eqn:Hz; [discriminate|].
  destruct (Fin m <=? Fin 0) eqn:Hm; [discriminate|].
  destruct (_ || _); [discriminate|].
  change (Fin (-1) >? Fin 0) with false. change (deqb (Fin (-1)) (Fin (-1))) with true.
  cbv iota. intros H. apply Ok_inj in H. subst a.
  assert (Hz' : (0 < z)%Q).
  { apply Qnot_le_lt. intros X. apply dle_Fin in X. congruence. }
  assert (HV : Potential.CoulombSphere_V
                 (Potential.CoulombSpherePotential_new (Fin z) (Fin (-1))) (Fin 0) =
               Ok NInf).
  { unfold Potential.CoulombSphere_V, Potential.CoulombSpherePotential_new.
    cbn [Potential.csp_R Potential.csp_Z].
    change (Fin 0 <? Fin 0) with false. change (Fin 0 <? Fin (-1)) with false.
    cbv iota. f_equal. cbn [dopp]. unfold fin. cbn [ddiv].
    change (Qeq_bool 0 0) with true. cbv iota.
    rewrite Qsgn_Qred, Qsgn_opp.
    destruct (Qsgn_spec z) as [X|X|X]; try reflexivity; lra. }
  unfold energyLimits. cbn [da_restE da_V].
  destruct (qnumDirac2Schro k) as [l s]. rewrite HV. cbn [bind energyLimits_scan].
  split; [reflexivity|]. split; [reflexivity|].
  remember (Fin m * dpowi Physical.c 2) as restE eqn:Er.
  assert (Hfin : exists q, restE = Fin q).
  { subst restE. cbn [dpowi dmul]. unfold fin. eexists. reflexivity. }
  destruct Hfin as [q ->]. reflexivity.
Qed.

(** *** continuify and normalize *)

Lemma update_range_nth (from N : Z) (f : double -> double) (v v' : list double) :
  update_range from N f v = Ok v' ->
  forall (i : nat) (x : double),
    nth_error v i = Some x ->
    nth_error v' i =
    Some (if ((from <=? Z.of_nat i) && (Z.of_nat i <? N))%Z then f x else x).
Proof.
  unfold update_range. destruct (_ && _)%bool; [discriminate|].
  intros H i x Hx. apply Ok_inj in H. subst v'.
  rewrite nth_error_map. unfold Vec.indices.
  now rewrite (nth_error_combine_seq v 0 i x Hx).
Qed.

(** X18. [continuify] changes [P] and [Q] only: both keep their length, the
    samples before the turning point are kept, and the samples of [P] from
    the turning point on are multiplied by [Pi / Pe] (those of [Q] as far as
    [P] reaches).  When the sample of [P] at the turning point is the outer
    amplitude [Pe], finite and not zero, it becomes the inner amplitude
    [Pi]: the wavefunction is continuous there. *)
Theorem continuify_scales_outer_part (s s' : DiracState) (tp : TurningPoint) :
  continuify s tp = Ok s' ->
  let f := tp_Pi tp / tp_Pe tp in
  s' = with_QP s (ds_Q s') (ds_P s') /\
  List.length (ds_P s') = List.length (ds_P s) /\
  List.length (ds_Q s') = List.length (ds_Q s) /\
  (forall (i : nat) (x : double),
     nth_error (ds_P s) i = Some x ->
     nth_error (ds_P s') i = Some (if (tp_i tp <=? Z.of_nat i)%Z then x * f else x)) /\
  (forall (i : nat) (x : double),
     nth_error (ds_Q s) i = Some x ->
     nth_error (ds_Q s') i =
     Some (if ((tp_i tp <=? Z.of_nat i) && (Z.of_nat i <? Vec.size (ds_P s)))%Z
           then x * f else x)) /\
  (forall pe pi : Q,
     tp_Pe tp = Fin pe -> tp_Pi tp = Fin pi -> ~ (pe == 0)%Q ->
     Vec.get (ds_P s) (tp_i tp) = Ok (Fin pe) ->
     exists q, Vec.get (ds_P s') (tp_i tp) = Ok (Fin q) /\ (q == pi)%Q).
Proof.
  unfold continuify. intros H.
  apply bind_Ok in H. destruct H as [P [HP H]].
  apply bind_Ok in H. destruct H as [Q [HQ H]].
  apply Ok_inj in H. subst s'. cbn [ds_P ds_Q with_QP].
  split; [reflexivity|].
  split; [exact (update_range_Ok _ _ _ _ _ HP)|].
  split; [exact (update_range_Ok _ _ _ _ _ HQ)|].
  assert (HPn : forall (i : nat) (x : double),
            nth_error (ds_P s) i = Some x ->
            nth_error P i =
            Some (if (tp_i tp <=? Z.of_nat i)%Z then x * (tp_Pi tp / tp_Pe tp) else x)).
  { intros i x Hx. rewrite (update_range_nth _ _ _ _ _ HP i x Hx).
    assert (Hi : (i < List.length (ds_P s))%nat)
      by (apply nth_error_Some; congruence).
    replace (Z.of_nat i <? Vec.size (ds_P s))%Z with true
      by (symmetry; apply Z.ltb_lt; unfold Vec.size; lia).
    now rewrite andb_true_r. }
  split; [exact HPn|].
  split; [exact (update_range_nth _ _ _ _ _ HQ)|].
  intros pe pi Hpe Hpi Hnz Hg.
  apply get_nth_error in Hg. destruct Hg as [H0 Hg].
  apply HPn in Hg. rewrite Z2Nat.id in Hg by exact H0. rewrite Z.leb_refl in Hg.
  rewrite Hpe, Hpi in Hg. cbn [ddiv] in Hg. rewrite (Qeq_bool_false pe Hnz) in Hg.
  unfold fin in Hg. cbn [dmul] in Hg. unfold fin in Hg.
  eexists. split; [apply get_nth_error; split; [exact H0|exact Hg]|].
  rewrite !Qred_correct. now field.
Qed.

(** X19. The code at the end of [convergeState] that makes the state
    continuous and normalises it does what [continuify] followed by
    [normalize] do, when the grid has as many points as [P] has samples. *)
Theorem convergeState_normalise_composes (s : DiracState) (tp : TurningPoint) :
  convergeState_normalise (s, tp, Vec.size (ds_P s)) =
  (s1 <- continuify s tp ;; normalize s1).
Proof.
  unfold convergeState_normalise, continuify, normalize.
  destruct (update_range (tp_i tp) _ _ (ds_P s)) as [P| |] eqn:HP; cbn [bind];
    try reflexivity.
  destruct (update_range (tp_i tp) _ _ (ds_Q s)) as [Q| |] eqn:HQ; cbn [bind];
    try reflexivity.
  cbn [ds_P ds_Q with_QP].
  apply update_range_Ok in HP. unfold Vec.size. now rewrite HP.
Qed.

(** *** initState and stateCountNodes *)

(** X20. When the integrator returns as many samples as the grid has
    points, the block that [convergeNodes] runs at a trial energy is
    [initState], then [getV] on the grid of the state, then
    [stateCountNodes]. *)
Theorem integrateTrial_by_parts (a : DiracAtom) (E : double) (k : Z) :
  (forall Q P grid V E k mu dx Q' P' tp,
     shootDiracLog Q P grid V E k mu dx = Ok (Q', P', tp) ->
     List.length P' = List.length grid) ->
  integrateTrial a E k =
  (state <- initState a E k ;;
   V <- getV a (ds_grid state) ;;
   stateCountNodes a (with_V state V)).
Proof.
  intros Hsize. unfold integrateTrial, initState.
  destruct (gridLimits a E k) as [[i0 i1]| |]; cbn [bind]; try reflexivity.
  destruct (DiracState_grid (da_rc a) (da_dx a) i0 i1) as [s0| |] eqn:Hs;
    cbn [bind]; try reflexivity.
  apply DiracState_grid_shape in Hs. destruct Hs as (Hg & _).
  apply logGrid_sizes in Hg. destruct Hg as (Hle & _ & Hsz).
  destruct (getV a _) as [V| |]; cbn [bind]; try reflexivity.
  unfold integrateState, stateCountNodes, continuify, findNodes.
  cbn [ds_grid ds_Q ds_P ds_V ds_E ds_k with_V with_E with_k with_QP] in *.
  replace (Vec.size (ds_grid s0) =? 0)%Z with false by (symmetry; apply Z.eqb_neq; lia).
  destruct (Vec.get (ds_grid s0) 0) as [g0| |]; cbn [bind]; try reflexivity.
  destruct (boundaryDiracCoulomb _ _ _ _ _ _ _ _) as [[Q P]| |]; cbn [bind];
    try reflexivity.
  destruct (shootDiracLog _ _ _ _ _ _ _ _) as [[[Q' P'] tp]| |] eqn:Hshoot;
    cbn [bind]; try reflexivity.
  apply Hsize in Hshoot.
  cbn [ds_grid ds_Q ds_P ds_V ds_E ds_k with_V with_E with_k with_QP].
  unfold Vec.size. rewrite Hshoot.
  destruct (update_range _ _ _ P') as [P2| |]; cbn [bind]; try reflexivity.
  destruct (update_range _ _ _ Q') as [Q2| |]; cbn [bind]; reflexivity.
Qed.

(** *** The starting energy and the [force] flag of calcState *)

Lemma above_floor (v r : double) : ((v + r + Fin 0.1 - r) <? v) = false.
Proof.
  destruct v as [x| | |], r as [y| | |]; try reflexivity.
  cbn [dadd dsub dopp]. unfold fin. cbn [dadd]. unfold fin.
  apply dlt_false_Fin. rewrite !Qred_correct. 
  assert (0 <= 0.1)%Q by (unfold Qle; cbn; lia). lra.
Qed.

(** X21. For a nucleus of positive radius the starting energy of
    [calcState], measured from the rest energy, is not below the potential at
    the centre. *)
Theorem startingEnergy_above_floor (a : DiracAtom) (n k : Z) (E : double) :
  (da_R a >? Fin 0) = true ->
  startingEnergy a n k = Ok E ->
  exists V0, da_V a (Fin 0) = Ok V0 /\ (E - da_restE a <? V0) = false.
Proof.
  intros HR. unfold startingEnergy. rewrite HR.
  destruct (da_V a (Fin 0)) as [V0| |]; cbn [bind]; try discriminate.
  destruct (_ <? V0) eqn:Hlt; intros H; apply Ok_inj in H; subst E; exists V0;
    (split; [reflexivity|]).
  - apply above_floor.
  - exact Hlt.
Qed.


(** *** What calcState saves on its way *)

(** The cache that the loop of [calcState] ends with, when the target is
    first found at attempt [j + 1]: it holds the state of attempt [j]. *)
Lemma calcState_loop_saves (a : DiracAtom) (n l : Z) (s : bool) (k : Z)
  (st' st : DiracState) (j : nat) :
  forall (it : nat) (E0 : double) (state : DiracState) (states : cache),
    (S j < it)%nat ->
    (forall i, (i < j)%nat ->
       exists st0, convergeState a (Nat.iter i (next_guess a) E0) k = Ok st0 /\
                   getn st0 <> n) ->
    convergeState a (Nat.iter j (next_guess a) E0) k = Ok st' ->
    getn st' <> n ->
    convergeState a (Nat.iter (S j) (next_guess a) E0) k = Ok st ->
    getn st = n ->
    exists states',
      calcState_loop a n l s k it E0 state states = (Ok st, states') /\
      lookup (getn st', l, s) states' = Some st'.
Proof.
  induction j as [|j IH]; intros it E0 state states Hj Hoff Hlast Hn' Hon Hn.
  - destruct it as [|[|it]]; try lia.
    change (Nat.iter 0 (next_guess a) E0) with E0 in Hlast.
    change (Nat.iter 1 (next_guess a) E0) with (next_guess a E0) in Hon.
    rewrite (calcState_loop_off_target _ _ _ _ _ _ _ _ st' _ Hlast Hn').
    cbn [calcState_loop]. rewrite Hon.
    replace (getn st =? n)%Z with true by (symmetry; now apply Z.eqb_eq).
    eexists. split; [reflexivity|apply lookup_assign].
  - destruct it as [|it]; [lia|].
    destruct (Hoff 0%nat) as [st0 [H0 Hn0]]; [lia|].
    change (Nat.iter 0 (next_guess a) E0) with E0 in H0.
    rewrite (calcState_loop_off_target _ _ _ _ _ _ _ _ st0 _ H0 Hn0).
    apply IH; [lia| |now rewrite <- Nat.iter_succ_r|exact Hn'
              |now rewrite <- Nat.iter_succ_r|exact Hn].
    intros i Hi. rewrite <- Nat.iter_succ_r. apply Hoff. lia.
Qed.

(** X25. The states that [calcState] computes on its way are saved for
    later calls: when attempt [j] converges to a state with another
    principal quantum number [n'] and attempt [j + 1] finds the state asked
    for, the cache holds the former under [(n', l, s)] after [getState]
    returns, and a later [getState(n', l, s)] returns its copy without
    computing anything. *)
Theorem getState_saves_off_target (a : DiracAtom) (states : cache)
  (n l : Z) (s : bool) (E0 : double) (j : nat) (st' st : DiracState) :
  let k := if s && (l >? 0)%Z then l else (- l - 1)%Z in
  ds_init (fst (subscript (n, l, s) states)) = false ->
  startingEnergy a n k = Ok E0 ->
  (S j < Z.to_nat (maxit a))%nat ->
  (forall i, (i < j)%nat ->
     exists st0, convergeState a (Nat.iter i (next_guess a) E0) k = Ok st0 /\
                 getn st0 <> n) ->
  convergeState a (Nat.iter j (next_guess a) E0) k = Ok st' ->
  getn st' <> n ->
  convergeState a (Nat.iter (S j) (next_guess a) E0) k = Ok st ->
  getn st = n ->
  exists states',
    getState a states n l s = (Ok (DiracState_copy st), states') /\
    lookup (getn st', l, s) states' = Some st' /\
    getState a states' (getn st') l s = (Ok (DiracState_copy st'), states').
Proof.
  intros k Hinit HE Hj Hoff Hlast Hn' Hon Hn.
  rewrite getState_after_calcState. unfold calcState. fold k. cbn [negb].
  destruct (subscript (n, l, s) states) as [e m1] eqn:Hsub. cbn [fst] in Hinit.
  rewrite Hinit, HE.
  destruct (calcState_loop_saves a n l s k st' st j (Z.to_nat (maxit a)) E0
              DiracState_default m1 Hj Hoff Hlast Hn' Hon Hn) as [m2 [Hloop Hsaved]].
  rewrite Hloop.
  rewrite (subscript_found _ _ _ (lookup_assign (n, l, s) st m2)). cbn [fst snd].
  assert (Hl : lookup (getn st', l, s) (assign (n, l, s) st m2) = Some st').
  { rewrite assign_frame; [exact Hsaved|].
    unfold key_eqb. destruct (Z.eqb_spec (getn st') n); [contradiction|reflexivity]. }
  eexists. split; [reflexivity|]. split; [exact Hl|].
  rewrite getState_after_calcState.
  rewrite (calcState_hit a _ (getn st') l s st' Hl
             (convergeState_marks_init _ _ _ _ Hlast)).
  now rewrite (subscript_found _ _ _ Hl).
Qed.

(** *** getV on the sphere Coulomb potential *)

(** X26. On a constructed atom, whose potential is the sphere Coulomb
    potential, [getV] returns one value for each radius when no radius is
    negative, and throws the [invalid_argument] of the potential as soon as
    one radius is negative. *)
Theorem getV_negative_radius (Zn m A : double) (radius_model : NuclearRadiusModel)
  (fc dx : double) (settings : Settings) (a : DiracAtom) (r : list double) :
  DiracAtom_new Zn m A radius_model fc dx settings = Ok a ->
  (Forall (fun x => dlt x (Fin 0) = false) r ->
   exists v, getV a r = Ok v /\ List.length v = List.length r) /\
  (Exists (fun x => dlt x (Fin 0) = true) r ->
   getV a r =
   Throw (invalid_argument "Negative radius not allowed for CoulombPotential")).
Proof.
  unfold DiracAtom_new.
  destruct (Zn <=? Fin 0); [discriminate|].
  destruct (m <=? Fin 0); [discriminate|].
  destruct (_ || _); [discriminate|].
  intros H. apply Ok_inj in H.
  assert (HV : forall x,
            da_V a x =
            Potential.CoulombSphere_V
              (Potential.CoulombSpherePotential_new Zn (da_R a)) x)
    by (intros x; now subst a).
  clear H.
  assert (Hok : forall x, dlt x (Fin 0) = false -> exists v, da_V a x = Ok v).
  { intros x Hx. rewrite HV. unfold Potential.CoulombSphere_V. rewrite Hx.
    destruct (x <? Potential.csp_R _); eexists; reflexivity. }
  assert (Hneg : forall x, dlt x (Fin 0) = true ->
            da_V a x =
            Throw (invalid_argument "Negative radius not allowed for CoulombPotential")).
  { intros x Hx. rewrite HV. unfold Potential.CoulombSphere_V. now rewrite Hx. }
  split.
  - induction 1 as [|x t Hx _ IH]; cbn [getV].
    + now exists [].
    + destruct (Hok x Hx) as [v Hv]. destruct IH as [vt [Ht Hlen]].
      rewrite Hv, Ht. cbn [bind]. eexists. split; [reflexivity|].
      cbn [List.length]. now rewrite Hlen.
  - induction r as [|x t IH]; intros He; [inversion He|].
    cbn [getV].
    destruct (dlt x (Fin 0)) eqn:Hx.
    + now rewrite (Hneg x Hx).
    + destruct (Hok x Hx) as [v Hv]. rewrite Hv. cbn [bind].
      inversion He as [? ? Hh|? ? Ht]; subst; [congruence|].
      now rewrite (IH Ht).
Qed.

(** *** The two integrations with an energy correction *)

(** X27. [stateIntegrate] and the three-argument [integrateState] do the
    same on a state whose grid is not empty; on an empty grid the latter
    throws its [runtime_error], and the former, which has no such check,
    reads [grid[0]] out of range. *)
Theorem stateIntegrate_integrateState (a : DiracAtom) (state : DiracState) :
  (ds_grid state <> [] ->
   stateIntegrate a state = integrateState_dE a state) /\
  (ds_grid state = [] ->
   integrateState_dE a state =
     Throw (runtime_error "Can not integrate state with zero-sized grid") /\
   stateIntegrate a state = Undefined).
Proof.
  unfold stateIntegrate, integrateState_dE, integrateState. split.
  - intros Hne.
    replace (Vec.size (ds_grid state) =? 0)%Z with false.
    2:{ symmetry. apply Z.eqb_neq. unfold Vec.size.
        destruct (ds_grid state); [contradiction|cbn [List.length]; lia]. }
    destruct (Vec.get (ds_grid state) 0) as [g0| |]; cbn [bind]; try reflexivity.
    destruct (boundaryDiracCoulomb _ _ _ _ _ _ _ _) as [[Q P]| |]; cbn [bind];
      try reflexivity.
    destruct (shootDiracLog _ _ _ _ _ _ _ _) as [[[Q' P'] tp]| |]; cbn [bind];
      reflexivity.
  - intros ->. split; reflexivity.
Qed.

End WithCollaborators.

(** *** The properties on the small instance *)

(** At twice the rest energy [gridLimits] throws; with [out_eps = 2], as in
    the tests, and with [in_eps = 2] it throws its [runtime_error]s. *)
Lemma gridLimits_failures_witness :
  let a := Toy.the_atom Toy.converging (Fin 1) 2 in
  @gridLimits Toy.libm a (Fin 2 * da_restE a) (-1) = Throw (error_code UNBOUND_STATE) /\
  @gridLimits Toy.libm (Toy.with_eps a (Fin 1e-5) (Fin 2)) Toy.E_start (-1) =
    Throw (runtime_error "Invalid value for out_eps in DiracAtom; must be 0 < out_eps < 1") /\
  @gridLimits Toy.libm (Toy.with_eps a (Fin 2) (Fin 1e-5)) Toy.E_start (-1) =
    Throw (runtime_error "Invalid value for in_eps in DiracAtom; must be 0 < in_eps < 1").
Proof.
  intros a. split; [|split].
  - destruct (proj1 (@gridLimits_failures Toy.libm a (Fin 2 * da_restE a) (-1))
                (error_code UNBOUND_STATE) ltac:(vm_compute; reflexivity))
      as [H|[H|[H|[H|H]]]]; try discriminate H.
    vm_compute. reflexivity.
  - apply (proj1 (proj2 (@gridLimits_failures Toy.libm
                           (Toy.with_eps a (Fin 1e-5) (Fin 2)) Toy.E_start (-1))));
      [vm_compute; reflexivity|vm_compute; reflexivity|left; vm_compute; reflexivity].
  - apply (proj2 (proj2 (@gridLimits_failures Toy.libm
                           (Toy.with_eps a (Fin 2) (Fin 1e-5)) Toy.E_start (-1))));
      [vm_compute; reflexivity|vm_compute; reflexivity|vm_compute; reflexivity
      |vm_compute; reflexivity|left; vm_compute; reflexivity].
Defined.

(** The trial state at half a unit below the rest energy. *)
Lemma integrateTrial_shape_witness :
  let a := Toy.the_atom Toy.converging (Fin 1) 2 in
  exists st tp,
    @integrateTrial Toy.libm Toy.converging Toy.indeterminate a Toy.E_start (-1) =
      Ok (st, tp) /\
    ds_E st = Toy.E_start /\ ds_k st = (-1)%Z /\
    Vec.size (ds_V st) = Vec.size (ds_grid st) /\
    ds_nodes st = countNodes (ds_P st).
Proof.
  intros a.
  let v := eval vm_compute in
    (@integrateTrial Toy.libm Toy.converging Toy.indeterminate a Toy.E_start (-1)) in
  match v with
  | Ok (?st, ?tp) =>
      exists st, tp;
      assert (Hc : @integrateTrial Toy.libm Toy.converging Toy.indeterminate a
                     Toy.E_start (-1) = Ok (st, tp)) by (vm_compute; reflexivity);
      destruct (@integrateTrial_shape Toy.libm Toy.converging Toy.indeterminate
                  a Toy.E_start (-1) st tp Hc)
        as (i0 & i1 & _ & _ & _ & HE & Hk & _ & Hg & _ & HV & Hn & _);
      split; [exact Hc|]; split; [exact HE|]; split; [exact Hk|];
      split; [rewrite HV, Hg; reflexivity|exact Hn]
  end.
Defined.

(** With a node-less state at every energy and a target of no node,
    [convergeNodes] returns from its first trial, inside the bracket
    [[c^2 - 1, c^2]]. *)
Lemma convergeNodes_bracket_witness :
  let a := Toy.the_atom Toy.converging (Fin 1) 2 in
  let hi := (137.035999139 * 137.035999139)%Q in
  let lo := (hi - 1)%Q in
  exists st tp mn mx,
    @convergeNodes Toy.libm Toy.converging Toy.indeterminate a Toy.start Toy.tp0 0
      (Fin lo) (Fin hi) = Ok (st, tp, mn, mx) /\
    exists a' b' e : Q,
      mn = Fin a' /\ mx = Fin b' /\ ds_E st = Fin e /\
      (lo <= a')%Q /\ (a' <= e)%Q /\ (e <= b')%Q /\ (b' <= hi)%Q.
Proof.
  intros a hi lo.
  let v := eval vm_compute in
    (@convergeNodes Toy.libm Toy.converging Toy.indeterminate a Toy.start Toy.tp0 0
       (Fin lo) (Fin hi)) in
  match v with
  | Ok (?st, ?tp, ?mn, ?mx) =>
      exists st, tp, mn, mx;
      assert (Hc : @convergeNodes Toy.libm Toy.converging Toy.indeterminate a
                     Toy.start Toy.tp0 0 (Fin lo) (Fin hi) = Ok (st, tp, mn, mx))
        by (vm_compute; reflexivity);
      split; [exact Hc|];
      apply (@convergeNodes_bracket Toy.libm Toy.converging Toy.indeterminate
               a Toy.start Toy.tp0 0 lo hi st tp mn mx);
        [vm_compute; discriminate|exact Hc]
  end.
Defined.

(** A state converged in the first iteration, at the starting energy. *)
Lemma convergeState_result_witness :
  let a := Toy.the_atom Toy.converging (Fin 1) 2 in
  exists st,
    @convergeState Toy.libm Toy.converging Toy.indeterminate a Toy.E_start (-1) =
      Ok st /\
    ds_init st = true /\ ds_k st = (-1)%Z /\ ds_E st = Toy.E_start.
Proof.
  intros a.
  let v := eval vm_compute in
    (@convergeState Toy.libm Toy.converging Toy.indeterminate a Toy.E_start (-1)) in
  match v with
  | Ok ?st =>
      exists st;
      assert (Hc : @convergeState Toy.libm Toy.converging Toy.indeterminate a
                     Toy.E_start (-1) = Ok st) by (vm_compute; reflexivity);
      destruct (@convergeState_result Toy.libm Toy.converging Toy.indeterminate
                  a Toy.E_start (-1) st Hc) as (_ & Hi & Hk & _);
      split; [exact Hc|]; split; [exact Hi|]; split; [exact Hk|];
      vm_compute; reflexivity
  end.
Defined.

(** Asked for the state [(2, 0, false)], the first attempt of [calcState]
    finds a node-less state at the hydrogenic energy and the second finds the
    state with one node at the lower energy: [getState] returns it. *)
Lemma getState_finds_target_witness :
  let a := Toy.the_atom (Toy.one_node_below Toy.E_start) (Fin 1) 2 in
  exists st states',
    @getState Toy.libm (Toy.one_node_below Toy.E_start) Toy.indeterminate a [] 2 0 false =
      (Ok (@DiracState_copy Toy.indeterminate st), states') /\
    lookup (2, 0, false)%Z states' = Some st /\
    getn (@DiracState_copy Toy.indeterminate st) = 2%Z.
Proof.
  intros a.
  let v := eval vm_compute in
    (@startingEnergy (Toy.one_node_below Toy.E_start) a 2 (-1)) in
  match v with
  | Ok ?E0 =>
      let w := eval vm_compute in
        (@convergeState Toy.libm (Toy.one_node_below Toy.E_start) Toy.indeterminate a
           (@next_guess Toy.indeterminate a E0) (-1)) in
      match w with
      | Ok ?st =>
          exists st;
          apply (@getState_finds_target Toy.libm (Toy.one_node_below Toy.E_start)
                   Toy.indeterminate a [] 2 0 false E0 1 st)
      end
  end.
  - reflexivity.
  - vm_compute. reflexivity.
  - change (Z.to_nat (maxit a)) with 2%nat. lia.
  - intros [|i] Hi; [|lia].
    eexists. split; [vm_compute; reflexivity|vm_compute; discriminate].
  - vm_compute. reflexivity.
  - vm_compute. reflexivity.
Defined.

(** The second call of [getState] for [(1, 0, false)] returns what the first
    returned, and leaves the cache as it is. *)
Lemma getState_memoized_witness :
  let a := Toy.the_atom Toy.converging (Fin 1) 2 in
  exists st states',
    @getState Toy.libm Toy.converging Toy.indeterminate a [] 1 0 false =
      (Ok st, states') /\
    @getState Toy.libm Toy.converging Toy.indeterminate a states' 1 0 false =
      (Ok st, states').
Proof.
  intros a.
  let v := eval vm_compute in
    (@getState Toy.libm Toy.converging Toy.indeterminate a [] 1 0 false) in
  match v with
  | (Ok ?st, ?m) =>
      exists st, m;
      assert (Hc : @getState Toy.libm Toy.converging Toy.indeterminate a [] 1 0 false =
                   (Ok st, m)) by (vm_compute; reflexivity);
      split; [exact Hc|];
      apply (proj1 (@getState_memoized Toy.libm Toy.converging Toy.indeterminate
                      a [] m 1 0 false st ltac:(reflexivity) Hc))
  end.
Defined.

(** Computing [(1, 0, false)] leaves the entry of [(1, 1, true)] alone. *)
Lemma getState_frame_witness :
  let a := Toy.the_atom Toy.converging (Fin 1) 2 in
  let states := [((1, 1, true)%Z, @DiracState_default Toy.indeterminate)] in
  lookup (1, 1, true)%Z
    (snd (@getState Toy.libm Toy.converging Toy.indeterminate a states 1 0 false)) =
  Some (@DiracState_default Toy.indeterminate).
Proof.
  intros a states.
  rewrite (@getState_frame Toy.libm Toy.converging Toy.indeterminate a states
             1 0 false 1 1 true ltac:(discriminate)).
  reflexivity.
Defined.

(** The state returned for [(1, 0, false)] is the copy of the cached one. *)
Lemma getState_returns_cached_copy_witness :
  let a := Toy.the_atom Toy.converging (Fin 1) 2 in
  exists st states' e,
    @getState Toy.libm Toy.converging Toy.indeterminate a [] 1 0 false =
      (Ok st, states') /\
    lookup (1, 0, false)%Z states' = Some e /\ st = @DiracState_copy Toy.indeterminate e /\
    ds_V st = [].
Proof.
  intros a.
  let v := eval vm_compute in
    (@getState Toy.libm Toy.converging Toy.indeterminate a [] 1 0 false) in
  match v with
  | (Ok ?st, ?m) =>
      assert (Hc : @getState Toy.libm Toy.converging Toy.indeterminate a [] 1 0 false =
                   (Ok st, m)) by (vm_compute; reflexivity);
      destruct (@getState_returns_cached_copy Toy.libm Toy.converging
                  Toy.indeterminate a [] m 1 0 false st Hc)
        as (e & Hl & He & _ & HV & _);
      exists st, m, e; auto
  end.
Defined.


(** [calcAllStates(1)] leaves the two states of the first shell. *)
Lemma calcAllStates_covers_witness :
  let a := Toy.the_atom Toy.converging (Fin 1) 2 in
  exists states',
    @calcAllStates Toy.libm Toy.converging Toy.indeterminate a [] 1 false =
      (Ok tt, states') /\
    (exists e, lookup (1, 0, false)%Z states' = Some e) /\
    (exists e, lookup (1, 0, true)%Z states' = Some e).
Proof.
  intros a.
  let v := eval vm_compute in
    (@calcAllStates Toy.libm Toy.converging Toy.indeterminate a [] 1 false) in
  match v with
  | (Ok tt, ?m) =>
      exists m;
      assert (Hc : @calcAllStates Toy.libm Toy.converging Toy.indeterminate a [] 1 false =
                   (Ok tt, m)) by (vm_compute; reflexivity);
      split; [exact Hc|];
      split;
        apply (proj1 (@calcAllStates_covers Toy.libm Toy.converging Toy.indeterminate
                        a [] m 1 false Hc)); lia
  end.
Defined.

(** With a default state cached under [(1, 0, false)], whose energy is [0],
    the limits for [(1, 0, false)] stay inside [[-restE, restE]]. *)
Lemma energyLimits_physical_bounds_witness :
  let a := Toy.the_atom Toy.converging (Fin 1) 2 in
  let states := [((1, 0, false)%Z, @DiracState_default Toy.indeterminate)] in
  exists minE maxE,
    energyLimits a states 0 (-1) = Ok (minE, maxE) /\
    dlt minE (- da_restE a) = false /\ dlt (da_restE a) maxE = false.
Proof.
  intros a states.
  let v := eval vm_compute in (energyLimits a states 0 (-1)) in
  match v with
  | Ok (?minE, ?maxE) =>
      exists minE, maxE;
      assert (Hc : energyLimits a states 0 (-1) = Ok (minE, maxE))
        by (vm_compute; reflexivity);
      destruct (energyLimits_physical_bounds a states 0 (-1) NInf minE maxE
                  ltac:(vm_compute; reflexivity) Hc) as (H1 & H2 & _);
      split; [exact Hc|]; split; [exact H1|exact H2]
  end.
Defined.

(** The atom of the small instance, freshly constructed. *)
Lemma energyLimits_point_atom_witness :
  exists a,
    Toy.atom Toy.converging (Fin 1) 2 = Ok a /\
    da_V a (Fin 0) = Ok NInf /\
    energyLimits a [] 0 (-1) = Ok (- da_restE a, da_restE a).
Proof.
  let v := eval vm_compute in (Toy.atom Toy.converging (Fin 1) 2) in
  match v with
  | Ok ?a =>
      exists (Toy.the_atom Toy.converging (Fin 1) 2);
      assert (Hc : Toy.atom Toy.converging (Fin 1) 2 =
                   Ok (Toy.the_atom Toy.converging (Fin 1) 2)) by reflexivity;
      destruct (@energyLimits_point_atom Toy.libm Toy.converging 1 1 POINT (Fin 1) (Fin 1)
                  (Toy.settings 2) (Toy.the_atom Toy.converging (Fin 1) 2) 0 (-1) Hc)
        as (_ & HV & HE);
      split; [exact Hc|]; split; [exact HV|exact HE]
  end.
Defined.

(** The three samples [1, 2, 3] with the turning point at the second one:
    the first sample is kept, and the second becomes the inner amplitude
    [4]. *)
Lemma continuify_scales_outer_part_witness :
  exists s' q,
    continuify Toy.three_samples Toy.tp_middle = Ok s' /\
    nth_error (ds_P s') 0 = Some (Fin 1) /\
    Vec.get (ds_P s') 1 = Ok (Fin q) /\ (q == 4)%Q.
Proof.
  let v := eval vm_compute in (continuify Toy.three_samples Toy.tp_middle) in
  match v with
  | Ok ?s' =>
      assert (Hc : continuify Toy.three_samples Toy.tp_middle = Ok s')
        by (vm_compute; reflexivity);
      destruct (continuify_scales_outer_part Toy.three_samples s' Toy.tp_middle Hc)
        as (_ & _ & _ & HP & _ & Hcont);
      destruct (Hcont 2%Q 4%Q eq_refl eq_refl ltac:(discriminate) eq_refl)
        as (q & Hq & Heq);
      exists s', q;
      split; [exact Hc|];
      split; [exact (HP 0%nat (Fin 1) eq_refl)|];
      split; [exact Hq|exact Heq]
  end.
Defined.

Lemma Toy_wave_length (N : nat) :
  forall (sign : double) (nodes : nat), List.length (Toy.wave sign nodes N) = N.
Proof.
  induction N as [|N IH]; intros sign nodes; [reflexivity|].
  cbn [Toy.wave List.length]. f_equal. destruct nodes; apply IH.
Qed.

(** The integrators of the small instance return as many samples as the grid
    has points. *)
Lemma integrateTrial_by_parts_witness :
  let a := Toy.the_atom Toy.converging (Fin 1) 2 in
  @integrateTrial Toy.libm Toy.converging Toy.indeterminate a Toy.E_start (-1) =
  (state <- @initState Toy.libm Toy.indeterminate a Toy.E_start (-1) ;;
   V <- getV a (ds_grid state) ;;
   @stateCountNodes Toy.converging a (with_V state V)).
Proof.
  intros a.
  apply (@integrateTrial_by_parts Toy.libm Toy.converging Toy.indeterminate
           a Toy.E_start (-1)).
  intros Q P grid V E k mu dx Q' P' tp H.
  apply Ok_inj in H. injection H as _ <- _. apply Toy_wave_length.
Defined.

(** For [Z = 10] and a nucleus of radius [1] the hydrogenic energy is below
    the floor of the potential, and the starting energy is raised. *)
Lemma startingEnergy_above_floor_witness :
  let a := Toy.with_radius (Toy.the_atom Toy.converging (Fin 10) 2) (Fin 1) in
  exists E V0,
    @startingEnergy Toy.converging a 1 (-1) = Ok E /\
    da_V a (Fin 0) = Ok V0 /\ (E - da_restE a <? V0) = false /\
    (@hydrogenicDiracEnergy Toy.converging (da_Z a) (da_mu a) 1 (-1) - da_restE a <? V0)
      = true.
Proof.
  intros a.
  let v := eval vm_compute in (@startingEnergy Toy.converging a 1 (-1)) in
  match v with
  | Ok ?E =>
      assert (Hc : @startingEnergy Toy.converging a 1 (-1) = Ok E)
        by (vm_compute; reflexivity);
      destruct (@startingEnergy_above_floor Toy.converging a 1 (-1) E
                  ltac:(vm_compute; reflexivity) Hc) as (V0 & HV & Hlt);
      exists E, V0;
      split; [exact Hc|]; split; [exact HV|]; split; [exact Hlt|]
  end.
  assert (HV' : da_V a (Fin 0) = Ok (Fin (-15))) by (vm_compute; reflexivity).
  rewrite HV' in HV. apply Ok_inj in HV. subst V0. vm_compute. reflexivity.
Defined.


(** Asked for the state [(2, 0, false)], [calcState] first finds the
    node-less state, which it saves under [(1, 0, false)]; the later call for
    [(1, 0, false)] returns it. *)
Lemma getState_saves_off_target_witness :
  let a := Toy.the_atom (Toy.one_node_below Toy.E_start) (Fin 1) 2 in
  exists st' st states',
    @getState Toy.libm (Toy.one_node_below Toy.E_start) Toy.indeterminate a [] 2 0 false =
      (Ok (@DiracState_copy Toy.indeterminate st), states') /\
    getn st' = 1%Z /\
    lookup (1, 0, false)%Z states' = Some st' /\
    @getState Toy.libm (Toy.one_node_below Toy.E_start) Toy.indeterminate a states'
      1 0 false = (Ok (@DiracState_copy Toy.indeterminate st'), states').
Proof.
  intros a.
  let v := eval vm_compute in
    (@startingEnergy (Toy.one_node_below Toy.E_start) a 2 (-1)) in
  match v with
  | Ok ?E0 =>
      let w0 := eval vm_compute in
        (@convergeState Toy.libm (Toy.one_node_below Toy.E_start) Toy.indeterminate a
           E0 (-1)) in
      let w1 := eval vm_compute in
        (@convergeState Toy.libm (Toy.one_node_below Toy.E_start) Toy.indeterminate a
           (@next_guess Toy.indeterminate a E0) (-1)) in
      match w0 with
      | Ok ?st' =>
          match w1 with
          | Ok ?st =>
              destruct (@getState_saves_off_target Toy.libm
                          (Toy.one_node_below Toy.E_start) Toy.indeterminate
                          a [] 2 0 false E0 0 st' st)
                as (m & Hg & Hl & Hg');
              [reflexivity
              |vm_compute; reflexivity
              |change (Z.to_nat (maxit a)) with 2%nat; lia
              |intros i Hi; lia
              |vm_compute; reflexivity
              |vm_compute; discriminate
              |vm_compute; reflexivity
              |vm_compute; reflexivity
              |exists st', st, m;
               split; [exact Hg|];
               split; [vm_compute; reflexivity|];
               split; [exact Hl|exact Hg']]
          end
      end
  end.
Defined.

(** The potential of the atom on the radii [1, 2], and on the radii
    [1, -1]. *)
Lemma getV_negative_radius_witness :
  let a := Toy.the_atom Toy.converging (Fin 1) 2 in
  (exists v, getV a [Fin 1; Fin 2] = Ok v /\ List.length v = 2%nat) /\
  getV a [Fin 1; Fin (-1)] =
    Throw (invalid_argument "Negative radius not allowed for CoulombPotential").
Proof.
  intros a.
  pose proof (@getV_negative_radius Toy.libm Toy.converging (Fin 1) (Fin 1) (Fin (-1))
                POINT (Fin 1) (Fin 1) (Toy.settings 2) a) as H.
  split.
  - apply (proj1 (H [Fin 1; Fin 2] eq_refl)). repeat constructor.
  - apply (proj2 (H [Fin 1; Fin (-1)] eq_refl)).
    apply Exists_cons_tl. apply Exists_cons_hd. reflexivity.
Defined.

(** On the state of three samples the two integrations agree; on a state
    without grid they differ. *)
Lemma stateIntegrate_integrateState_witness :
  let a := Toy.the_atom Toy.converging (Fin 1) 2 in
  @stateIntegrate Toy.converging a Toy.three_samples =
    @integrateState_dE Toy.converging a Toy.three_samples /\
  @integrateState_dE Toy.converging a (@DiracState_default Toy.indeterminate) =
    Throw (runtime_error "Can not integrate state with zero-sized grid") /\
  @stateIntegrate Toy.converging a (@DiracState_default Toy.indeterminate) = Undefined.
Proof.
  intros a. split.
  - apply (proj1 (@stateIntegrate_integrateState Toy.converging a Toy.three_samples)).
    discriminate.
  - apply (proj2 (@stateIntegrate_integrateState Toy.converging a
                    (@DiracState_default Toy.indeterminate))).
    reflexivity.
Defined.

End AtomExtra.

(* ================================================================== *)
(** ** The transitions that main computes *)

Module MainFacts.

Import DoubleFacts OutcomeFacts DoubleExtra VecFacts Atom AtomFacts AtomExtra Main.
Local Open Scope string_scope.
Local Open Scope double_scope.



Section WithCollaborators.

Context {libm : Libm} {num : Numerics} {ind : Indeterminate}.

Lemma getState_propagates (a : DiracAtom) (states : cache) (n l : Z) (s : bool)
  (E0 : double) (e : exn) :
  ds_init (fst (subscript (n, l, s) states)) = false ->
  startingEnergy a n (if s && (l >? 0)%Z then l else (- l - 1)%Z) = Ok E0 ->
  (0 < maxit a)%Z ->
  convergeState a E0 (if s && (l >? 0)%Z then l else (- l - 1)%Z) = Throw e ->
  fst (getState a states n l s) = Throw e.
Proof.
  intros Hi HE Hm Hc. rewrite (getState_computed _ _ _ _ _ Hi), HE.
  destruct (Z.to_nat (maxit a)) as [|it] eqn:Hit; [lia|].
  cbn [calcState_loop]. now rewrite Hc.
Qed.

(** X24. An exception of [convergeState] in the first attempt for the
    first state of a transition reaches the handlers of [main] unchanged.
    When the energy correction is NaN the exception is the string
    ["NAN ENERGY"], which neither handler catches: the program is terminated
    instead of returning [-1].  Every other exception either makes [main]
    return [-1] or is a string as well. *)
Theorem string_errors_escape_main (a : DiracAtom) (states : cache)
  (t : TransLineSpec) (E0 : double) :
  let k := if s1 t && (l1 t >? 0)%Z then l1 t else (- l1 t - 1)%Z in
  ds_init (fst (subscript (n1 t, l1 t, s1 t) states)) = false ->
  startingEnergy a (n1 t) k = Ok E0 ->
  (0 < maxit a)%Z ->
  (forall st tp,
     stateTrial a k E0 = Ok (st, tp, NaN) ->
     convergeState a E0 k = Throw (literal "NAN ENERGY") /\
     fst (getState a states (n1 t) (l1 t) (s1 t)) = Throw (literal "NAN ENERGY") /\
     fst (tryStates a states t) = Uncaught (literal "NAN ENERGY")) /\
  (forall e,
     convergeState a E0 k = Throw e ->
     fst (tryStates a states t) = handlers e /\
     (handlers e = ReturnedMinus1 \/ exists msg, e = literal msg)).
Proof.
  intros k Hi HE Hm. split.
  - intros st tp Ht.
    pose proof (convergeState_nan a E0 k st tp Hm Ht) as Hc.
    pose proof (getState_propagates a states _ _ _ E0 _ Hi HE Hm Hc) as Hg.
    split; [exact Hc|]. split; [exact Hg|].
    unfold tryStates.
    destruct (getState a states (n1 t) (l1 t) (s1 t)) as [[ds| |] m];
      cbn [fst] in Hg; try discriminate.
    injection Hg as ->. reflexivity.
  - intros e Hc.
    pose proof (getState_propagates a states _ _ _ E0 _ Hi HE Hm Hc) as Hg.
    split.
    + unfold tryStates.
      destruct (getState a states (n1 t) (l1 t) (s1 t)) as [[ds| |] m];
        cbn [fst] in Hg; try discriminate.
      injection Hg as ->. reflexivity.
    + destruct e; cbn; eauto.
Qed.

End WithCollaborators.

(** *** The properties on the small instance *)


(** With integrators whose energy correction is [0 / 0] the first state of
    the transition [1s - 2p3/2] raises the string ["NAN ENERGY"], which no
    handler of [main] catches; for [Z = 200] the error is [SMALL_GAMMA], and
    [main] returns [-1]. *)
Lemma string_errors_escape_main_witness :
  let t := {| n1 := 1; l1 := 0; s1 := false; n2 := 2; l2 := 1; s2 := true |} in
  fst (@tryStates Toy.libm Toy.degenerate Toy.indeterminate
         (Toy.the_atom Toy.degenerate (Fin 1) 2) [] t) =
    Uncaught (literal "NAN ENERGY") /\
  fst (@tryStates Toy.libm Toy.converging Toy.indeterminate
         (Toy.the_atom Toy.converging (Fin 200) 2) [] t) = ReturnedMinus1.
Proof.
  intros t. split.
  - let v := eval vm_compute in
      (@startingEnergy Toy.degenerate (Toy.the_atom Toy.degenerate (Fin 1) 2) 1 (-1)) in
    match v with
    | Ok ?E0 =>
        let w := eval vm_compute in
          (@stateTrial Toy.libm Toy.degenerate Toy.indeterminate
             (Toy.the_atom Toy.degenerate (Fin 1) 2) (-1) E0) in
        match w with
        | Ok (?st, ?tp, NaN) =>
            apply (proj1 (@string_errors_escape_main Toy.libm Toy.degenerate
                            Toy.indeterminate (Toy.the_atom Toy.degenerate (Fin 1) 2)
                            [] t E0 ltac:(reflexivity) ltac:(vm_compute; reflexivity)
                            ltac:(reflexivity)) st tp ltac:(vm_compute; reflexivity))
        end
    end.
  - let v := eval vm_compute in
      (@startingEnergy Toy.converging (Toy.the_atom Toy.converging (Fin 200) 2) 1 (-1)) in
    match v with
    | Ok ?E0 =>
        apply (proj1 (proj2 (@string_errors_escape_main Toy.libm Toy.converging
                               Toy.indeterminate
                               (Toy.the_atom Toy.converging (Fin 200) 2)
                               [] t E0 ltac:(reflexivity) ltac:(vm_compute; reflexivity)
                               ltac:(reflexivity))
                        (error_code SMALL_GAMMA) ltac:(vm_compute; reflexivity)))
    end.
Defined.

End MainFacts.
